(** * Ring buffers of [src/ringbuffer.h]: SPSC and MPMC byte queues

    A shallow embedding of the two classes [ringbuffer_spsc] and
    [ringbuffer_mpmc].

    - Cursors are [uint64_t] values, modelled as [Z] with the wrap-around at
      [2^64] written out.
    - The backing storage and the caller's buffers are byte regions
      addressed by an offset, modelled as functions from offsets to bytes;
      [memcpy] is a range update.
    - [malloc] is not modelled: a constructor takes its result as an
      argument.  [assert] is taken as enabled (no [NDEBUG]).
    - A call of the SPSC buffer is one transition of the shared object: it
      completes, it waits, or it aborts.  In Blocking mode [read] and
      [write] hold the same mutex; in Spinning mode the predicates keep the
      ranges copied by the two roles apart.
    - A call of the MPMC buffer is a sequence of steps, one per atomic
      access, and concurrent calls interleave their steps.  The atomics are
      taken as sequentially consistent; fences and memory orders are not
      modelled.
    - In Blocking mode a call of the MPMC buffer that waits on its condition
      variable is taken to go on as soon as its predicate holds.
      Notifications are not modelled, so a wake-up that is lost is not
      seen: what is proved of that mode says what a call does when it
      moves, not that it moves.
    - [memcpy] is a total update of a region.  The copies of the code are
      defined inside the storage and the caller's buffer only, which
      [len <= buf_size_] ensures; statements about what a copy yields carry
      that bound or exclude the wrapped sums that let a longer call
      through. *)

From Stdlib Require Import ZArith List Lia Bool String.
From Stdlib Require Import Strings.Byte.
From stdpp Require Import base list.
Import ListNotations.
Local Open Scope Z_scope.

(** ** 64-bit unsigned arithmetic *)

Module U64.

Definition modulus : Z := 2 ^ 64.

Definition wrap (x : Z) : Z := x mod modulus.

(** [a + b] on [uint64_t]. *)
Definition add (a b : Z) : Z := wrap (a + b).

(** [a - b] on [uint64_t]. *)
Definition sub (a b : Z) : Z := wrap (a - b).

(** A value of type [uint64_t]. *)
Definition in_range (x : Z) : Prop := 0 <= x < modulus.

End U64.

(** ** Byte regions and [memcpy] *)

Definition mem : Type := Z -> byte.

(** [memcpy(dst + doff, src + soff, n)]: the [n] bytes of [src] from offset
    [soff] replace those of [dst] from offset [doff]. *)
Definition memcpy (dst : mem) (doff : Z) (src : mem) (soff : Z) (n : Z) : mem :=
  fun i => if (doff <=? i) && (i <? doff + n) then src (soff + (i - doff)) else dst i.

(** The first [n] bytes of a region, as a list. *)
Definition bytes_of (m : mem) (n : Z) : list byte :=
  map (fun i => m (Z.of_nat i)) (seq 0 (Z.to_nat n)).

(** A region that starts with the bytes of [l]. *)
Definition region_of (l : list byte) : mem :=
  fun i => nth (Z.to_nat i) l x00.

(** A region filled with one byte, and the all-zero region. *)
Definition fill (b : byte) : mem := fun _ => b.
Definition zeroed : mem := fill x00.

(** ** Results of a call *)

(** The diagnostic line a call prints before [assert(false)]. *)
Inductive diagnostic : Type :=
| write_len_exceeds (len buf_size : Z)   (* "write len %lu > buf_size_ %lu\n" *)
| allocation_failed.                     (* assert(buffer_) *)

(** What one call does in a given state of the shared object: it completes,
    it stays in its wait (condition variable or spin loop) because the
    availability predicate is false and no other thread has moved a cursor,
    or it aborts the process. *)
Inductive outcome (A : Type) : Type :=
| Done (a : A)
| Blocked
| Fatal (d : diagnostic).
Arguments Done {A} a.
Arguments Blocked {A}.
Arguments Fatal {A} d.

(** ** The single-producer single-consumer buffer *)

Module Spsc.

Record ringbuffer_spsc : Type := mk {
  buffer_ : mem;
  buf_size_ : Z;
  enable_cv_ : bool;
  in_ : Z;
  out_ : Z
}.

(** The constructor.  [malloc_result] is what [malloc(buf_size)] returned:
    [None] for a null pointer.  The only check is [assert(buffer_)]. *)
Definition construct (buf_size : Z) (enable_cv : bool) (malloc_result : option mem)
  : outcome ringbuffer_spsc :=
  match malloc_result with
  | Some m => Done (mk m buf_size enable_cv 0 0)
  | None => Fatal allocation_failed
  end.

Definition get_total_in (s : ringbuffer_spsc) : Z := in_ s.
Definition get_total_out (s : ringbuffer_spsc) : Z := out_ s.

Definition can_put (s : ringbuffer_spsc) (size : Z) : bool :=
  U64.add (in_ s) size <=? U64.add (buf_size_ s) (out_ s).

Definition can_get (s : ringbuffer_spsc) (size : Z) : bool :=
  U64.add size (out_ s) <=? in_ s.

(** [x & (buf_size_ - 1)] *)
Definition mask (s : ringbuffer_spsc) (x : Z) : Z :=
  Z.land x (U64.sub (buf_size_ s) 1).

Definition put (s : ringbuffer_spsc) (buf : mem) (len : Z) : ringbuffer_spsc :=
  let l := Z.min len (U64.sub (buf_size_ s) (mask s (in_ s))) in
  let b1 := memcpy (buffer_ s) (mask s (in_ s)) buf 0 l in
  let b2 := memcpy b1 0 buf l (U64.sub len l) in
  mk b2 (buf_size_ s) (enable_cv_ s) (U64.add (in_ s) len) (out_ s).

(** [get] fills the caller's region [buf] and advances [out_]. *)
Definition get (s : ringbuffer_spsc) (buf : mem) (len : Z) : ringbuffer_spsc * mem :=
  let l := Z.min len (U64.sub (buf_size_ s) (mask s (out_ s))) in
  let r1 := memcpy buf 0 (buffer_ s) (mask s (out_ s)) l in
  let r2 := memcpy r1 l (buffer_ s) 0 (U64.sub len l) in
  (mk (buffer_ s) (buf_size_ s) (enable_cv_ s) (in_ s) (U64.add (out_ s) len), r2).

(** [read]: both wait modes wait for [can_get(len)] and then call [get]. *)
Definition read (s : ringbuffer_spsc) (buf : mem) (len : Z)
  : outcome (ringbuffer_spsc * mem) :=
  if enable_cv_ s then
    (if can_get s len then Done (get s buf len) else Blocked)
  else
    (if can_get s len then Done (get s buf len) else Blocked).

(** [write]: the length check comes first, then the wait, then [put]. *)
Definition write (s : ringbuffer_spsc) (buf : mem) (len : Z)
  : outcome ringbuffer_spsc :=
  if buf_size_ s <? len then Fatal (write_len_exceeds len (buf_size_ s))
  else if enable_cv_ s then
    (if can_put s len then Done (put s buf len) else Blocked)
  else
    (if can_put s len then Done (put s buf len) else Blocked).

End Spsc.

(** ** The multi-producer multi-consumer buffer *)

Module Mpmc.

Record ringbuffer_mpmc : Type := mk {
  buffer_ : mem;
  buf_size_ : Z;
  enable_cv_ : bool;
  in_ : Z;
  real_in_ : Z;
  out_ : Z;
  real_out_ : Z
}.

(** The constructor; as for the SPSC buffer the only check is
    [assert(buffer_)]. *)
Definition construct (buf_size : Z) (enable_cv : bool) (malloc_result : option mem)
  : outcome ringbuffer_mpmc :=
  match malloc_result with
  | Some m => Done (mk m buf_size enable_cv 0 0 0 0)
  | None => Fatal allocation_failed
  end.

Definition get_total_in (s : ringbuffer_mpmc) : Z := real_in_ s.
Definition get_total_out (s : ringbuffer_mpmc) : Z := real_out_ s.

Definition set_buffer (s : ringbuffer_mpmc) (m : mem) : ringbuffer_mpmc :=
  mk m (buf_size_ s) (enable_cv_ s) (in_ s) (real_in_ s) (out_ s) (real_out_ s).
Definition set_in (s : ringbuffer_mpmc) (v : Z) : ringbuffer_mpmc :=
  mk (buffer_ s) (buf_size_ s) (enable_cv_ s) v (real_in_ s) (out_ s) (real_out_ s).
Definition set_real_in (s : ringbuffer_mpmc) (v : Z) : ringbuffer_mpmc :=
  mk (buffer_ s) (buf_size_ s) (enable_cv_ s) (in_ s) v (out_ s) (real_out_ s).
Definition set_out (s : ringbuffer_mpmc) (v : Z) : ringbuffer_mpmc :=
  mk (buffer_ s) (buf_size_ s) (enable_cv_ s) (in_ s) (real_in_ s) v (real_out_ s).
Definition set_real_out (s : ringbuffer_mpmc) (v : Z) : ringbuffer_mpmc :=
  mk (buffer_ s) (buf_size_ s) (enable_cv_ s) (in_ s) (real_in_ s) (out_ s) v.

(** [x & (buf_size_ - 1)] *)
Definition mask (s : ringbuffer_mpmc) (x : Z) : Z :=
  Z.land x (U64.sub (buf_size_ s) 1).

(** [expected_in + len <= buf_size_ + real_out_]: the wait predicate of
    [put], and the negation of the first test of its retry condition. *)
Definition room (s : ringbuffer_mpmc) (expected_in len : Z) : bool :=
  U64.add expected_in len <=? U64.add (buf_size_ s) (real_out_ s).

(** [real_in_ >= expected_out + len]: the same for [get]. *)
Definition avail (s : ringbuffer_mpmc) (expected_out len : Z) : bool :=
  U64.add expected_out len <=? real_in_ s.

(** The two [memcpy] calls of [put], into the storage. *)
Definition copy_in (s : ringbuffer_mpmc) (expected_in : Z) (buf : mem) (len : Z) : mem :=
  let l := Z.min len (U64.sub (buf_size_ s) (mask s expected_in)) in
  let b1 := memcpy (buffer_ s) (mask s expected_in) buf 0 l in
  memcpy b1 0 buf l (U64.sub len l).

(** The two [memcpy] calls of [get], into the caller's region. *)
Definition copy_out (s : ringbuffer_mpmc) (expected_out : Z) (buf : mem) (len : Z) : mem :=
  let l := Z.min len (U64.sub (buf_size_ s) (mask s expected_out)) in
  let r1 := memcpy buf 0 (buffer_ s) (mask s expected_out) l in
  memcpy r1 l (buffer_ s) 0 (U64.sub len l).

(** Control points of one call of [put] or [get]; every atomic access of
    the code is one step between two of them.  The atomics are taken as
    sequentially consistent. *)
Inductive pc : Type :=
| top                      (* head of [while (true)] *)
| ready                    (* past the condition-variable wait *)
| loaded (expected : Z)    (* [expected = in_.load()] / [out_.load()] *)
| checked (expected : Z)   (* first test of the [if] passed *)
| reserved (expected : Z)  (* compare-exchange on [in_] / [out_] succeeded *)
| copied (expected : Z)    (* both [memcpy] done; in the commit loop *)
| returned.

(** What a step publishes, recorded in the history of a run. *)
Inductive event : Type :=
| tau
| ev_reserve_in (e len : Z)
| ev_commit_in (e len : Z)
| ev_reserve_out (e len : Z)
| ev_commit_out (e len : Z).

(** One step of [put(buf, len)].  [spurious] says whether a
    [compare_exchange_weak] executed in this step fails spuriously.  [None]:
    the call cannot move (it sleeps on the condition variable, or it has
    returned).  A failed compare-exchange on [in_] leads back to the head of
    the loop ([continue]).  A failed compare-exchange on [real_in_] stores
    the value found into [expected_in], the body of the commit loop puts
    [expected_in_bak] back, and the next attempt expects the start of the
    reserved range again: the call stays at [copied e]. *)
Definition put_step (spurious : bool) (s : ringbuffer_mpmc) (buf : mem) (len : Z) (p : pc)
  : option (ringbuffer_mpmc * pc * event) :=
  match p with
  | top =>
      if enable_cv_ s && negb (room s (in_ s) len) then None
      else Some (s, ready, tau)
  | ready => Some (s, loaded (in_ s), tau)
  | loaded e =>
      if room s e len then Some (s, checked e, tau) else Some (s, top, tau)
  | checked e =>
      if (in_ s =? e) && negb spurious
      then Some (set_in s (U64.add e len), reserved e, ev_reserve_in e len)
      else Some (s, top, tau)
  | reserved e => Some (set_buffer s (copy_in s e buf len), copied e, tau)
  | copied e =>
      if (real_in_ s =? e) && negb spurious
      then Some (set_real_in s (U64.add e len), returned, ev_commit_in e len)
      else Some (s, copied e, tau)
  | returned => None
  end.

(** One step of [get(buf, len)]; the caller's region changes at the copy. *)
Definition get_step (spurious : bool) (s : ringbuffer_mpmc) (buf : mem) (len : Z) (p : pc)
  : option (ringbuffer_mpmc * mem * pc * event) :=
  match p with
  | top =>
      if enable_cv_ s && negb (avail s (out_ s) len) then None
      else Some (s, buf, ready, tau)
  | ready => Some (s, buf, loaded (out_ s), tau)
  | loaded e =>
      if avail s e len then Some (s, buf, checked e, tau) else Some (s, buf, top, tau)
  | checked e =>
      if (out_ s =? e) && negb spurious
      then Some (set_out s (U64.add e len), buf, reserved e, ev_reserve_out e len)
      else Some (s, buf, top, tau)
  | reserved e => Some (s, copy_out s e buf len, copied e, tau)
  | copied e =>
      if (real_out_ s =? e) && negb spurious
      then Some (set_real_out s (U64.add e len), buf, returned, ev_commit_out e len)
      else Some (s, buf, copied e, tau)
  | returned => None
  end.

(** A call of [put] run alone: no other thread moves between its steps and
    no compare-exchange fails spuriously. *)
Fixpoint put_alone (fuel : nat) (s : ringbuffer_mpmc) (buf : mem) (len : Z) (p : pc)
  : ringbuffer_mpmc * pc :=
  match fuel with
  | O => (s, p)
  | S f =>
      match put_step false s buf len p with
      | Some (s', p', _) => put_alone f s' buf len p'
      | None => (s, p)
      end
  end.

Fixpoint get_alone (fuel : nat) (s : ringbuffer_mpmc) (buf : mem) (len : Z) (p : pc)
  : ringbuffer_mpmc * mem * pc :=
  match fuel with
  | O => (s, buf, p)
  | S f =>
      match get_step false s buf len p with
      | Some (s', buf', p', _) => get_alone f s' buf' len p'
      | None => (s, buf, p)
      end
  end.

(** [write] and [read] are [put] and [get].  [Blocked]: the call has not
    returned within [fuel] steps. *)
Definition write (fuel : nat) (s : ringbuffer_mpmc) (buf : mem) (len : Z)
  : outcome ringbuffer_mpmc :=
  match put_alone fuel s buf len top with
  | (s', returned) => Done s'
  | _ => Blocked
  end.

Definition read (fuel : nat) (s : ringbuffer_mpmc) (buf : mem) (len : Z)
  : outcome (ringbuffer_mpmc * mem) :=
  match get_alone fuel s buf len top with
  | (s', buf', returned) => Done (s', buf')
  | _ => Blocked
  end.

(** *** Concurrent calls *)

(** A call in progress: its arguments and its control point. *)
Inductive call : Type :=
| put_call (buf : mem) (len : Z) (p : pc)
| get_call (buf : mem) (len : Z) (p : pc).

Definition call_len (c : call) : Z :=
  match c with put_call _ len _ | get_call _ len _ => len end.

Definition call_pc (c : call) : pc :=
  match c with put_call _ _ p | get_call _ _ p => p end.

Definition call_step (spurious : bool) (s : ringbuffer_mpmc) (c : call)
  : option (ringbuffer_mpmc * call * event) :=
  match c with
  | put_call buf len p =>
      match put_step spurious s buf len p with
      | Some (s', p', ev) => Some (s', put_call buf len p', ev)
      | None => None
      end
  | get_call buf len p =>
      match get_step spurious s buf len p with
      | Some (s', buf', p', ev) => Some (s', get_call buf' len p', ev)
      | None => None
      end
  end.

(** The shared object, the calls in progress, and the history of published
    events, newest first. *)
Record config : Type := mk_config {
  shared : ringbuffer_mpmc;
  pool : list call;
  history : list event
}.

Definition record (ev : event) (h : list event) : list event :=
  match ev with tau => h | _ => ev :: h end.

(** Call number [i] takes one step. *)
Definition sys_step (i : nat) (spurious : bool) (c : config) : option config :=
  match pool c !! i with
  | Some cl =>
      match call_step spurious (shared c) cl with
      | Some (s', cl', ev) =>
          Some (mk_config s' (<[i := cl']> (pool c)) (record ev (history c)))
      | None => None
      end
  | None => None
  end.

(** A schedule names, step by step, the call that moves and whether its
    compare-exchange fails spuriously; a call that cannot move is skipped. *)
Fixpoint run (sched : list (nat * bool)) (c : config) : config :=
  match sched with
  | [] => c
  | (i, sp) :: rest =>
      match sys_step i sp c with
      | Some c' => run rest c'
      | None => run rest c
      end
  end.

End Mpmc.

(** * Specification vocabulary *)

(** A capacity the index mask works for: a power of two that fits 64 bits. *)
Definition power_of_two (c : Z) : Prop := exists k, 0 <= k < 64 /\ c = 2 ^ k.

(** Cell [j] of a storage of [cap] cells after [len] bytes of [buf] were
    stored from cursor position [pos] on, wrapping at the end. *)
Definition wrapped_store (cap : Z) (m : mem) (pos : Z) (buf : mem) (len : Z) : mem :=
  fun j =>
    if (0 <=? j) && (j <? cap) && ((j - pos) mod cap <? len)
    then buf ((j - pos) mod cap) else m j.

(** Byte [i] of a caller's region after [len] bytes were loaded into it from
    cursor position [pos] on. *)
Definition wrapped_load (cap : Z) (m : mem) (pos : Z) (buf : mem) (len : Z) : mem :=
  fun i => if (0 <=? i) && (i <? len) then m ((pos + i) mod cap) else buf i.

(** The storage offset of byte [i] of a transfer that starts at cursor
    position [pos]: [pos mod cap + i], or that minus [cap] once the range has
    crossed the end of the storage. *)
Definition slot (cap pos i : Z) : Z :=
  if pos mod cap + i <? cap then pos mod cap + i else pos mod cap + i - cap.

(** Two regions agree on their first [n] bytes. *)
Definition same_bytes (n : Z) (a b : mem) : Prop :=
  forall i, 0 <= i < n -> a i = b i.

(** ** SPSC *)

Definition spsc_wf (s : Spsc.ringbuffer_spsc) : Prop :=
  power_of_two (Spsc.buf_size_ s) /\
  U64.in_range (Spsc.in_ s) /\ U64.in_range (Spsc.out_ s).

(** [out <= in <= out + capacity] *)
Definition spsc_inv (s : Spsc.ringbuffer_spsc) : Prop :=
  Spsc.out_ s <= Spsc.in_ s <= Spsc.out_ s + Spsc.buf_size_ s.

(** The state a successful construction yields. *)
Definition spsc_init (cap : Z) (cv : bool) (m : mem) : Spsc.ringbuffer_spsc :=
  Spsc.mk m cap cv 0 0.

(** A chunk handed to [write]: the caller's region and the length. *)
Record chunk : Type := mk_chunk { data : mem; size : Z }.

Definition chunk_of_bytes (l : list byte) : chunk :=
  mk_chunk (region_of l) (Z.of_nat (length l)).

Fixpoint total_size (cs : list chunk) : Z :=
  match cs with
  | [] => 0
  | c :: rest => size c + total_size rest
  end.

(** One producer writing [pending] in order and one consumer reading the
    sizes [wanted] in order, each read into a fresh zeroed region; [received]
    holds the regions read so far, oldest first. *)
Record session : Type := mk_session {
  rb : Spsc.ringbuffer_spsc;
  pending : list chunk;
  wanted : list Z;
  received : list mem;
  crashed : option diagnostic
}.

Inductive role : Type := producer | consumer.

(** The role's next call is tried in the current state: it completes, or it
    stays blocked and nothing changes. *)
Definition session_step (r : role) (x : session) : session :=
  match crashed x with
  | Some _ => x
  | None =>
      match r with
      | producer =>
          match pending x with
          | [] => x
          | c :: rest =>
              match Spsc.write (rb x) (data c) (size c) with
              | Done s' => mk_session s' rest (wanted x) (received x) None
              | Blocked => x
              | Fatal d => mk_session (rb x) (pending x) (wanted x) (received x) (Some d)
              end
          end
      | consumer =>
          match wanted x with
          | [] => x
          | n :: rest =>
              match Spsc.read (rb x) zeroed n with
              | Done (s', m) => mk_session s' (pending x) rest (received x ++ [m]) None
              | Blocked => x
              | Fatal d => mk_session (rb x) (pending x) (wanted x) (received x) (Some d)
              end
          end
      end
  end.

Definition session_run (sched : list role) (x : session) : session :=
  fold_left (fun x r => session_step r x) sched x.

Definition session_start (s : Spsc.ringbuffer_spsc) (cs : list chunk) : session :=
  mk_session s cs (map size cs) [] None.

(** Every region received so far holds the bytes of the chunk at the same
    place of the sequence written. *)
Definition delivered_in_order (cs : list chunk) (x : session) : Prop :=
  (length (received x) <= length cs)%nat /\
  forall (k : nat) (m : mem) (c : chunk),
    received x !! k = Some m -> cs !! k = Some c ->
    bytes_of m (size c) = bytes_of (data c) (size c).

(** The byte at position [p] of the chunks laid end to end. *)
Fixpoint stream (cs : list chunk) (p : Z) : byte :=
  match cs with
  | [] => x00
  | c :: rest => if p <? size c then data c p else stream rest (p - size c)
  end.

(** The state of a session in which the producer has completed [nw] writes
    and the consumer [nr] reads of the chunks [cs]: the cursors count the
    bytes of the chunks passed, and the storage holds the bytes between the
    cursors. *)
Definition session_inv (cap : Z) (cs : list chunk) (nw nr : nat) (x : session) : Prop :=
  (nw <= length cs)%nat /\ (nr <= length cs)%nat /\
  pending x = drop nw cs /\ wanted x = map size (drop nr cs) /\
  length (received x) = nr /\ crashed x = None /\
  spsc_wf (rb x) /\ spsc_inv (rb x) /\ Spsc.buf_size_ (rb x) = cap /\
  Spsc.in_ (rb x) = total_size (take nw cs) /\
  Spsc.out_ (rb x) = total_size (take nr cs) /\
  (forall p, Spsc.out_ (rb x) <= p < Spsc.in_ (rb x) ->
             Spsc.buffer_ (rb x) (p mod cap) = stream cs p) /\
  (forall (k : nat) (m : mem) (c : chunk),
     received x !! k = Some m -> cs !! k = Some c -> same_bytes (size c) m (data c)).

(** A sequence of completed calls on one SPSC buffer. *)
Inductive spsc_op : Type :=
| op_write (buf : mem) (len : Z)
| op_read (len : Z).

Definition spsc_op_len (o : spsc_op) : Z :=
  match o with op_write _ len | op_read len => len end.

Definition spsc_apply (o : spsc_op) (s : Spsc.ringbuffer_spsc) : outcome Spsc.ringbuffer_spsc :=
  match o with
  | op_write buf len => Spsc.write s buf len
  | op_read len =>
      match Spsc.read s zeroed len with
      | Done (s', _) => Done s'
      | Blocked => Blocked
      | Fatal d => Fatal d
      end
  end.

(** [spsc_trace s ops s']: every call of [ops] completes, in order, and
    leads from [s] to [s']. *)
Inductive spsc_trace : Spsc.ringbuffer_spsc -> list spsc_op -> Spsc.ringbuffer_spsc -> Prop :=
| spsc_trace_nil s : spsc_trace s [] s
| spsc_trace_cons s o s1 ops s2 :
    spsc_apply o s = Done s1 -> spsc_trace s1 ops s2 -> spsc_trace s (o :: ops) s2.

Fixpoint written_bytes (ops : list spsc_op) : Z :=
  match ops with
  | [] => 0
  | op_write _ len :: rest => len + written_bytes rest
  | op_read _ :: rest => written_bytes rest
  end.

(** ** MPMC *)

Definition mpmc_init (cap : Z) (cv : bool) (m : mem) : Mpmc.ringbuffer_mpmc :=
  Mpmc.mk m cap cv 0 0 0 0.

(** [real_out_ <= out_ <= real_in_ <= in_ <= real_out_ + buf_size_], and no
    cursor is negative. *)
Definition mpmc_chain (s : Mpmc.ringbuffer_mpmc) : Prop :=
  0 <= Mpmc.real_out_ s /\
  Mpmc.real_out_ s <= Mpmc.out_ s /\
  Mpmc.out_ s <= Mpmc.real_in_ s /\
  Mpmc.real_in_ s <= Mpmc.in_ s /\
  Mpmc.in_ s <= Mpmc.real_out_ s + Mpmc.buf_size_ s.

(** No call is between its reservation and its commit. *)
Definition mpmc_quiescent (s : Mpmc.ringbuffer_mpmc) : Prop :=
  Mpmc.real_in_ s = Mpmc.in_ s /\ Mpmc.real_out_ s = Mpmc.out_ s.

(** The 64-bit sums the code forms from this state do not wrap. *)
Definition mpmc_headroom (s : Mpmc.ringbuffer_mpmc) : Prop :=
  Mpmc.in_ s + Mpmc.buf_size_ s < U64.modulus.

(** A sequence of calls on one MPMC buffer, each run alone to its return. *)
Inductive mpmc_op : Type :=
| mop_write (buf : mem) (len : Z)
| mop_read (len : Z).

Definition mpmc_op_len (o : mpmc_op) : Z :=
  match o with mop_write _ len | mop_read len => len end.

Definition mpmc_apply (fuel : nat) (o : mpmc_op) (s : Mpmc.ringbuffer_mpmc)
  : outcome Mpmc.ringbuffer_mpmc :=
  match o with
  | mop_write buf len => Mpmc.write fuel s buf len
  | mop_read len =>
      match Mpmc.read fuel s zeroed len with
      | Done (s', _) => Done s'
      | Blocked => Blocked
      | Fatal d => Fatal d
      end
  end.

Inductive mpmc_trace : Mpmc.ringbuffer_mpmc -> list mpmc_op -> Mpmc.ringbuffer_mpmc -> Prop :=
| mpmc_trace_nil s : mpmc_trace s [] s
| mpmc_trace_cons s o fuel s1 ops s2 :
    mpmc_apply fuel o s = Done s1 -> mpmc_trace s1 ops s2 -> mpmc_trace s (o :: ops) s2.

Fixpoint mpmc_written (ops : list mpmc_op) : Z :=
  match ops with
  | [] => 0
  | mop_write _ len :: rest => len + mpmc_written rest
  | mop_read _ :: rest => mpmc_written rest
  end.

(** *** Calls in progress on the MPMC buffer *)

(** The range a call holds between its reservation and its commit, with
    the side it is on ([true]: a writer). *)
Definition claim (c : Mpmc.call) : option (bool * Z * Z) :=
  match c with
  | Mpmc.put_call _ len (Mpmc.reserved e | Mpmc.copied e) => Some (true, e, len)
  | Mpmc.get_call _ len (Mpmc.reserved e | Mpmc.copied e) => Some (false, e, len)
  | _ => None
  end.

(** What a call of [put] at control point [p] knows of the cursors. *)
Definition put_ok (s : Mpmc.ringbuffer_mpmc) (len : Z) (p : Mpmc.pc) : Prop :=
  match p with
  | Mpmc.loaded e => 0 <= e <= Mpmc.in_ s
  | Mpmc.checked e =>
      0 <= e <= Mpmc.in_ s /\ e + len <= Mpmc.buf_size_ s + Mpmc.real_out_ s
  | Mpmc.reserved e | Mpmc.copied e =>
      0 <= e /\ e + len <= Mpmc.in_ s /\ (Mpmc.real_in_ s <= e \/ len = 0)
  | _ => True
  end.

Definition get_ok (s : Mpmc.ringbuffer_mpmc) (len : Z) (p : Mpmc.pc) : Prop :=
  match p with
  | Mpmc.loaded e => 0 <= e <= Mpmc.out_ s
  | Mpmc.checked e => 0 <= e <= Mpmc.out_ s /\ e + len <= Mpmc.real_in_ s
  | Mpmc.reserved e | Mpmc.copied e =>
      0 <= e /\ e + len <= Mpmc.out_ s /\ (Mpmc.real_out_ s <= e \/ len = 0)
  | _ => True
  end.

Definition call_ok (s : Mpmc.ringbuffer_mpmc) (c : Mpmc.call) : Prop :=
  0 <= Mpmc.call_len c <= Mpmc.buf_size_ s /\
  match c with
  | Mpmc.put_call _ len p => put_ok s len p
  | Mpmc.get_call _ len p => get_ok s len p
  end.

(** Two calls on the same side hold ranges that do not overlap. *)
Definition apart (c1 c2 : Mpmc.call) : Prop :=
  match claim c1, claim c2 with
  | Some (sd1, e1, l1), Some (sd2, e2, l2) =>
      sd1 = sd2 -> e1 + l1 <= e2 \/ e2 + l2 <= e1
  | _, _ => True
  end.

Definition pool_ok (s : Mpmc.ringbuffer_mpmc) (pl : list Mpmc.call) : Prop :=
  (forall i c, pl !! i = Some c -> call_ok s c) /\
  (forall i j c1 c2, i <> j -> pl !! i = Some c1 -> pl !! j = Some c2 -> apart c1 c2).

Definition mpmc_inv (c : Mpmc.config) : Prop :=
  mpmc_chain (Mpmc.shared c) /\ pool_ok (Mpmc.shared c) (Mpmc.pool c).

(** A call that has not started, of a length the buffer can hold. *)
Definition fresh_call (cap : Z) (c : Mpmc.call) : Prop :=
  Mpmc.call_pc c = Mpmc.top /\ 0 <= Mpmc.call_len c <= cap.

Definition mpmc_start (cap : Z) (cv : bool) (m : mem) (calls : list Mpmc.call) : Mpmc.config :=
  Mpmc.mk_config (mpmc_init cap cv m) calls [].

(** The configurations reached from [c0] by steps of the calls, in any
    interleaving, each taken where the 64-bit sums do not wrap. *)
Inductive mpmc_reach (c0 : Mpmc.config) : Mpmc.config -> Prop :=
| reach_here : mpmc_reach c0 c0
| reach_step c i sp c' :
    mpmc_reach c0 c -> mpmc_headroom (Mpmc.shared c) ->
    Mpmc.sys_step i sp c = Some c' -> mpmc_reach c0 c'.

(** A schedule that runs the calls number [first], [first + 1], ... of the
    pool to their return, one after the other. *)
Fixpoint one_by_one (first count : nat) : list (nat * bool) :=
  match count with
  | O => []
  | S n => repeat (first, false) 6 ++ one_by_one (S first) n
  end.

(** *** The history of reservations and commits *)

(** The ranges [(start, len)] reserved and committed on each side, read off
    a history; like the history, newest first. *)
Fixpoint reserves_in (h : list Mpmc.event) : list (Z * Z) :=
  match h with
  | [] => []
  | Mpmc.ev_reserve_in e len :: rest => (e, len) :: reserves_in rest
  | _ :: rest => reserves_in rest
  end.

Fixpoint commits_in (h : list Mpmc.event) : list (Z * Z) :=
  match h with
  | [] => []
  | Mpmc.ev_commit_in e len :: rest => (e, len) :: commits_in rest
  | _ :: rest => commits_in rest
  end.

Fixpoint reserves_out (h : list Mpmc.event) : list (Z * Z) :=
  match h with
  | [] => []
  | Mpmc.ev_reserve_out e len :: rest => (e, len) :: reserves_out rest
  | _ :: rest => reserves_out rest
  end.

Fixpoint commits_out (h : list Mpmc.event) : list (Z * Z) :=
  match h with
  | [] => []
  | Mpmc.ev_commit_out e len :: rest => (e, len) :: commits_out rest
  | _ :: rest => commits_out rest
  end.

(** A range that holds at least one byte. *)
Definition nonempty (r : Z * Z) : bool := 0 <? snd r.

(** A non-empty range that ends at or below [b]. *)
Definition below (b : Z) (r : Z * Z) : bool := nonempty r && (fst r + snd r <=? b).

(** The ranges, newest first, lie end to end from 0 up to [top]: no gap and
    no overlap. *)
Fixpoint tiles (rs : list (Z * Z)) (top : Z) : Prop :=
  match rs with
  | [] => top = 0
  | (e, len) :: rest => 0 <= len /\ e + len = top /\ tiles rest e
  end.


(** What the histories of one side say: reservations tile up to the
    reservation cursor, commits tile up to the committed cursor, and the
    non-empty commits are the non-empty reservations that end at or below the
    committed cursor. *)
Definition side_inv (reserves commits : list (Z * Z)) (reserved committed : Z) : Prop :=
  tiles reserves reserved /\ tiles commits committed /\
  List.filter nonempty commits = List.filter (below committed) reserves.

Definition claim_logged (h : list Mpmc.event) (c : Mpmc.call) : Prop :=
  match claim c with
  | Some (true, e, len) => In (e, len) (reserves_in h)
  | Some (false, e, len) => In (e, len) (reserves_out h)
  | None => True
  end.

Definition log_inv (c : Mpmc.config) : Prop :=
  let s := Mpmc.shared c in
  let h := Mpmc.history c in
  side_inv (reserves_in h) (commits_in h) (Mpmc.in_ s) (Mpmc.real_in_ s) /\
  side_inv (reserves_out h) (commits_out h) (Mpmc.out_ s) (Mpmc.real_out_ s) /\
  forall i cl, Mpmc.pool c !! i = Some cl -> claim_logged h cl.

(** *** The steps of a call, by what they publish *)

(** The shapes a step of a call can have: it publishes nothing and moves
    no cursor, or it is one of the four compare-exchanges that succeed. *)
Inductive step_shape (s s' : Mpmc.ringbuffer_mpmc) (cl cl' : Mpmc.call) : Mpmc.event -> Prop :=
| shape_quiet :
    Mpmc.in_ s' = Mpmc.in_ s -> Mpmc.real_in_ s' = Mpmc.real_in_ s ->
    Mpmc.out_ s' = Mpmc.out_ s -> Mpmc.real_out_ s' = Mpmc.real_out_ s ->
    claim cl' = claim cl \/ claim cl' = None ->
    step_shape s s' cl cl' Mpmc.tau
| shape_reserve_in buf len e :
    cl = Mpmc.put_call buf len (Mpmc.checked e) ->
    cl' = Mpmc.put_call buf len (Mpmc.reserved e) ->
    Mpmc.in_ s = e -> Mpmc.in_ s' = e + len -> Mpmc.real_in_ s' = Mpmc.real_in_ s ->
    Mpmc.out_ s' = Mpmc.out_ s -> Mpmc.real_out_ s' = Mpmc.real_out_ s ->
    step_shape s s' cl cl' (Mpmc.ev_reserve_in e len)
| shape_commit_in buf len e :
    cl = Mpmc.put_call buf len (Mpmc.copied e) ->
    cl' = Mpmc.put_call buf len Mpmc.returned ->
    Mpmc.real_in_ s = e -> Mpmc.real_in_ s' = e + len -> Mpmc.in_ s' = Mpmc.in_ s ->
    Mpmc.out_ s' = Mpmc.out_ s -> Mpmc.real_out_ s' = Mpmc.real_out_ s ->
    step_shape s s' cl cl' (Mpmc.ev_commit_in e len)
| shape_reserve_out buf buf' len e :
    cl = Mpmc.get_call buf len (Mpmc.checked e) ->
    cl' = Mpmc.get_call buf' len (Mpmc.reserved e) ->
    Mpmc.out_ s = e -> Mpmc.out_ s' = e + len -> Mpmc.real_out_ s' = Mpmc.real_out_ s ->
    Mpmc.in_ s' = Mpmc.in_ s -> Mpmc.real_in_ s' = Mpmc.real_in_ s ->
    step_shape s s' cl cl' (Mpmc.ev_reserve_out e len)
| shape_commit_out buf buf' len e :
    cl = Mpmc.get_call buf len (Mpmc.copied e) ->
    cl' = Mpmc.get_call buf' len Mpmc.returned ->
    Mpmc.real_out_ s = e -> Mpmc.real_out_ s' = e + len -> Mpmc.out_ s' = Mpmc.out_ s ->
    Mpmc.in_ s' = Mpmc.in_ s -> Mpmc.real_in_ s' = Mpmc.real_in_ s ->
    step_shape s s' cl cl' (Mpmc.ev_commit_out e len).


(** * Further vocabulary *)

(** The MPMC buffer seen as an SPSC buffer: the storage and the two
    reservation cursors. *)
Definition spsc_view (t : Mpmc.ringbuffer_mpmc) : Spsc.ringbuffer_spsc :=
  Spsc.mk (Mpmc.buffer_ t) (Mpmc.buf_size_ t) (Mpmc.enable_cv_ t) (Mpmc.in_ t) (Mpmc.out_ t).

(** ** The SPSC buffer as a byte stream *)

Fixpoint sum_sizes (ws : list Z) : Z :=
  match ws with
  | [] => 0
  | n :: rest => n + sum_sizes rest
  end.

(** A session in which the consumer reads the sizes [ws], whatever the
    sizes of the chunks written. *)
Definition stream_start (s : Spsc.ringbuffer_spsc) (cs : list chunk) (ws : list Z) : session :=
  mk_session s cs ws [] None.

(** Byte [i] of the [k]-th region received is the byte of the stream at the
    position that follows the reads before it. *)
Definition delivered_as_stream (cs : list chunk) (ws : list Z) (x : session) : Prop :=
  (length (received x) <= length ws)%nat /\
  forall (k : nat) (m : mem) (n : Z),
    received x !! k = Some m -> ws !! k = Some n ->
    forall i, 0 <= i < n -> m i = stream cs (sum_sizes (take k ws) + i).

(** As [session_inv], with [nr] reads of the sizes [ws] completed. *)
Definition stream_inv (cap : Z) (cs : list chunk) (ws : list Z) (nw nr : nat) (x : session)
  : Prop :=
  (nw <= length cs)%nat /\ (nr <= length ws)%nat /\
  pending x = drop nw cs /\ wanted x = drop nr ws /\
  length (received x) = nr /\ crashed x = None /\
  spsc_wf (rb x) /\ spsc_inv (rb x) /\ Spsc.buf_size_ (rb x) = cap /\
  Spsc.in_ (rb x) = total_size (take nw cs) /\
  Spsc.out_ (rb x) = sum_sizes (take nr ws) /\
  (forall p, Spsc.out_ (rb x) <= p < Spsc.in_ (rb x) ->
             Spsc.buffer_ (rb x) (p mod cap) = stream cs p) /\
  delivered_as_stream cs ws x.

(** ** Messages of one length through the MPMC buffer *)

(** A call that moves [len] bytes; a writer's region starts with the first
    [len] bytes of [msg]. *)
Definition uniform_call (len : Z) (msg : mem) (c : Mpmc.call) : Prop :=
  Mpmc.call_len c = len /\
  match c with
  | Mpmc.put_call buf _ _ => same_bytes len buf msg
  | Mpmc.get_call _ _ _ => True
  end.

(** What a call in progress has done to the bytes: a reserved range starts
    at a multiple of [len]; a writer past its copy has stored [msg] in the
    cells of its range; a reader past its copy holds [msg]. *)
Definition call_data (s : Mpmc.ringbuffer_mpmc) (len : Z) (msg : mem) (c : Mpmc.call) : Prop :=
  match c with
  | Mpmc.put_call _ _ (Mpmc.reserved e) => Z.divide len e
  | Mpmc.put_call _ _ (Mpmc.copied e) =>
      Z.divide len e /\
      forall k, 0 <= k < len -> Mpmc.buffer_ s ((e + k) mod Mpmc.buf_size_ s) = msg k
  | Mpmc.get_call _ _ (Mpmc.reserved e) => Z.divide len e
  | Mpmc.get_call buf _ (Mpmc.copied _ | Mpmc.returned) => same_bytes len buf msg
  | _ => True
  end.

(** The committed bytes not yet released are copies of [msg] laid end to
    end: stream position [p] holds byte [p mod len] of [msg]. *)
Definition stored_messages (s : Mpmc.ringbuffer_mpmc) (len : Z) (msg : mem) : Prop :=
  forall p, Mpmc.real_out_ s <= p < Mpmc.real_in_ s ->
            Mpmc.buffer_ s (p mod Mpmc.buf_size_ s) = msg (p mod len).

Definition data_inv (len : Z) (msg : mem) (c : Mpmc.config) : Prop :=
  let s := Mpmc.shared c in
  Z.divide len (Mpmc.in_ s) /\ Z.divide len (Mpmc.out_ s) /\
  stored_messages s len msg /\
  Forall (uniform_call len msg) (Mpmc.pool c) /\
  forall i cl, Mpmc.pool c !! i = Some cl -> call_data s len msg cl.

(** ** The MPMC buffer as a byte stream *)

(** A committed transfer: its range [(start, len)] and the caller's region
    -- the bytes a writer stored, or the bytes a reader was given. *)
Definition transfer : Type := (Z * Z) * mem.

(** The transfers committed so far, newest first; a step adds one when it
    is a commit. *)
Definition log_write (cl : Mpmc.call) (ev : Mpmc.event) (w : list transfer) : list transfer :=
  match ev, cl with
  | Mpmc.ev_commit_in e len, Mpmc.put_call buf _ _ => ((e, len), buf) :: w
  | _, _ => w
  end.

Definition log_read (cl' : Mpmc.call) (ev : Mpmc.event) (r : list transfer) : list transfer :=
  match ev, cl' with
  | Mpmc.ev_commit_out e len, Mpmc.get_call buf _ _ => ((e, len), buf) :: r
  | _, _ => r
  end.

(** One step of call [i], with the two logs. *)
Definition logged_step (i : nat) (sp : bool) (x : Mpmc.config * list transfer * list transfer)
  : option (Mpmc.config * list transfer * list transfer) :=
  let '(c, w, r) := x in
  match Mpmc.pool c !! i with
  | Some cl =>
      match Mpmc.call_step sp (Mpmc.shared c) cl with
      | Some (s', cl', ev) =>
          Some (Mpmc.mk_config s' (<[i := cl']> (Mpmc.pool c)) (Mpmc.record ev (Mpmc.history c)),
                log_write cl ev w, log_read cl' ev r)
      | None => None
      end
  | None => None
  end.

Fixpoint run_logged (sched : list (nat * bool)) (x : Mpmc.config * list transfer * list transfer)
  : Mpmc.config * list transfer * list transfer :=
  match sched with
  | [] => x
  | (i, sp) :: rest =>
      match logged_step i sp x with
      | Some x' => run_logged rest x'
      | None => run_logged rest x
      end
  end.

(** The configurations reached from [c0], as [mpmc_reach], with the writes
    and the reads committed on the way. *)
Inductive mpmc_reach_logged (c0 : Mpmc.config)
  : Mpmc.config * list transfer * list transfer -> Prop :=
| logged_here : mpmc_reach_logged c0 (c0, [], [])
| logged_next x i sp x' :
    mpmc_reach_logged c0 x -> mpmc_headroom (Mpmc.shared (fst (fst x))) ->
    logged_step i sp x = Some x' -> mpmc_reach_logged c0 x'.

(** The byte at position [p] of the stream the committed writes make up:
    that of the newest write that starts at or below [p]. *)
Fixpoint stream_of (w : list transfer) (p : Z) : byte :=
  match w with
  | [] => x00
  | ((e, _), buf) :: rest => if e <=? p then buf (p - e) else stream_of rest p
  end.

(** What a call past its copy has done to the bytes. *)
Definition call_bytes (s : Mpmc.ringbuffer_mpmc) (w : list transfer) (c : Mpmc.call) : Prop :=
  match c with
  | Mpmc.put_call buf len (Mpmc.copied e) =>
      forall k, 0 <= k < len -> Mpmc.buffer_ s ((e + k) mod Mpmc.buf_size_ s) = buf k
  | Mpmc.get_call buf len (Mpmc.copied e) =>
      forall k, 0 <= k < len -> buf k = stream_of w (e + k)
  | _ => True
  end.

(** A region holds the bytes of the stream at the positions of its range. *)
Definition reads_stream (w : list transfer) (t : transfer) : Prop :=
  forall k, 0 <= k < snd (fst t) -> snd t k = stream_of w (fst (fst t) + k).

Definition mpmc_stream_inv (x : Mpmc.config * list transfer * list transfer) : Prop :=
  let '(c, w, r) := x in
  let s := Mpmc.shared c in
  tiles (map fst w) (Mpmc.real_in_ s) /\ tiles (map fst r) (Mpmc.real_out_ s) /\
  (forall p, Mpmc.real_out_ s <= p < Mpmc.real_in_ s ->
             Mpmc.buffer_ s (p mod Mpmc.buf_size_ s) = stream_of w p) /\
  (forall i cl, Mpmc.pool c !! i = Some cl -> call_bytes s w cl) /\
  Forall (reads_stream w) r.

Arguments mpmc_stream_inv : simpl never.

(** ** Reservations and their holders *)

(** Every range of positive length reserved on one side and not yet
    committed is held by a call of the pool. *)
Definition side_held (pl : list Mpmc.call) (sd : bool) (reserves : list (Z * Z))
    (committed : Z) : Prop :=
  forall e len, In (e, len) reserves -> 0 < len -> committed <= e ->
    exists i cl, pl !! i = Some cl /\ claim cl = Some (sd, e, len).

Definition held_inv (c : Mpmc.config) : Prop :=
  side_held (Mpmc.pool c) true (reserves_in (Mpmc.history c)) (Mpmc.real_in_ (Mpmc.shared c)) /\
  side_held (Mpmc.pool c) false (reserves_out (Mpmc.history c)) (Mpmc.real_out_ (Mpmc.shared c)).

(** The steps a call that holds a range still has to take, unless a
    compare-exchange fails spuriously: the copy and the commit, or the
    commit. *)
Definition steps_to_commit (p : Mpmc.pc) : nat :=
  match p with Mpmc.reserved _ => 2 | _ => 1 end.

(** The bytes moved by the calls of one side ([true]: [put]) that have
    returned. *)
Definition returned_len (side : bool) (c : Mpmc.call) : Z :=
  match c with
  | Mpmc.put_call _ len Mpmc.returned => if side then len else 0
  | Mpmc.get_call _ len Mpmc.returned => if side then 0 else len
  | _ => 0
  end.

Definition returned_bytes (side : bool) (pl : list Mpmc.call) : Z :=
  sum_sizes (map (returned_len side) pl).

(** The committed cursors count the bytes of the calls that have returned. *)
Definition counted (c : Mpmc.config) : Prop :=
  Mpmc.real_in_ (Mpmc.shared c) = returned_bytes true (Mpmc.pool c) /\
  Mpmc.real_out_ (Mpmc.shared c) = returned_bytes false (Mpmc.pool c).

(** The 64-bit sums do not wrap at any step the schedule takes from [c]. *)
Fixpoint headroom_along (sched : list (nat * bool)) (c : Mpmc.config) : bool :=
  match sched with
  | [] => true
  | (i, sp) :: rest =>
      match Mpmc.sys_step i sp c with
      | Some c' =>
          (Mpmc.in_ (Mpmc.shared c) + Mpmc.buf_size_ (Mpmc.shared c) <? U64.modulus) &&
          headroom_along rest c'
      | None => headroom_along rest c
      end
  end.

(** ** The test program of [unnamed/part_000] *)

Module Harness.

Definition base64_chars : list byte :=
  list_byte_of_string "ABCDEFGHIJKLMNOPQRSTUVWXYZabcdefghijklmnopqrstuvwxyz0123456789+/".

(** [for (int i = 0; i < 1000; ++i) str += base64_chars[i % 64];] *)
Definition test_str : list byte :=
  fold_left (fun str i => str ++ [nth (Nat.modulo i 64) base64_chars x00]) (seq 0 1000) [].

(** One turn of the loop of [test_write]:
    [rb->write(test_str.data(), test_str.length())], about to start. *)
Definition test_write : Mpmc.call :=
  Mpmc.put_call (region_of test_str) (Z.of_nat (length test_str)) Mpmc.top.

(** One turn of the loop of [test_read]: [rb->read(buf, test_str.length())]
    on the uninitialised array [buf], about to start. *)
Definition test_read (buf : mem) : Mpmc.call :=
  Mpmc.get_call buf (Z.of_nat (length test_str)) Mpmc.top.

(** The condition of the [assert] that follows [read] in [test_read]. *)
Definition assertion (buf : mem) : bool :=
  if List.list_eq_dec byte_eq_dec (bytes_of buf (Z.of_nat (length test_str))) test_str
  then true else false.

(** A turn of [test_read] whose [read] has returned passes its [assert]. *)
Definition passed (c : Mpmc.call) : bool :=
  match c with
  | Mpmc.get_call buf _ Mpmc.returned => assertion buf
  | _ => true
  end.

Inductive thread_call : Mpmc.call -> Prop :=
| turn_of_writer : thread_call test_write
| turn_of_reader buf : thread_call (test_read buf).

(** [main]: [test_ringbuffer rb(1ul << 13, false)], then the threads.  The
    pool holds the turns the writer and reader threads take, each a call that
    has not started; the thread of [on_time_print] only loads the two
    counters.  Every run of the threads is an interleaving of the steps of
    these calls. *)
Definition main (malloc_result : option mem) (turns : list Mpmc.call) : outcome Mpmc.config :=
  match Mpmc.construct (Z.shiftl 1 13) false malloc_result with
  | Done rb => Done (Mpmc.mk_config rb turns [])
  | Blocked => Blocked
  | Fatal d => Fatal d
  end.

End Harness.

(** * Proofs *)

(** ** Arithmetic on cursors *)

Lemma modulus_eq : U64.modulus = 18446744073709551616.
Proof. reflexivity. Qed.

Lemma wrap_small (x : Z) : 0 <= x < U64.modulus -> U64.wrap x = x.
Proof. intros H. unfold U64.wrap. apply Z.mod_small. exact H. Qed.

Lemma wrap_range (x : Z) : 0 <= U64.wrap x < U64.modulus.
Proof. unfold U64.wrap. apply Z.mod_pos_bound. rewrite modulus_eq. lia. Qed.

Lemma add_small (a b : Z) : 0 <= a + b < U64.modulus -> U64.add a b = a + b.
Proof. intros H. unfold U64.add. now apply wrap_small. Qed.

Lemma sub_small (a b : Z) : 0 <= a - b < U64.modulus -> U64.sub a b = a - b.
Proof. intros H. unfold U64.sub. now apply wrap_small. Qed.

Lemma add_le (a b : Z) : 0 <= a + b -> U64.add a b <= a + b.
Proof.
  intros H. unfold U64.add, U64.wrap. apply Z.mod_le; [exact H|].
  rewrite modulus_eq. lia.
Qed.

Lemma power_of_two_bounds (c : Z) : power_of_two c -> 0 < c < U64.modulus.
Proof.
  intros (k & Hk & ->). split.
  - apply Z.pow_pos_nonneg; lia.
  - unfold U64.modulus. apply Z.pow_lt_mono_r; lia.
Qed.

Lemma land_mask (c x : Z) :
  power_of_two c -> Z.land x (U64.sub c 1) = x mod c.
Proof.
  intros Hc. pose proof (power_of_two_bounds c Hc) as Hb.
  destruct Hc as (k & Hk & ->).
  rewrite sub_small by lia.
  replace (2 ^ k - 1) with (Z.ones k) by (rewrite Z.ones_equiv; lia).
  apply Z.land_ones. lia.
Qed.

(** Where byte [i] of a transfer lands, as a remainder. *)
Lemma slot_mod (cap pos i : Z) :
  0 < cap -> 0 <= i < cap -> slot cap pos i = (pos + i) mod cap.
Proof.
  intros Hc Hi. unfold slot.
  pose proof (Z.mod_pos_bound pos cap Hc) as Hp.
  rewrite <- (Zplus_mod_idemp_l pos i cap).
  destruct (Z.ltb_spec (pos mod cap + i) cap).
  - symmetry. apply Z.mod_small. lia.
  - apply (Zmod_unique _ _ 1). all: lia.
Qed.

Lemma back_mod (cap pos j : Z) :
  0 < cap -> 0 <= j < cap ->
  (j - pos) mod cap =
  if pos mod cap <=? j then j - pos mod cap else j - pos mod cap + cap.
Proof.
  intros Hc Hj.
  pose proof (Z.mod_pos_bound pos cap Hc) as Hp.
  rewrite <- (Zminus_mod_idemp_r j pos cap).
  destruct (Z.leb_spec (pos mod cap) j).
  - apply Z.mod_small. lia.
  - symmetry. apply (Zmod_unique _ _ (-1)). all: lia.
Qed.

(** ** The two [memcpy] calls together *)

Lemma memcpy_at (dst src : mem) (doff soff n i : Z) :
  memcpy dst doff src soff n i =
  if (doff <=? i) && (i <? doff + n) then src (soff + (i - doff)) else dst i.
Proof. reflexivity. Qed.

Lemma two_memcpy_store (cap pos len : Z) (m buf : mem) (j : Z) :
  power_of_two cap -> 0 <= len <= cap ->
  let o := Z.land pos (U64.sub cap 1) in
  let l := Z.min len (U64.sub cap o) in
  memcpy (memcpy m o buf 0 l) 0 buf l (U64.sub len l) j
  = wrapped_store cap m pos buf len j.
Proof.
  intros Hc Hlen o l.
  pose proof (power_of_two_bounds cap Hc) as Hb.
  assert (Ho : o = pos mod cap) by (apply land_mask; exact Hc).
  pose proof (Z.mod_pos_bound pos cap (proj1 Hb)) as Hp.
  assert (Hl : l = Z.min len (cap - pos mod cap)).
  { unfold l. rewrite Ho. rewrite sub_small by lia. reflexivity. }
  assert (Hs : U64.sub len l = len - l) by (apply sub_small; lia).
  rewrite !memcpy_at, Hs. unfold wrapped_store.
  rewrite Ho.
  destruct (Z.leb_spec 0 j), (Z.ltb_spec j cap); simpl;
    [ | repeat match goal with
        | |- context [?a <=? ?b] => destruct (Z.leb_spec a b)
        | |- context [?a <? ?b] => destruct (Z.ltb_spec a b)
        end; simpl; try reflexivity; lia .. ].
  rewrite (back_mod cap pos j) by lia.
  destruct (Z.leb_spec (pos mod cap) j);
    repeat match goal with
    | |- context [?a <=? ?b] => destruct (Z.leb_spec a b)
    | |- context [?a <? ?b] => destruct (Z.ltb_spec a b)
    end; simpl; try reflexivity; try lia; f_equal; lia.
Qed.

Lemma two_memcpy_load (cap pos len : Z) (m buf : mem) (i : Z) :
  power_of_two cap -> 0 <= len <= cap ->
  let o := Z.land pos (U64.sub cap 1) in
  let l := Z.min len (U64.sub cap o) in
  memcpy (memcpy buf 0 m o l) l m 0 (U64.sub len l) i
  = wrapped_load cap m pos buf len i.
Proof.
  intros Hc Hlen o l.
  pose proof (power_of_two_bounds cap Hc) as Hb.
  assert (Ho : o = pos mod cap) by (apply land_mask; exact Hc).
  pose proof (Z.mod_pos_bound pos cap (proj1 Hb)) as Hp.
  assert (Hl : l = Z.min len (cap - pos mod cap)).
  { unfold l. rewrite Ho. rewrite sub_small by lia. reflexivity. }
  assert (Hs : U64.sub len l = len - l) by (apply sub_small; lia).
  rewrite !memcpy_at, Hs. unfold wrapped_load. rewrite Ho.
  destruct (Z.leb_spec 0 i), (Z.ltb_spec i len); simpl;
    repeat match goal with
    | |- context [?a <=? ?b] => destruct (Z.leb_spec a b)
    | |- context [?a <? ?b] => destruct (Z.ltb_spec a b)
    end; simpl; try reflexivity; try lia.
  - rewrite <- slot_mod by lia. unfold slot.
    destruct (Z.ltb_spec (pos mod cap + i) cap); [lia|]. f_equal. lia.
  - rewrite <- slot_mod by lia. unfold slot.
    destruct (Z.ltb_spec (pos mod cap + i) cap); [|lia]. f_equal. lia.
Qed.

(** ** SPSC: what a completed call did *)

Lemma spsc_write_done (s s' : Spsc.ringbuffer_spsc) (buf : mem) (len : Z) :
  Spsc.write s buf len = Done s' ->
  len <= Spsc.buf_size_ s /\ Spsc.can_put s len = true /\ s' = Spsc.put s buf len.
Proof.
  unfold Spsc.write. intros H.
  destruct (Z.ltb_spec (Spsc.buf_size_ s) len); [discriminate|].
  destruct (Spsc.enable_cv_ s), (Spsc.can_put s len); try discriminate;
    injection H as <-; auto.
Qed.

Lemma spsc_read_done (s s' : Spsc.ringbuffer_spsc) (buf m : mem) (len : Z) :
  Spsc.read s buf len = Done (s', m) ->
  Spsc.can_get s len = true /\ (s', m) = Spsc.get s buf len.
Proof.
  unfold Spsc.read. intros H.
  destruct (Spsc.enable_cv_ s), (Spsc.can_get s len); try discriminate;
    (split; [reflexivity | congruence]).
Qed.

Lemma spsc_write_room (s : Spsc.ringbuffer_spsc) (buf : mem) (len : Z) :
  len <= Spsc.buf_size_ s -> Spsc.can_put s len = true ->
  Spsc.write s buf len = Done (Spsc.put s buf len).
Proof.
  intros Hl Hp. unfold Spsc.write.
  destruct (Z.ltb_spec (Spsc.buf_size_ s) len); [lia|].
  rewrite Hp. now destruct (Spsc.enable_cv_ s).
Qed.

Lemma spsc_read_avail (s : Spsc.ringbuffer_spsc) (buf : mem) (len : Z) :
  Spsc.can_get s len = true -> Spsc.read s buf len = Done (Spsc.get s buf len).
Proof.
  intros Hg. unfold Spsc.read. rewrite Hg. now destruct (Spsc.enable_cv_ s).
Qed.

Lemma spsc_can_put_sound (s : Spsc.ringbuffer_spsc) (len : Z) :
  0 <= Spsc.in_ s + len < U64.modulus -> 0 <= Spsc.buf_size_ s + Spsc.out_ s ->
  Spsc.can_put s len = true ->
  Spsc.in_ s + len <= Spsc.out_ s + Spsc.buf_size_ s.
Proof.
  intros H1 H2. unfold Spsc.can_put. rewrite (add_small _ _ H1).
  intros H%Z.leb_le. pose proof (add_le _ _ H2). lia.
Qed.

Lemma spsc_can_get_sound (s : Spsc.ringbuffer_spsc) (len : Z) :
  0 <= len + Spsc.out_ s < U64.modulus ->
  Spsc.can_get s len = true -> Spsc.out_ s + len <= Spsc.in_ s.
Proof.
  intros H1. unfold Spsc.can_get. rewrite (add_small _ _ H1).
  intros H%Z.leb_le. lia.
Qed.

Lemma spsc_can_put_complete (s : Spsc.ringbuffer_spsc) (len : Z) :
  0 <= Spsc.in_ s + len -> 0 <= Spsc.buf_size_ s + Spsc.out_ s < U64.modulus ->
  Spsc.in_ s + len <= Spsc.out_ s + Spsc.buf_size_ s ->
  Spsc.can_put s len = true.
Proof.
  intros H1 H2 H3. unfold Spsc.can_put. rewrite (add_small _ _ H2).
  apply Z.leb_le. pose proof (add_le _ _ H1). lia.
Qed.

Lemma spsc_can_get_complete (s : Spsc.ringbuffer_spsc) (len : Z) :
  0 <= len + Spsc.out_ s -> Spsc.out_ s + len <= Spsc.in_ s ->
  Spsc.can_get s len = true.
Proof.
  intros H1 H2. unfold Spsc.can_get.
  apply Z.leb_le. pose proof (add_le _ _ H1). lia.
Qed.

Lemma spsc_put_buffer (s : Spsc.ringbuffer_spsc) (buf : mem) (len j : Z) :
  power_of_two (Spsc.buf_size_ s) -> 0 <= len <= Spsc.buf_size_ s ->
  Spsc.buffer_ (Spsc.put s buf len) j
  = wrapped_store (Spsc.buf_size_ s) (Spsc.buffer_ s) (Spsc.in_ s) buf len j.
Proof. intros Hc Hl. unfold Spsc.put, Spsc.mask. simpl. now apply two_memcpy_store. Qed.

Lemma spsc_get_region (s : Spsc.ringbuffer_spsc) (buf : mem) (len i : Z) :
  power_of_two (Spsc.buf_size_ s) -> 0 <= len <= Spsc.buf_size_ s ->
  snd (Spsc.get s buf len) i
  = wrapped_load (Spsc.buf_size_ s) (Spsc.buffer_ s) (Spsc.out_ s) buf len i.
Proof. intros Hc Hl. unfold Spsc.get, Spsc.mask. simpl. now apply two_memcpy_load. Qed.

(** A cell is written by a store exactly when it is the slot of one of the
    bytes. *)
Lemma wrapped_store_slot (cap pos len i : Z) (m buf : mem) :
  0 < cap -> 0 <= i < len -> len <= cap ->
  wrapped_store cap m pos buf len (slot cap pos i) = buf i.
Proof.
  intros Hc Hi Hl. rewrite slot_mod by lia. unfold wrapped_store.
  pose proof (Z.mod_pos_bound (pos + i) cap Hc) as Hp.
  assert (E : ((pos + i) mod cap - pos) mod cap = i).
  { rewrite Zminus_mod_idemp_l. replace (pos + i - pos) with i by lia.
    apply Z.mod_small. lia. }
  rewrite E.
  destruct (Z.leb_spec 0 ((pos + i) mod cap)); [|lia].
  destruct (Z.ltb_spec ((pos + i) mod cap) cap); [|lia].
  destruct (Z.ltb_spec i len); [|lia]. reflexivity.
Qed.

Lemma wrapped_store_other (cap pos len j : Z) (m buf : mem) :
  0 < cap -> 0 <= len <= cap ->
  (forall i, 0 <= i < len -> j <> slot cap pos i) ->
  wrapped_store cap m pos buf len j = m j.
Proof.
  intros Hc Hl Hj. unfold wrapped_store.
  destruct (Z.leb_spec 0 j); [|reflexivity].
  destruct (Z.ltb_spec j cap); [|reflexivity]. simpl.
  destruct (Z.ltb_spec ((j - pos) mod cap) len); [|reflexivity].
  exfalso.
  pose proof (Z.mod_pos_bound (j - pos) cap Hc) as Hp.
  apply (Hj ((j - pos) mod cap)); [lia|].
  rewrite slot_mod by lia.
  rewrite Zplus_mod_idemp_r. replace (pos + (j - pos)) with j by lia.
  symmetry. apply Z.mod_small. lia.
Qed.

Lemma spsc_write_effect (s : Spsc.ringbuffer_spsc) (buf : mem) (len : Z) :
  spsc_wf s -> spsc_inv s -> 0 <= len <= Spsc.buf_size_ s ->
  Spsc.in_ s + len < U64.modulus ->
  let cap := Spsc.buf_size_ s in
  match Spsc.write s buf len with
  | Done s' =>
      Spsc.in_ s + len <= Spsc.out_ s + cap /\
      (forall i, 0 <= i < len -> Spsc.buffer_ s' (slot cap (Spsc.in_ s) i) = buf i) /\
      (forall j, (forall i, 0 <= i < len -> j <> slot cap (Spsc.in_ s) i) ->
                 Spsc.buffer_ s' j = Spsc.buffer_ s j) /\
      Spsc.in_ s' = Spsc.in_ s + len /\ Spsc.out_ s' = Spsc.out_ s /\
      Spsc.buf_size_ s' = cap
  | Blocked =>
      U64.modulus <= Spsc.out_ s + cap \/ Spsc.out_ s + cap < Spsc.in_ s + len
  | Fatal _ => False
  end.
Proof.
  intros (Hc & Hi & Ho) Hinv Hlen Hwi cap.
  pose proof (power_of_two_bounds _ Hc) as Hb. fold cap in Hb.
  unfold U64.in_range in Hi, Ho. unfold spsc_inv in Hinv. fold cap in Hinv, Hlen.
  destruct (Spsc.write s buf len) as [s'| |d] eqn:E.
  - apply spsc_write_done in E as (_ & Hp & ->).
    apply spsc_can_put_sound in Hp; [|lia..]. fold cap in Hp.
    split; [exact Hp|]. split; [|split; [|split; [|split]]].
    + intros i Hi'. rewrite spsc_put_buffer by (fold cap; auto).
      apply wrapped_store_slot; fold cap; lia.
    + intros j Hj. rewrite spsc_put_buffer by (fold cap; auto).
      apply wrapped_store_other; fold cap; auto; lia.
    + simpl. apply add_small. lia.
    + reflexivity.
    + reflexivity.
  - destruct (Z.le_gt_cases U64.modulus (Spsc.out_ s + cap)) as [?|Hs]; [now left|right].
    destruct (Z.lt_ge_cases (Spsc.out_ s + cap) (Spsc.in_ s + len)) as [?|Hr]; [assumption|].
    exfalso. rewrite spsc_write_room in E; [discriminate|fold cap; lia|].
    apply spsc_can_put_complete; fold cap; lia.
  - unfold Spsc.write in E. fold cap in E.
    destruct (Z.ltb_spec cap len); [lia|].
    destruct (Spsc.enable_cv_ s), (Spsc.can_put s len); discriminate.
Qed.

Lemma spsc_read_effect (s : Spsc.ringbuffer_spsc) (dst : mem) (len : Z) :
  spsc_wf s -> spsc_inv s -> 0 <= len <= Spsc.buf_size_ s ->
  Spsc.out_ s + len < U64.modulus ->
  let cap := Spsc.buf_size_ s in
  match Spsc.read s dst len with
  | Done (s', m) =>
      Spsc.in_ s >= Spsc.out_ s + len /\
      (forall i, 0 <= i < len -> m i = Spsc.buffer_ s (slot cap (Spsc.out_ s) i)) /\
      (forall i, ~ 0 <= i < len -> m i = dst i) /\
      Spsc.out_ s' = Spsc.out_ s + len /\ Spsc.in_ s' = Spsc.in_ s /\
      Spsc.buffer_ s' = Spsc.buffer_ s /\ Spsc.buf_size_ s' = cap
  | Blocked => Spsc.in_ s < Spsc.out_ s + len
  | Fatal _ => False
  end.
Proof.
  intros (Hc & Hi & Ho) Hinv Hlen Hwo cap.
  pose proof (power_of_two_bounds _ Hc) as Hb. fold cap in Hb.
  unfold U64.in_range in Hi, Ho. unfold spsc_inv in Hinv. fold cap in Hinv, Hlen.
  destruct (Spsc.read s dst len) as [[s' m]| |d] eqn:E.
  - apply spsc_read_done in E as (Hg & E).
    apply spsc_can_get_sound in Hg; [|lia].
    assert (Em : forall i, m i = snd (Spsc.get s dst len) i) by (now rewrite <- E).
    assert (Es : s' = fst (Spsc.get s dst len)) by (now rewrite <- E).
    split; [lia|]. split; [|split; [|split; [|split; [|split]]]].
    + intros i Hi'. rewrite Em, spsc_get_region by (fold cap; auto).
      unfold wrapped_load. fold cap.
      destruct (Z.leb_spec 0 i); [|lia]. destruct (Z.ltb_spec i len); [|lia].
      simpl. now rewrite slot_mod by lia.
    + intros i Hi'. rewrite Em, spsc_get_region by (fold cap; auto).
      unfold wrapped_load.
      destruct (Z.leb_spec 0 i); [|reflexivity].
      destruct (Z.ltb_spec i len); [lia|reflexivity].
    + rewrite Es. simpl. apply add_small. lia.
    + now rewrite Es.
    + now rewrite Es.
    + now rewrite Es.
  - destruct (Z.lt_ge_cases (Spsc.in_ s) (Spsc.out_ s + len)) as [?|Hr]; [assumption|].
    exfalso. rewrite spsc_read_avail in E; [discriminate|].
    apply spsc_can_get_complete; lia.
  - unfold Spsc.read in E.
    destruct (Spsc.enable_cv_ s), (Spsc.can_get s len); discriminate.
Qed.

(** ** C5: what [write] and [read] of the SPSC buffer do *)

(** C5, as stated, fails where a 64-bit sum wraps.  With capacity 16,
    [in = 2^64 - 4] and [out = 2^64 - 20] (a full buffer, [out <= in <= out +
    capacity]), [write] of 8 bytes copies although [in + 8 > out + capacity],
    and [in] becomes 4; with [in = out = 2^64 - 4] (an empty buffer), [read]
    of 8 bytes copies although [in < out + 8], and [out] becomes 4.  It also
    fails for a capacity that is not a power of two, which the constructor
    accepts: with capacity 3 and [in = 1], the byte written goes to offset
    [1 & 2 = 0], not to [1 mod 3 = 1]. *)
Lemma spsc_transfer_wraps :
  let full := Spsc.mk zeroed 16 false (2 ^ 64 - 4) (2 ^ 64 - 20) in
  let empty := Spsc.mk zeroed 16 false (2 ^ 64 - 4) (2 ^ 64 - 4) in
  let odd := Spsc.mk zeroed 3 false 1 0 in
  (spsc_wf full /\ spsc_inv full /\ 0 <= 8 <= Spsc.buf_size_ full /\
   exists s', Spsc.write full (fill "A") 8 = Done s' /\
              ~ Spsc.in_ full + 8 <= Spsc.out_ full + Spsc.buf_size_ full /\
              Spsc.in_ s' = 4 /\ Spsc.in_ s' <> Spsc.in_ full + 8) /\
  (spsc_wf empty /\ spsc_inv empty /\ 0 <= 8 <= Spsc.buf_size_ empty /\
   exists s' m, Spsc.read empty zeroed 8 = Done (s', m) /\
                ~ Spsc.in_ empty >= Spsc.out_ empty + 8 /\
                Spsc.out_ s' = 4 /\ Spsc.out_ s' <> Spsc.out_ empty + 8) /\
  (spsc_inv odd /\ 0 <= 1 <= Spsc.buf_size_ odd /\
   exists s', Spsc.write odd (fill "A") 1 = Done s' /\
              Spsc.in_ odd mod Spsc.buf_size_ odd = 1 /\
              Spsc.buffer_ s' 1 = x00 /\ Spsc.buffer_ s' 0 = "A"%byte).
Proof.
  assert (P16 : power_of_two 16) by (exists 4; split; [lia | reflexivity]).
  cbv zeta. split; [|split].
  - split; [|split; [|split]].
    + unfold spsc_wf, U64.in_range. simpl. rewrite modulus_eq. repeat split; try lia. exact P16.
    + unfold spsc_inv. simpl. lia.
    + simpl. lia.
    + eexists. split; [reflexivity|]. split; [|split].
      * intros H. vm_compute in H. apply H. reflexivity.
      * reflexivity.
      * intros H. vm_compute in H. discriminate.
  - split; [|split; [|split]].
    + unfold spsc_wf, U64.in_range. simpl. rewrite modulus_eq. repeat split; try lia. exact P16.
    + unfold spsc_inv. simpl. lia.
    + simpl. lia.
    + eexists. eexists. split; [reflexivity|]. split; [|split].
      * intros H. vm_compute in H. apply H. reflexivity.
      * reflexivity.
      * intros H. vm_compute in H. discriminate.
  - split; [|split].
    + unfold spsc_inv. simpl. lia.
    + simpl. lia.
    + eexists. split; [reflexivity|]. repeat split; reflexivity.
Qed.

(** C5 (amended): in a state with power-of-two capacity and [out <= in <=
    out + capacity], for [len <= capacity] and as long as [in + len] and
    [out + len] stay below [2^64]: a [write] that copies does so only where
    [in + len <= out + capacity]; byte [i] goes to offset [in mod capacity +
    i], from offset 0 on once the range has crossed the end of the storage;
    no other cell changes; [in] advances by exactly [len].  A [read] that
    copies does so only where [in >= out + len]; byte [i] comes from offset
    [out mod capacity + i] with the same wrapping; [out] advances by exactly
    [len].  Neither call aborts. *)
Theorem spsc_transfer (s : Spsc.ringbuffer_spsc) (buf dst : mem) (len : Z) :
  spsc_wf s -> spsc_inv s -> 0 <= len <= Spsc.buf_size_ s ->
  Spsc.in_ s + len < U64.modulus -> Spsc.out_ s + len < U64.modulus ->
  let cap := Spsc.buf_size_ s in
  match Spsc.write s buf len with
  | Done s' =>
      Spsc.in_ s + len <= Spsc.out_ s + cap /\
      (forall i, 0 <= i < len -> Spsc.buffer_ s' (slot cap (Spsc.in_ s) i) = buf i) /\
      (forall j, (forall i, 0 <= i < len -> j <> slot cap (Spsc.in_ s) i) ->
                 Spsc.buffer_ s' j = Spsc.buffer_ s j) /\
      Spsc.in_ s' = Spsc.in_ s + len /\ Spsc.out_ s' = Spsc.out_ s /\
      Spsc.buf_size_ s' = cap
  | Blocked =>
      U64.modulus <= Spsc.out_ s + cap \/ Spsc.out_ s + cap < Spsc.in_ s + len
  | Fatal _ => False
  end /\
  match Spsc.read s dst len with
  | Done (s', m) =>
      Spsc.in_ s >= Spsc.out_ s + len /\
      (forall i, 0 <= i < len -> m i = Spsc.buffer_ s (slot cap (Spsc.out_ s) i)) /\
      (forall i, ~ 0 <= i < len -> m i = dst i) /\
      Spsc.out_ s' = Spsc.out_ s + len /\ Spsc.in_ s' = Spsc.in_ s /\
      Spsc.buffer_ s' = Spsc.buffer_ s /\ Spsc.buf_size_ s' = cap
  | Blocked => Spsc.in_ s < Spsc.out_ s + len
  | Fatal _ => False
  end.
Proof.
  intros Hwf Hinv Hlen Hwi Hwo cap. split.
  - now apply spsc_write_effect.
  - now apply spsc_read_effect.
Qed.

Lemma spsc_transfer_witness :
  let s := Spsc.mk zeroed 16 false 12 4 in
  match Spsc.write s (region_of (list_byte_of_string "ABCDEFGH")) 8 with
  | Done s' =>
      Spsc.in_ s + 8 <= Spsc.out_ s + 16 /\
      (forall i, 0 <= i < 8 ->
         Spsc.buffer_ s' (slot 16 (Spsc.in_ s) i)
         = region_of (list_byte_of_string "ABCDEFGH") i) /\
      (forall j, (forall i, 0 <= i < 8 -> j <> slot 16 (Spsc.in_ s) i) ->
                 Spsc.buffer_ s' j = Spsc.buffer_ s j) /\
      Spsc.in_ s' = Spsc.in_ s + 8 /\ Spsc.out_ s' = Spsc.out_ s /\
      Spsc.buf_size_ s' = 16
  | Blocked => U64.modulus <= Spsc.out_ s + 16 \/ Spsc.out_ s + 16 < Spsc.in_ s + 8
  | Fatal _ => False
  end /\
  match Spsc.read s zeroed 8 with
  | Done (s', m) =>
      Spsc.in_ s >= Spsc.out_ s + 8 /\
      (forall i, 0 <= i < 8 -> m i = Spsc.buffer_ s (slot 16 (Spsc.out_ s) i)) /\
      (forall i, ~ 0 <= i < 8 -> m i = zeroed i) /\
      Spsc.out_ s' = Spsc.out_ s + 8 /\ Spsc.in_ s' = Spsc.in_ s /\
      Spsc.buffer_ s' = Spsc.buffer_ s /\ Spsc.buf_size_ s' = 16
  | Blocked => Spsc.in_ s < Spsc.out_ s + 8
  | Fatal _ => False
  end.
Proof.
  intros s.
  apply (spsc_transfer s (region_of (list_byte_of_string "ABCDEFGH")) zeroed 8).
  - unfold spsc_wf, U64.in_range. simpl. rewrite modulus_eq.
    split; [exists 4; split; [lia | reflexivity] | lia].
  - unfold spsc_inv. simpl. lia.
  - simpl. lia.
  - simpl. rewrite modulus_eq. lia.
  - simpl. rewrite modulus_eq. lia.
Defined.

(** ** C8: an oversized [write] on the SPSC buffer *)

(** C8: whatever the state and the wait mode, [write] with [len] above the
    capacity prints the line naming [len] and [buf_size_] and aborts: the
    length test comes before the wait and before [put], so the call yields
    no new state, and the buffer is the one the call found. *)
Theorem spsc_write_oversize (s : Spsc.ringbuffer_spsc) (buf : mem) (len : Z) :
  Spsc.buf_size_ s < len ->
  Spsc.write s buf len = Fatal (write_len_exceeds len (Spsc.buf_size_ s)).
Proof.
  intros H. unfold Spsc.write.
  destruct (Z.ltb_spec (Spsc.buf_size_ s) len); [reflexivity | lia].
Qed.

Lemma spsc_write_oversize_witness :
  Spsc.write (Spsc.mk zeroed 16 true 5 3) (fill "A") 17
  = Fatal (write_len_exceeds 17 16).
Proof.
  apply (spsc_write_oversize (Spsc.mk zeroed 16 true 5 3) (fill "A") 17).
  simpl. lia.
Defined.

(** ** C7: the cursor invariant of the SPSC buffer *)

Lemma spsc_apply_step (o : spsc_op) (s s' : Spsc.ringbuffer_spsc) :
  0 <= Spsc.out_ s -> spsc_inv s -> 0 <= spsc_op_len o <= Spsc.buf_size_ s ->
  Spsc.in_ s + Spsc.buf_size_ s < U64.modulus ->
  spsc_apply o s = Done s' ->
  Spsc.buf_size_ s' = Spsc.buf_size_ s /\ spsc_inv s' /\
  match o with
  | op_write _ len => Spsc.in_ s' = Spsc.in_ s + len /\ Spsc.out_ s' = Spsc.out_ s
  | op_read len => Spsc.in_ s' = Spsc.in_ s /\ Spsc.out_ s' = Spsc.out_ s + len
  end.
Proof.
  intros Hout Hinv Hlen Hroom E. unfold spsc_inv in *.
  destruct o as [buf len | len]; simpl in *.
  - apply spsc_write_done in E as (_ & Hp & ->).
    apply spsc_can_put_sound in Hp; [|lia..].
    simpl. rewrite add_small by lia. lia.
  - destruct (Spsc.read s zeroed len) as [[s1 m]| |d] eqn:E1; try discriminate.
    injection E as <-. apply spsc_read_done in E1 as (Hg & E1).
    apply spsc_can_get_sound in Hg; [|lia].
    assert (Es : s1 = fst (Spsc.get s zeroed len)) by (now rewrite <- E1).
    rewrite Es. simpl. rewrite add_small by lia. lia.
Qed.

Lemma written_bytes_nonneg (ops : list spsc_op) (cap : Z) :
  Forall (fun o => 0 <= spsc_op_len o <= cap) ops -> 0 <= written_bytes ops.
Proof.
  induction 1 as [|o ops Ho _ IH]; simpl; [lia|].
  destruct o; simpl in Ho; lia.
Qed.

Lemma spsc_trace_inv (s : Spsc.ringbuffer_spsc) (ops : list spsc_op) (s' : Spsc.ringbuffer_spsc) :
  spsc_trace s ops s' ->
  0 <= Spsc.out_ s -> spsc_inv s ->
  Forall (fun o => 0 <= spsc_op_len o <= Spsc.buf_size_ s) ops ->
  Spsc.in_ s + written_bytes ops + Spsc.buf_size_ s < U64.modulus ->
  spsc_inv s' /\ Spsc.buf_size_ s' = Spsc.buf_size_ s /\
  Spsc.in_ s' = Spsc.in_ s + written_bytes ops /\ Spsc.out_ s <= Spsc.out_ s'.
Proof.
  induction 1 as [s | s o s1 ops s2 Hstep _ IH]; intros Hout Hinv Hall Hroom.
  - simpl. split; [exact Hinv|]. lia.
  - apply Forall_cons_iff in Hall as [Ho Hall].
    pose proof (written_bytes_nonneg _ _ Hall) as Hn.
    assert (Hr1 : Spsc.in_ s + Spsc.buf_size_ s < U64.modulus)
      by (destruct o; simpl in *; lia).
    destruct (spsc_apply_step o s s1 Hout Hinv Ho Hr1 Hstep) as (Hb & Hinv1 & Hcur).
    rewrite <- Hb in Hall.
    destruct IH as (Hinv2 & Hb2 & Hin2 & Hout2); auto.
    { destruct o; simpl in *; lia. }
    { rewrite Hb. destruct o; simpl in *; lia. }
    split; [exact Hinv2|]. split; [congruence|].
    destruct o; simpl in *; lia.
Qed.

(** C7, as stated, fails once a cursor wraps: with capacity [2^62], three
    rounds of writing and reading [2^62] bytes and one more write, all
    completed, [in] has wrapped to 0 and [out] is [3 * 2^62]. *)
Lemma spsc_invariant_wraps :
  let c := 2 ^ 62 in
  let ops := [op_write zeroed c; op_read c; op_write zeroed c; op_read c;
              op_write zeroed c; op_read c; op_write zeroed c] in
  exists s',
    power_of_two c /\ Forall (fun o => 0 <= spsc_op_len o <= c) ops /\
    spsc_trace (spsc_init c false zeroed) ops s' /\
    ~ spsc_inv s' /\
    Spsc.get_total_in s' = 0 /\ Spsc.get_total_out s' = 3 * 2 ^ 62.
Proof.
  cbv zeta. eexists. split; [|split; [|split; [|split]]].
  - exists 62. split; [lia | reflexivity].
  - repeat constructor; simpl; lia.
  - repeat (eapply spsc_trace_cons; [reflexivity|]). apply spsc_trace_nil.
  - unfold spsc_inv. intros H. vm_compute in H. destruct H as [H _]. apply H. reflexivity.
  - split; reflexivity.
Qed.

(** C7 (amended): from the state a construction yields ([in = out = 0]),
    after any sequence of completed writes and reads, each of length at most
    the capacity, [out <= in <= out + capacity] holds, so
    [total_bytes_read() <= total_bytes_written()] and the difference is at
    most the capacity -- as long as the bytes written in all plus the capacity
    stay below [2^64]. *)
Theorem spsc_cursor_invariant (cap : Z) (cv : bool) (m : mem)
    (ops : list spsc_op) (s' : Spsc.ringbuffer_spsc) :
  0 <= cap ->
  Forall (fun o => 0 <= spsc_op_len o <= cap) ops ->
  written_bytes ops + cap < U64.modulus ->
  spsc_trace (spsc_init cap cv m) ops s' ->
  spsc_inv s' /\
  Spsc.get_total_out s' <= Spsc.get_total_in s' /\
  Spsc.get_total_in s' - Spsc.get_total_out s' <= cap.
Proof.
  intros Hc Hall Hsum Htr.
  destruct (spsc_trace_inv _ _ _ Htr) as (Hinv & Hsz & _ & _).
  - simpl. lia.
  - unfold spsc_inv. simpl. lia.
  - exact Hall.
  - simpl. lia.
  - split; [exact Hinv|]. unfold spsc_inv in Hinv. simpl in Hsz.
    unfold Spsc.get_total_in, Spsc.get_total_out. lia.
Qed.

Lemma spsc_cursor_invariant_witness :
  exists s',
    spsc_trace (spsc_init 16 true zeroed)
      [op_write (fill "A") 10; op_read 10; op_write (fill "B") 12; op_read 3] s' /\
    spsc_inv s' /\
    Spsc.get_total_out s' <= Spsc.get_total_in s' /\
    Spsc.get_total_in s' - Spsc.get_total_out s' <= 16.
Proof.
  eexists. split.
  - repeat (eapply spsc_trace_cons; [reflexivity|]). apply spsc_trace_nil.
  - apply (spsc_cursor_invariant 16 true zeroed
             [op_write (fill "A") 10; op_read 10; op_write (fill "B") 12; op_read 3]).
    + lia.
    + repeat constructor; simpl; lia.
    + simpl. rewrite modulus_eq. lia.
    + repeat (eapply spsc_trace_cons; [reflexivity|]). apply spsc_trace_nil.
Defined.

(** ** MPMC: a call run alone *)

Lemma put_alone_returned (fuel : nat) (s : Mpmc.ringbuffer_mpmc) (buf : mem) (len : Z) :
  Mpmc.put_alone fuel s buf len Mpmc.returned = (s, Mpmc.returned).
Proof. destruct fuel; reflexivity. Qed.

Lemma get_alone_returned (fuel : nat) (s : Mpmc.ringbuffer_mpmc) (buf : mem) (len : Z) :
  Mpmc.get_alone fuel s buf len Mpmc.returned = (s, buf, Mpmc.returned).
Proof. destruct fuel; reflexivity. Qed.

(** Without room the call goes round its retry loop (or sleeps on the
    condition variable) and the state stays as it is. *)
Lemma put_alone_spins (s : Mpmc.ringbuffer_mpmc) (buf : mem) (len : Z) :
  Mpmc.room s (Mpmc.in_ s) len = false ->
  forall fuel p,
    p = Mpmc.top \/ p = Mpmc.ready \/ p = Mpmc.loaded (Mpmc.in_ s) ->
    exists p', Mpmc.put_alone fuel s buf len p = (s, p') /\ p' <> Mpmc.returned.
Proof.
  intros Hroom fuel. induction fuel as [|fuel IH]; intros p Hp.
  - exists p. split; [reflexivity|]. destruct Hp as [->|[->| ->]]; discriminate.
  - destruct Hp as [->|[->| ->]]; simpl.
    + rewrite Hroom. destruct (Mpmc.enable_cv_ s); simpl.
      * exists Mpmc.top. split; [reflexivity | discriminate].
      * apply IH. auto.
    + apply IH. auto.
    + rewrite Hroom. apply IH. auto.
Qed.

Lemma get_alone_spins (s : Mpmc.ringbuffer_mpmc) (buf : mem) (len : Z) :
  Mpmc.avail s (Mpmc.out_ s) len = false ->
  forall fuel p,
    p = Mpmc.top \/ p = Mpmc.ready \/ p = Mpmc.loaded (Mpmc.out_ s) ->
    exists p', Mpmc.get_alone fuel s buf len p = (s, buf, p') /\ p' <> Mpmc.returned.
Proof.
  intros Havail fuel. induction fuel as [|fuel IH]; intros p Hp.
  - exists p. split; [reflexivity|]. destruct Hp as [->|[->| ->]]; discriminate.
  - destruct Hp as [->|[->| ->]]; simpl.
    + rewrite Havail. destruct (Mpmc.enable_cv_ s); simpl.
      * exists Mpmc.top. split; [reflexivity | discriminate].
      * apply IH. auto.
    + apply IH. auto.
    + rewrite Havail. apply IH. auto.
Qed.

(** A commit whose expected value is not the committed cursor fails and is
    tried again, for ever. *)
Lemma put_alone_stuck (s : Mpmc.ringbuffer_mpmc) (buf : mem) (len e : Z) (fuel : nat) :
  Mpmc.real_in_ s <> e ->
  Mpmc.put_alone fuel s buf len (Mpmc.copied e) = (s, Mpmc.copied e).
Proof.
  intros Hne. induction fuel as [|fuel IH]; [reflexivity|]. simpl.
  destruct (Z.eqb_spec (Mpmc.real_in_ s) e); [contradiction|]. exact IH.
Qed.

Lemma get_alone_stuck (s : Mpmc.ringbuffer_mpmc) (buf : mem) (len e : Z) (fuel : nat) :
  Mpmc.real_out_ s <> e ->
  Mpmc.get_alone fuel s buf len (Mpmc.copied e) = (s, buf, Mpmc.copied e).
Proof.
  intros Hne. induction fuel as [|fuel IH]; [reflexivity|]. simpl.
  destruct (Z.eqb_spec (Mpmc.real_out_ s) e); [contradiction|]. exact IH.
Qed.

Lemma mpmc_write_no_room (s : Mpmc.ringbuffer_mpmc) (buf : mem) (len : Z) (fuel : nat) :
  Mpmc.room s (Mpmc.in_ s) len = false -> Mpmc.write fuel s buf len = Blocked.
Proof.
  intros Hroom. unfold Mpmc.write.
  destruct (put_alone_spins s buf len Hroom fuel Mpmc.top) as (p' & -> & Hp'); [auto|].
  destruct p'; try reflexivity. contradiction.
Qed.

Lemma mpmc_read_no_data (s : Mpmc.ringbuffer_mpmc) (buf : mem) (len : Z) (fuel : nat) :
  Mpmc.avail s (Mpmc.out_ s) len = false -> Mpmc.read fuel s buf len = Blocked.
Proof.
  intros Havail. unfold Mpmc.read.
  destruct (get_alone_spins s buf len Havail fuel Mpmc.top) as (p' & -> & Hp'); [auto|].
  destruct p'; try reflexivity. contradiction.
Qed.

(** What a call of [put] run alone leaves behind. *)
Lemma mpmc_write_alone (s : Mpmc.ringbuffer_mpmc) (buf : mem) (len : Z) (fuel : nat) (s' : Mpmc.ringbuffer_mpmc) :
  Mpmc.write fuel s buf len = Done s' ->
  Mpmc.room s (Mpmc.in_ s) len = true /\ Mpmc.real_in_ s = Mpmc.in_ s /\
  s' = Mpmc.mk (Mpmc.copy_in s (Mpmc.in_ s) buf len) (Mpmc.buf_size_ s) (Mpmc.enable_cv_ s)
         (U64.add (Mpmc.in_ s) len) (U64.add (Mpmc.in_ s) len)
         (Mpmc.out_ s) (Mpmc.real_out_ s).
Proof.
  intros H.
  destruct (Mpmc.room s (Mpmc.in_ s) len) eqn:Hroom;
    [|rewrite mpmc_write_no_room in H by exact Hroom; discriminate].
  split; [reflexivity|].
  unfold Mpmc.write in H.
  destruct fuel as [|[|[|[|[|fuel]]]]];
    repeat (progress (simpl in H; rewrite ?Hroom, ?andb_false_r, ?Z.eqb_refl in H));
    try discriminate.
  destruct (Z.eq_dec (Mpmc.real_in_ s) (Mpmc.in_ s)) as [Heq|Hne].
  - split; [exact Heq|].
    destruct fuel as [|fuel]; simpl in H; [discriminate|].
    rewrite Heq, Z.eqb_refl in H. simpl in H.
    rewrite put_alone_returned in H. injection H as <-. reflexivity.
  - rewrite put_alone_stuck in H by (simpl; exact Hne). discriminate.
Qed.

Lemma mpmc_write_alone_returns (s : Mpmc.ringbuffer_mpmc) (buf : mem) (len : Z) (fuel : nat) :
  Mpmc.room s (Mpmc.in_ s) len = true -> Mpmc.real_in_ s = Mpmc.in_ s ->
  (6 <= fuel)%nat ->
  Mpmc.write fuel s buf len =
  Done (Mpmc.mk (Mpmc.copy_in s (Mpmc.in_ s) buf len) (Mpmc.buf_size_ s) (Mpmc.enable_cv_ s)
          (U64.add (Mpmc.in_ s) len) (U64.add (Mpmc.in_ s) len)
          (Mpmc.out_ s) (Mpmc.real_out_ s)).
Proof.
  intros Hroom Heq Hfuel. unfold Mpmc.write.
  do 6 (destruct fuel as [|fuel]; [lia|]).
  repeat (progress (simpl; rewrite ?Hroom, ?andb_false_r, ?Heq, ?Z.eqb_refl)).
  rewrite put_alone_returned. reflexivity.
Qed.

(** What a call of [get] run alone leaves behind. *)
Lemma mpmc_read_alone (s : Mpmc.ringbuffer_mpmc) (buf : mem) (len : Z) (fuel : nat)
    (s' : Mpmc.ringbuffer_mpmc) (m : mem) :
  Mpmc.read fuel s buf len = Done (s', m) ->
  Mpmc.avail s (Mpmc.out_ s) len = true /\ Mpmc.real_out_ s = Mpmc.out_ s /\
  m = Mpmc.copy_out s (Mpmc.out_ s) buf len /\
  s' = Mpmc.mk (Mpmc.buffer_ s) (Mpmc.buf_size_ s) (Mpmc.enable_cv_ s)
         (Mpmc.in_ s) (Mpmc.real_in_ s)
         (U64.add (Mpmc.out_ s) len) (U64.add (Mpmc.out_ s) len).
Proof.
  intros H.
  destruct (Mpmc.avail s (Mpmc.out_ s) len) eqn:Havail;
    [|rewrite mpmc_read_no_data in H by exact Havail; discriminate].
  split; [reflexivity|].
  unfold Mpmc.read in H.
  destruct fuel as [|[|[|[|[|fuel]]]]];
    repeat (progress (simpl in H; rewrite ?Havail, ?andb_false_r, ?Z.eqb_refl in H));
    try discriminate.
  destruct (Z.eq_dec (Mpmc.real_out_ s) (Mpmc.out_ s)) as [Heq|Hne].
  - split; [exact Heq|].
    destruct fuel as [|fuel]; simpl in H; [discriminate|].
    rewrite Heq, Z.eqb_refl in H. simpl in H.
    rewrite get_alone_returned in H. injection H as <- <-. split; reflexivity.
  - rewrite get_alone_stuck in H by (simpl; exact Hne). discriminate.
Qed.

Lemma mpmc_read_alone_returns (s : Mpmc.ringbuffer_mpmc) (buf : mem) (len : Z) (fuel : nat) :
  Mpmc.avail s (Mpmc.out_ s) len = true -> Mpmc.real_out_ s = Mpmc.out_ s ->
  (6 <= fuel)%nat ->
  Mpmc.read fuel s buf len =
  Done (Mpmc.mk (Mpmc.buffer_ s) (Mpmc.buf_size_ s) (Mpmc.enable_cv_ s)
          (Mpmc.in_ s) (Mpmc.real_in_ s)
          (U64.add (Mpmc.out_ s) len) (U64.add (Mpmc.out_ s) len),
        Mpmc.copy_out s (Mpmc.out_ s) buf len).
Proof.
  intros Havail Heq Hfuel. unfold Mpmc.read.
  do 6 (destruct fuel as [|fuel]; [lia|]).
  repeat (progress (simpl; rewrite ?Havail, ?andb_false_r, ?Heq, ?Z.eqb_refl)).
  rewrite get_alone_returned. reflexivity.
Qed.

Lemma mpmc_apply_write (s : Mpmc.ringbuffer_mpmc) (buf : mem) (len : Z) :
  Mpmc.room s (Mpmc.in_ s) len = true -> Mpmc.real_in_ s = Mpmc.in_ s ->
  mpmc_apply 6 (mop_write buf len) s =
  Done (Mpmc.mk (Mpmc.copy_in s (Mpmc.in_ s) buf len) (Mpmc.buf_size_ s) (Mpmc.enable_cv_ s)
          (U64.add (Mpmc.in_ s) len) (U64.add (Mpmc.in_ s) len)
          (Mpmc.out_ s) (Mpmc.real_out_ s)).
Proof. intros Hroom Heq. simpl. now apply mpmc_write_alone_returns. Qed.

Lemma mpmc_apply_read (s : Mpmc.ringbuffer_mpmc) (len : Z) :
  Mpmc.avail s (Mpmc.out_ s) len = true -> Mpmc.real_out_ s = Mpmc.out_ s ->
  mpmc_apply 6 (mop_read len) s =
  Done (Mpmc.mk (Mpmc.buffer_ s) (Mpmc.buf_size_ s) (Mpmc.enable_cv_ s)
          (Mpmc.in_ s) (Mpmc.real_in_ s)
          (U64.add (Mpmc.out_ s) len) (U64.add (Mpmc.out_ s) len)).
Proof.
  intros Havail Heq. unfold mpmc_apply.
  now rewrite mpmc_read_alone_returns by (auto; lia).
Qed.

(** Builds a trace of calls run alone from concrete cursors. *)
Ltac mpmc_trace_steps :=
  repeat (eapply (mpmc_trace_cons _ _ 6%nat);
          [ first [ apply mpmc_apply_write | apply mpmc_apply_read ]; reflexivity | ]);
  apply mpmc_trace_nil.

Ltac spsc_trace_steps :=
  repeat (eapply spsc_trace_cons; [reflexivity|]); apply spsc_trace_nil.

(** ** C4: construction *)

Lemma power_of_two_land (c : Z) : power_of_two c -> Z.land c (U64.sub c 1) = 0.
Proof.
  intros Hc. rewrite land_mask by exact Hc. apply Z_mod_same_full.
Qed.

(** C4, as stated, fails: with a successful allocation the constructors
    accept capacity 3 and capacity 0 and yield a buffer. *)
Lemma construct_accepts_any_capacity :
  ~ power_of_two 3 /\ ~ power_of_two 0 /\
  Spsc.construct 3 false (Some zeroed) = Done (spsc_init 3 false zeroed) /\
  Spsc.construct 0 true (Some zeroed) = Done (spsc_init 0 true zeroed) /\
  Mpmc.construct 3 false (Some zeroed) = Done (mpmc_init 3 false zeroed) /\
  Mpmc.construct 0 true (Some zeroed) = Done (mpmc_init 0 true zeroed).
Proof.
  split; [|split].
  - intros H%power_of_two_land. vm_compute in H. discriminate.
  - intros H%power_of_two_bounds. lia.
  - repeat split; reflexivity.
Qed.

(** C4 (amended): the constructors of both variants do not look at the
    capacity.  They abort, on [assert(buffer_)], exactly when the allocation
    fails; otherwise they yield a buffer of the capacity given, all cursors
    zero. *)
Theorem construct_checks_allocation_only (cap : Z) (cv : bool) (malloc_result : option mem) :
  Spsc.construct cap cv malloc_result =
    match malloc_result with
    | Some m => Done (spsc_init cap cv m)
    | None => Fatal allocation_failed
    end /\
  Mpmc.construct cap cv malloc_result =
    match malloc_result with
    | Some m => Done (mpmc_init cap cv m)
    | None => Fatal allocation_failed
    end.
Proof. destruct malloc_result; split; reflexivity. Qed.

(** ** C3: oversized calls without a length test *)

Lemma mpmc_room_false (t : Mpmc.ringbuffer_mpmc) (len : Z) :
  mpmc_chain t -> Mpmc.buf_size_ t < len -> Mpmc.in_ t + len < U64.modulus ->
  Mpmc.room t (Mpmc.in_ t) len = false.
Proof.
  intros (H0 & H1 & H2 & H3 & H4) Hlen Hw. unfold Mpmc.room.
  rewrite add_small by lia.
  pose proof (add_le (Mpmc.buf_size_ t) (Mpmc.real_out_ t)).
  apply Z.leb_gt. lia.
Qed.

Lemma mpmc_avail_false (t : Mpmc.ringbuffer_mpmc) (len : Z) :
  mpmc_chain t -> Mpmc.buf_size_ t < len -> Mpmc.out_ t + len < U64.modulus ->
  Mpmc.avail t (Mpmc.out_ t) len = false.
Proof.
  intros (H0 & H1 & H2 & H3 & H4) Hlen Hw. unfold Mpmc.avail.
  rewrite add_small by lia.
  apply Z.leb_gt. lia.
Qed.

(** C3 on the code: [read] of the SPSC buffer and [write] and [read] of the
    MPMC buffer have no length test.  In any state that satisfies the cursor
    invariant, a call with [len] above the capacity finds its availability
    predicate false: it waits, or goes round its retry loop, and no
    diagnostic is printed. *)
Theorem oversize_call_waits (s : Spsc.ringbuffer_spsc) (t : Mpmc.ringbuffer_mpmc)
    (buf : mem) (len : Z) (fuel : nat) :
  spsc_inv s -> 0 <= Spsc.out_ s -> mpmc_chain t ->
  Spsc.buf_size_ s < len -> Mpmc.buf_size_ t < len ->
  Spsc.out_ s + len < U64.modulus -> Mpmc.in_ t + len < U64.modulus ->
  Spsc.read s buf len = Blocked /\
  Mpmc.write fuel t buf len = Blocked /\
  Mpmc.read fuel t buf len = Blocked.
Proof.
  intros Hinv Ho Hch Hl1 Hl2 Hw1 Hw2. split; [|split].
  - unfold spsc_inv in Hinv. unfold Spsc.read, Spsc.can_get.
    rewrite add_small by lia.
    destruct (Z.leb_spec (len + Spsc.out_ s) (Spsc.in_ s)); [lia|].
    now destruct (Spsc.enable_cv_ s).
  - apply mpmc_write_no_room. now apply mpmc_room_false.
  - apply mpmc_read_no_data. apply mpmc_avail_false; auto.
    destruct Hch as (H0 & H1 & H2 & H3 & H4). lia.
Qed.

Lemma oversize_call_waits_witness :
  Spsc.read (spsc_init 16 false zeroed) zeroed 17 = Blocked /\
  Mpmc.write 1000 (mpmc_init 16 false zeroed) zeroed 17 = Blocked /\
  Mpmc.read 1000 (mpmc_init 16 false zeroed) zeroed 17 = Blocked.
Proof.
  apply (oversize_call_waits (spsc_init 16 false zeroed) (mpmc_init 16 false zeroed)
           zeroed 17 1000).
  - unfold spsc_inv. simpl. lia.
  - simpl. lia.
  - unfold mpmc_chain. simpl. lia.
  - simpl. lia.
  - simpl. lia.
  - simpl. rewrite modulus_eq. lia.
  - simpl. rewrite modulus_eq. lia.
Defined.

(** ** C9: the two counters *)

(** C9, as stated, fails once [in_] wraps: with capacity [2^62], after
    three completed rounds of writing and reading [2^62] bytes the written
    counter is [3 * 2^62], and one more completed write of [2^62] bytes
    takes it down to 0. *)
Lemma written_counter_wraps :
  let c := 2 ^ 62 in
  exists s s',
    spsc_trace (spsc_init c false zeroed)
      [op_write zeroed c; op_read c; op_write zeroed c; op_read c;
       op_write zeroed c; op_read c] s /\
    Spsc.write s zeroed c = Done s' /\
    Spsc.get_total_in s = 3 * 2 ^ 62 /\
    Spsc.get_total_in s' = 0 /\
    Spsc.get_total_in s' < Spsc.get_total_in s.
Proof.
  cbv zeta. eexists. eexists. split; [|split; [|split; [|split]]].
  - repeat (eapply spsc_trace_cons; [reflexivity|]). apply spsc_trace_nil.
  - reflexivity.
  - reflexivity.
  - reflexivity.
  - reflexivity.
Qed.

Ltac counters_kept :=
  solve [ exact I
        | split; [reflexivity|]; left; split; [reflexivity | discriminate] ].

Lemma mpmc_put_step_counters (sp : bool) (t : Mpmc.ringbuffer_mpmc) (buf : mem) (len : Z) (p : Mpmc.pc) :
  0 <= Mpmc.real_in_ t -> 0 <= len ->
  match Mpmc.put_step sp t buf len p with
  | Some (t', p', ev) =>
      Mpmc.get_total_out t' = Mpmc.get_total_out t /\
      ((Mpmc.get_total_in t' = Mpmc.get_total_in t /\ ev <> Mpmc.ev_commit_in (Mpmc.real_in_ t) len) \/
       (p = Mpmc.copied (Mpmc.real_in_ t) /\ p' = Mpmc.returned /\
        ev = Mpmc.ev_commit_in (Mpmc.real_in_ t) len /\
        (Mpmc.real_in_ t + len < U64.modulus ->
         Mpmc.get_total_in t' = Mpmc.get_total_in t + len)))
  | None => True
  end.
Proof.
  intros H0 Hlen. unfold Mpmc.get_total_in, Mpmc.get_total_out.
  destruct p as [| |e|e|e|e|]; simpl; try counters_kept.
  - destruct (Mpmc.enable_cv_ t && negb (Mpmc.room t (Mpmc.in_ t) len)); counters_kept.
  - destruct (Mpmc.room t e len); counters_kept.
  - destruct ((Mpmc.in_ t =? e) && negb sp); counters_kept.
  - destruct (Z.eqb_spec (Mpmc.real_in_ t) e) as [<-|Hne]; simpl; try counters_kept.
    destruct sp; simpl; try counters_kept.
    split; [reflexivity|]. right. repeat split. intros Hw. apply add_small. lia.
Qed.

Lemma mpmc_get_step_counters (sp : bool) (t : Mpmc.ringbuffer_mpmc) (buf : mem) (len : Z) (p : Mpmc.pc) :
  0 <= Mpmc.real_out_ t -> 0 <= len ->
  match Mpmc.get_step sp t buf len p with
  | Some (t', _, p', ev) =>
      Mpmc.get_total_in t' = Mpmc.get_total_in t /\
      ((Mpmc.get_total_out t' = Mpmc.get_total_out t /\ ev <> Mpmc.ev_commit_out (Mpmc.real_out_ t) len) \/
       (p = Mpmc.copied (Mpmc.real_out_ t) /\ p' = Mpmc.returned /\
        ev = Mpmc.ev_commit_out (Mpmc.real_out_ t) len /\
        (Mpmc.real_out_ t + len < U64.modulus ->
         Mpmc.get_total_out t' = Mpmc.get_total_out t + len)))
  | None => True
  end.
Proof.
  intros H0 Hlen. unfold Mpmc.get_total_in, Mpmc.get_total_out.
  destruct p as [| |e|e|e|e|]; simpl; try counters_kept.
  - destruct (Mpmc.enable_cv_ t && negb (Mpmc.avail t (Mpmc.out_ t) len)); counters_kept.
  - destruct (Mpmc.avail t e len); counters_kept.
  - destruct ((Mpmc.out_ t =? e) && negb sp); counters_kept.
  - destruct (Z.eqb_spec (Mpmc.real_out_ t) e) as [<-|Hne]; simpl; try counters_kept.
    destruct sp; simpl; try counters_kept.
    split; [reflexivity|]. right. repeat split. intros Hw. apply add_small. lia.
Qed.

(** C9 (amended): as long as the cursor a call advances stays below [2^64]
    ([in + len] for a write, [out + len] for a read), a completed [write] of
    either variant raises [total_bytes_written()] by exactly [len] and leaves
    [total_bytes_read()] as it is, and a completed [read] raises
    [total_bytes_read()] by exactly [len] and leaves [total_bytes_written()]
    as it is.  Each of the two needs the bound on its own cursor only: a
    read is counted exactly also where [in + len] would wrap.  For the MPMC
    buffer this holds of a call run alone and, step by step, of a call among
    others: the commit is the one step that moves a counter, by [len] where
    the committed cursor plus [len] stays below [2^64], and every other step
    leaves both counters as they are.  Lengths are not negative, so no
    counter decreases. *)
Theorem counters_advance (s : Spsc.ringbuffer_spsc) (t : Mpmc.ringbuffer_mpmc)
    (buf : mem) (len : Z) (fuel : nat) (sp : bool) (p : Mpmc.pc) :
  0 <= len ->
  0 <= Spsc.in_ s -> 0 <= Spsc.out_ s ->
  0 <= Mpmc.real_in_ t -> 0 <= Mpmc.real_out_ t ->
  (Spsc.in_ s + len < U64.modulus ->
   match Spsc.write s buf len with
   | Done s' =>
       Spsc.get_total_in s' = Spsc.get_total_in s + len /\
       Spsc.get_total_out s' = Spsc.get_total_out s
   | _ => True
   end) /\
  (Spsc.out_ s + len < U64.modulus ->
   match Spsc.read s buf len with
   | Done (s', _) =>
       Spsc.get_total_out s' = Spsc.get_total_out s + len /\
       Spsc.get_total_in s' = Spsc.get_total_in s
   | _ => True
   end) /\
  (Mpmc.in_ t + len < U64.modulus ->
   match Mpmc.write fuel t buf len with
   | Done t' =>
       Mpmc.get_total_in t' = Mpmc.get_total_in t + len /\
       Mpmc.get_total_out t' = Mpmc.get_total_out t
   | _ => True
   end) /\
  (Mpmc.out_ t + len < U64.modulus ->
   match Mpmc.read fuel t buf len with
   | Done (t', _) =>
       Mpmc.get_total_out t' = Mpmc.get_total_out t + len /\
       Mpmc.get_total_in t' = Mpmc.get_total_in t
   | _ => True
   end) /\
  match Mpmc.put_step sp t buf len p with
  | Some (t', p', ev) =>
      Mpmc.get_total_out t' = Mpmc.get_total_out t /\
      ((Mpmc.get_total_in t' = Mpmc.get_total_in t /\ ev <> Mpmc.ev_commit_in (Mpmc.real_in_ t) len) \/
       (p = Mpmc.copied (Mpmc.real_in_ t) /\ p' = Mpmc.returned /\
        ev = Mpmc.ev_commit_in (Mpmc.real_in_ t) len /\
        (Mpmc.real_in_ t + len < U64.modulus ->
         Mpmc.get_total_in t' = Mpmc.get_total_in t + len)))
  | None => True
  end /\
  match Mpmc.get_step sp t buf len p with
  | Some (t', _, p', ev) =>
      Mpmc.get_total_in t' = Mpmc.get_total_in t /\
      ((Mpmc.get_total_out t' = Mpmc.get_total_out t /\ ev <> Mpmc.ev_commit_out (Mpmc.real_out_ t) len) \/
       (p = Mpmc.copied (Mpmc.real_out_ t) /\ p' = Mpmc.returned /\
        ev = Mpmc.ev_commit_out (Mpmc.real_out_ t) len /\
        (Mpmc.real_out_ t + len < U64.modulus ->
         Mpmc.get_total_out t' = Mpmc.get_total_out t + len)))
  | None => True
  end.
Proof.
  intros Hlen Hi Ho Hri Hro.
  split; [|split; [|split; [|split; [|split]]]].
  - intros Hwi. destruct (Spsc.write s buf len) as [s'| |d] eqn:E; auto.
    apply spsc_write_done in E as (_ & _ & ->).
    unfold Spsc.get_total_in, Spsc.get_total_out. simpl.
    split; [apply add_small; lia | reflexivity].
  - intros Hwo. destruct (Spsc.read s buf len) as [[s' m]| |d] eqn:E; auto.
    apply spsc_read_done in E as (_ & E).
    assert (Es : s' = fst (Spsc.get s buf len)) by (now rewrite <- E).
    rewrite Es. unfold Spsc.get_total_in, Spsc.get_total_out. simpl.
    split; [apply add_small; lia | reflexivity].
  - intros Hwt. destruct (Mpmc.write fuel t buf len) as [t'| |d] eqn:E; auto.
    apply mpmc_write_alone in E as (_ & Heq & ->).
    unfold Mpmc.get_total_in, Mpmc.get_total_out. simpl.
    split; [rewrite Heq; apply add_small; lia | reflexivity].
  - intros Hwt. destruct (Mpmc.read fuel t buf len) as [[t' m]| |d] eqn:E; auto.
    apply mpmc_read_alone in E as (_ & Heq & _ & ->).
    unfold Mpmc.get_total_in, Mpmc.get_total_out. simpl.
    split; [rewrite Heq; apply add_small; lia | reflexivity].
  - apply mpmc_put_step_counters; lia.
  - apply mpmc_get_step_counters; lia.
Qed.

Lemma counters_advance_witness :
  let s := Spsc.mk zeroed 16 true (2 ^ 64 - 4) (2 ^ 64 - 20) in
  let t := Mpmc.mk zeroed 16 false 20 20 10 10 in
  let buf := fill "A" in
  match Spsc.read s buf 8 with
  | Done (s', _) =>
      Spsc.get_total_out s' = Spsc.get_total_out s + 8 /\
      Spsc.get_total_in s' = Spsc.get_total_in s
  | _ => True
  end /\
  match Mpmc.write 6 t buf 8 with
  | Done t' =>
      Mpmc.get_total_in t' = Mpmc.get_total_in t + 8 /\
      Mpmc.get_total_out t' = Mpmc.get_total_out t
  | _ => True
  end /\
  match Mpmc.read 6 t buf 8 with
  | Done (t', _) =>
      Mpmc.get_total_out t' = Mpmc.get_total_out t + 8 /\
      Mpmc.get_total_in t' = Mpmc.get_total_in t
  | _ => True
  end /\
  match Mpmc.put_step false t buf 8 (Mpmc.copied 20) with
  | Some (t', p', ev) =>
      Mpmc.get_total_out t' = Mpmc.get_total_out t /\
      ((Mpmc.get_total_in t' = Mpmc.get_total_in t /\ ev <> Mpmc.ev_commit_in (Mpmc.real_in_ t) 8) \/
       (Mpmc.copied 20 = Mpmc.copied (Mpmc.real_in_ t) /\ p' = Mpmc.returned /\
        ev = Mpmc.ev_commit_in (Mpmc.real_in_ t) 8 /\
        (Mpmc.real_in_ t + 8 < U64.modulus ->
         Mpmc.get_total_in t' = Mpmc.get_total_in t + 8)))
  | None => True
  end.
Proof.
  intros s t buf.
  destruct (counters_advance s t buf 8 6 false (Mpmc.copied 20))
    as (_ & Hr & Hmw & Hmr & Hps & _).
  - lia.
  - simpl. lia.
  - simpl. lia.
  - simpl. lia.
  - simpl. lia.
  - split; [apply Hr; simpl; rewrite modulus_eq; lia|].
    split; [apply Hmw; simpl; rewrite modulus_eq; lia|].
    split; [apply Hmr; simpl; rewrite modulus_eq; lia|].
    exact Hps.
Defined.

(** ** MPMC: calls run one after the other *)

Lemma mpmc_room_sound (t : Mpmc.ringbuffer_mpmc) (e len : Z) :
  0 <= e + len < U64.modulus -> 0 <= Mpmc.buf_size_ t + Mpmc.real_out_ t ->
  Mpmc.room t e len = true -> e + len <= Mpmc.buf_size_ t + Mpmc.real_out_ t.
Proof.
  intros H1 H2. unfold Mpmc.room. rewrite (add_small _ _ H1).
  intros H%Z.leb_le. pose proof (add_le _ _ H2). lia.
Qed.

Lemma mpmc_room_complete (t : Mpmc.ringbuffer_mpmc) (e len : Z) :
  0 <= e + len -> 0 <= Mpmc.buf_size_ t + Mpmc.real_out_ t < U64.modulus ->
  e + len <= Mpmc.buf_size_ t + Mpmc.real_out_ t -> Mpmc.room t e len = true.
Proof.
  intros H1 H2 H3. unfold Mpmc.room. rewrite (add_small _ _ H2).
  apply Z.leb_le. pose proof (add_le _ _ H1). lia.
Qed.

Lemma mpmc_avail_sound (t : Mpmc.ringbuffer_mpmc) (e len : Z) :
  0 <= e + len < U64.modulus ->
  Mpmc.avail t e len = true -> e + len <= Mpmc.real_in_ t.
Proof.
  intros H1. unfold Mpmc.avail. rewrite (add_small _ _ H1).
  intros H%Z.leb_le. lia.
Qed.

Lemma mpmc_avail_complete (t : Mpmc.ringbuffer_mpmc) (e len : Z) :
  0 <= e + len -> e + len <= Mpmc.real_in_ t -> Mpmc.avail t e len = true.
Proof.
  intros H1 H2. unfold Mpmc.avail.
  apply Z.leb_le. pose proof (add_le _ _ H1). lia.
Qed.

Lemma mpmc_apply_step (fuel : nat) (o : mpmc_op) (t t' : Mpmc.ringbuffer_mpmc) :
  mpmc_chain t -> mpmc_quiescent t -> 0 <= mpmc_op_len o <= Mpmc.buf_size_ t ->
  mpmc_headroom t ->
  mpmc_apply fuel o t = Done t' ->
  Mpmc.buf_size_ t' = Mpmc.buf_size_ t /\ mpmc_chain t' /\ mpmc_quiescent t' /\
  match o with
  | mop_write _ len => Mpmc.in_ t' = Mpmc.in_ t + len /\ Mpmc.out_ t' = Mpmc.out_ t
  | mop_read len => Mpmc.in_ t' = Mpmc.in_ t /\ Mpmc.out_ t' = Mpmc.out_ t + len
  end.
Proof.
  intros (C0 & C1 & C2 & C3 & C4) (Q1 & Q2) Hlen Hroom E.
  unfold mpmc_headroom in Hroom. unfold mpmc_chain, mpmc_quiescent.
  destruct o as [buf len | len]; simpl in *.
  - apply mpmc_write_alone in E as (Hr & _ & ->).
    apply mpmc_room_sound in Hr; [|lia..]. simpl.
    rewrite add_small by lia. lia.
  - destruct (Mpmc.read fuel t zeroed len) as [[t1 m]| |d] eqn:E1; try discriminate.
    injection E as <-.
    apply mpmc_read_alone in E1 as (Ha & _ & _ & ->).
    apply mpmc_avail_sound in Ha; [|lia]. simpl.
    rewrite add_small by lia. lia.
Qed.

Lemma mpmc_written_nonneg (ops : list mpmc_op) (cap : Z) :
  Forall (fun o => 0 <= mpmc_op_len o <= cap) ops -> 0 <= mpmc_written ops.
Proof.
  induction 1 as [|o ops Ho _ IH]; simpl; [lia|].
  destruct o; simpl in Ho; lia.
Qed.

Lemma mpmc_trace_inv (t : Mpmc.ringbuffer_mpmc) (ops : list mpmc_op) (t' : Mpmc.ringbuffer_mpmc) :
  mpmc_trace t ops t' ->
  mpmc_chain t -> mpmc_quiescent t ->
  Forall (fun o => 0 <= mpmc_op_len o <= Mpmc.buf_size_ t) ops ->
  Mpmc.in_ t + mpmc_written ops + Mpmc.buf_size_ t < U64.modulus ->
  mpmc_chain t' /\ mpmc_quiescent t' /\ Mpmc.buf_size_ t' = Mpmc.buf_size_ t /\
  Mpmc.in_ t' = Mpmc.in_ t + mpmc_written ops.
Proof.
  induction 1 as [t | t o fuel t1 ops t2 Hstep _ IH]; intros Hch Hq Hall Hroom.
  - simpl. split; [exact Hch|]. split; [exact Hq|]. lia.
  - apply Forall_cons_iff in Hall as [Ho Hall].
    pose proof (mpmc_written_nonneg _ _ Hall) as Hn.
    assert (Hr1 : mpmc_headroom t)
      by (unfold mpmc_headroom; destruct o; simpl in *; lia).
    destruct (mpmc_apply_step fuel o t t1 Hch Hq Ho Hr1 Hstep) as (Hb & Hch1 & Hq1 & Hcur).
    rewrite <- Hb in Hall.
    destruct IH as (Hch2 & Hq2 & Hb2 & Hin2); auto.
    { rewrite Hb. destruct o; simpl in *; lia. }
    split; [exact Hch2|]. split; [exact Hq2|]. split; [congruence|].
    destruct o; simpl in *; lia.
Qed.

(** ** C10: calls of length zero *)

Lemma memcpy_zero (dst src : mem) (doff soff j : Z) :
  memcpy dst doff src soff 0 j = dst j.
Proof.
  unfold memcpy. destruct (Z.leb_spec doff j), (Z.ltb_spec j (doff + 0)); simpl;
    try reflexivity; lia.
Qed.

Lemma two_memcpy_zero (m buf : mem) (o x j : Z) :
  memcpy (memcpy m o buf 0 (Z.min 0 (U64.wrap x))) 0 buf (Z.min 0 (U64.wrap x))
    (U64.sub 0 (Z.min 0 (U64.wrap x))) j = m j.
Proof.
  pose proof (wrap_range x). rewrite Z.min_l by lia.
  change (U64.sub 0 0) with 0. now rewrite !memcpy_zero.
Qed.

Lemma two_memcpy_zero_load (m buf : mem) (o x j : Z) :
  memcpy (memcpy buf 0 m o (Z.min 0 (U64.wrap x))) (Z.min 0 (U64.wrap x)) m 0
    (U64.sub 0 (Z.min 0 (U64.wrap x))) j = buf j.
Proof.
  pose proof (wrap_range x). rewrite Z.min_l by lia.
  change (U64.sub 0 0) with 0. now rewrite !memcpy_zero.
Qed.

Lemma mpmc_write_waits_for_commit (t : Mpmc.ringbuffer_mpmc) (buf : mem) (len : Z) (fuel : nat) :
  Mpmc.real_in_ t <> Mpmc.in_ t -> Mpmc.write fuel t buf len = Blocked.
Proof.
  intros Hne. destruct (Mpmc.write fuel t buf len) as [t'| |d] eqn:E.
  - apply mpmc_write_alone in E as (_ & Heq & _). contradiction.
  - reflexivity.
  - unfold Mpmc.write in E.
    destruct (Mpmc.put_alone fuel t buf len Mpmc.top) as [t1 p1].
    destruct p1; discriminate.
Qed.

(** C10, as stated, fails once [out + capacity] reaches [2^64]: with
    capacity [2^62], after three completed rounds of writing and reading
    [2^62] bytes both cursors are [3 * 2^62], the sum [buf_size_ + out_]
    wraps to 0, and a [write] of length 0 finds its predicate false, on
    either variant.  On the MPMC buffer it also fails while another call is
    between its reservation and its commit: a [write] of length 0 then
    stays in its commit loop until that call has committed. *)
Lemma zero_length_write_waits :
  (let c := 2 ^ 62 in
   exists s t,
     spsc_trace (spsc_init c false zeroed)
       [op_write zeroed c; op_read c; op_write zeroed c; op_read c;
        op_write zeroed c; op_read c] s /\
     mpmc_trace (mpmc_init c false zeroed)
       [mop_write zeroed c; mop_read c; mop_write zeroed c; mop_read c;
        mop_write zeroed c; mop_read c] t /\
     Spsc.can_put s 0 = false /\
     Spsc.write s zeroed 0 = Blocked /\
     forall fuel, Mpmc.write fuel t zeroed 0 = Blocked) /\
  (let reserved :=
     Mpmc.run (repeat (0%nat, false) 4)
       (mpmc_start 16 false zeroed [Mpmc.put_call (fill "A") 5 Mpmc.top]) in
   Mpmc.in_ (Mpmc.shared reserved) = 5 /\ Mpmc.real_in_ (Mpmc.shared reserved) = 0 /\
   forall fuel, Mpmc.write fuel (Mpmc.shared reserved) zeroed 0 = Blocked).
Proof.
  split.
  - cbv zeta. eexists. eexists. split; [|split; [|split; [|split]]].
    + spsc_trace_steps.
    + mpmc_trace_steps.
    + reflexivity.
    + reflexivity.
    + intros fuel. apply mpmc_write_no_room. reflexivity.
  - cbv zeta. split; [reflexivity|]. split; [reflexivity|].
    intros fuel. apply mpmc_write_waits_for_commit. vm_compute. discriminate.
Qed.

(** C10 (amended): in every state reached from a fresh buffer by completed
    calls of length at most the capacity, as long as the bytes written in
    all plus the capacity stay below [2^64], [write(buf, 0)] and [read(buf,
    0)] return without waiting and leave every cursor, both counters and
    every cell of the storage as they are; the caller's region is left as it
    is too.  For the MPMC buffer the calls are run alone, one after the
    other. *)
Theorem zero_length_calls (cap : Z) (cv : bool) (m buf : mem)
    (ops : list spsc_op) (mops : list mpmc_op)
    (s : Spsc.ringbuffer_spsc) (t : Mpmc.ringbuffer_mpmc) (fuel : nat) :
  0 <= cap ->
  Forall (fun o => 0 <= spsc_op_len o <= cap) ops ->
  Forall (fun o => 0 <= mpmc_op_len o <= cap) mops ->
  written_bytes ops + cap < U64.modulus ->
  mpmc_written mops + cap < U64.modulus ->
  spsc_trace (spsc_init cap cv m) ops s ->
  mpmc_trace (mpmc_init cap cv m) mops t ->
  (6 <= fuel)%nat ->
  (exists s', Spsc.write s buf 0 = Done s' /\
     Spsc.in_ s' = Spsc.in_ s /\ Spsc.out_ s' = Spsc.out_ s /\
     forall j, Spsc.buffer_ s' j = Spsc.buffer_ s j) /\
  (exists s' r, Spsc.read s buf 0 = Done (s', r) /\
     Spsc.in_ s' = Spsc.in_ s /\ Spsc.out_ s' = Spsc.out_ s /\
     Spsc.buffer_ s' = Spsc.buffer_ s /\ forall i, r i = buf i) /\
  (exists t', Mpmc.write fuel t buf 0 = Done t' /\
     Mpmc.in_ t' = Mpmc.in_ t /\ Mpmc.real_in_ t' = Mpmc.real_in_ t /\
     Mpmc.out_ t' = Mpmc.out_ t /\ Mpmc.real_out_ t' = Mpmc.real_out_ t /\
     forall j, Mpmc.buffer_ t' j = Mpmc.buffer_ t j) /\
  (exists t' r, Mpmc.read fuel t buf 0 = Done (t', r) /\
     Mpmc.in_ t' = Mpmc.in_ t /\ Mpmc.real_in_ t' = Mpmc.real_in_ t /\
     Mpmc.out_ t' = Mpmc.out_ t /\ Mpmc.real_out_ t' = Mpmc.real_out_ t /\
     Mpmc.buffer_ t' = Mpmc.buffer_ t /\ forall i, r i = buf i).
Proof.
  intros Hc Hops Hmops Hsum Hmsum Htr Hmtr Hfuel.
  destruct (spsc_trace_inv _ _ _ Htr) as (Hinv & Hsz & Hin & Hout).
  { simpl. lia. }
  { unfold spsc_inv. simpl. lia. }
  { exact Hops. }
  { simpl. lia. }
  destruct (mpmc_trace_inv _ _ _ Hmtr) as ((C0 & C1 & C2 & C3 & C4) & (Q1 & Q2) & Hmsz & Hmin).
  { unfold mpmc_chain. simpl. lia. }
  { unfold mpmc_quiescent. simpl. auto. }
  { exact Hmops. }
  { simpl. lia. }
  simpl in Hsz, Hin, Hout, Hmsz, Hmin.
  pose proof (written_bytes_nonneg _ _ Hops) as Hwn.
  unfold spsc_inv in Hinv.
  split; [|split; [|split]].
  - exists (Spsc.put s buf 0). split.
    + apply spsc_write_room; [lia|]. apply spsc_can_put_complete; lia.
    + simpl. split; [rewrite add_small by lia; lia|]. split; [reflexivity|].
      intros j. unfold Spsc.put. simpl. apply two_memcpy_zero.
  - exists (fst (Spsc.get s buf 0)), (snd (Spsc.get s buf 0)). split.
    + rewrite spsc_read_avail by (apply spsc_can_get_complete; lia).
      now destruct (Spsc.get s buf 0).
    + simpl. split; [reflexivity|]. split; [rewrite add_small by lia; lia|].
      split; [reflexivity|]. intros i. apply two_memcpy_zero_load.
  - eexists. split.
    { apply mpmc_write_alone_returns; auto. apply mpmc_room_complete; lia. }
    simpl.
    rewrite add_small by lia.
    repeat (split; [lia|]). intros j. unfold Mpmc.copy_in. apply two_memcpy_zero.
  - eexists. eexists. split.
    { apply mpmc_read_alone_returns; auto. apply mpmc_avail_complete; lia. }
    simpl.
    rewrite add_small by lia.
    repeat (split; [lia || reflexivity|]). intros i. unfold Mpmc.copy_out. apply two_memcpy_zero_load.
Qed.

Lemma zero_length_calls_witness :
  let buf := fill "Z" in
  exists s t,
    spsc_trace (spsc_init 16 true zeroed) [op_write (fill "A") 10; op_read 6] s /\
    mpmc_trace (mpmc_init 16 true zeroed) [mop_write (fill "A") 10; mop_read 6] t /\
    (exists s', Spsc.write s buf 0 = Done s' /\
       Spsc.in_ s' = Spsc.in_ s /\ Spsc.out_ s' = Spsc.out_ s /\
       forall j, Spsc.buffer_ s' j = Spsc.buffer_ s j) /\
    (exists s' r, Spsc.read s buf 0 = Done (s', r) /\
       Spsc.in_ s' = Spsc.in_ s /\ Spsc.out_ s' = Spsc.out_ s /\
       Spsc.buffer_ s' = Spsc.buffer_ s /\ forall i, r i = buf i) /\
    (exists t', Mpmc.write 6 t buf 0 = Done t' /\
       Mpmc.in_ t' = Mpmc.in_ t /\ Mpmc.real_in_ t' = Mpmc.real_in_ t /\
       Mpmc.out_ t' = Mpmc.out_ t /\ Mpmc.real_out_ t' = Mpmc.real_out_ t /\
       forall j, Mpmc.buffer_ t' j = Mpmc.buffer_ t j) /\
    (exists t' r, Mpmc.read 6 t buf 0 = Done (t', r) /\
       Mpmc.in_ t' = Mpmc.in_ t /\ Mpmc.real_in_ t' = Mpmc.real_in_ t /\
       Mpmc.out_ t' = Mpmc.out_ t /\ Mpmc.real_out_ t' = Mpmc.real_out_ t /\
       Mpmc.buffer_ t' = Mpmc.buffer_ t /\ forall i, r i = buf i).
Proof.
  intros buf. eexists. eexists. split; [|split].
  - spsc_trace_steps.
  - mpmc_trace_steps.
  - apply (zero_length_calls 16 true zeroed buf
             [op_write (fill "A") 10; op_read 6] [mop_write (fill "A") 10; mop_read 6]).
    + lia.
    + repeat constructor; simpl; lia.
    + repeat constructor; simpl; lia.
    + simpl. rewrite modulus_eq. lia.
    + simpl. rewrite modulus_eq. lia.
    + spsc_trace_steps.
    + mpmc_trace_steps.
    + lia.
Defined.

(** ** C1: the round trip through the SPSC buffer *)

Lemma total_size_app (a b : list chunk) :
  total_size (a ++ b) = total_size a + total_size b.
Proof. induction a as [|c a IH]; simpl; lia. Qed.

Lemma total_size_nonneg (cap : Z) (cs : list chunk) :
  Forall (fun c => 0 <= size c <= cap) cs -> 0 <= total_size cs.
Proof. induction 1; simpl; lia. Qed.

Lemma total_size_take_S (cs : list chunk) (n : nat) (c : chunk) :
  cs !! n = Some c -> total_size (take (S n) cs) = total_size (take n cs) + size c.
Proof.
  intros H. rewrite (take_S_r _ _ _ H), total_size_app. simpl. lia.
Qed.

Lemma total_size_split (cs : list chunk) (n : nat) :
  total_size cs = total_size (take n cs) + total_size (drop n cs).
Proof. rewrite <- total_size_app, take_drop. reflexivity. Qed.

Lemma Forall_sizes_take (cap : Z) (cs : list chunk) (n : nat) :
  Forall (fun c => 0 <= size c <= cap) cs ->
  Forall (fun c => 0 <= size c <= cap) (take n cs).
Proof. apply Forall_take. Qed.

Lemma Forall_sizes_drop (cap : Z) (cs : list chunk) (n : nat) :
  Forall (fun c => 0 <= size c <= cap) cs ->
  Forall (fun c => 0 <= size c <= cap) (drop n cs).
Proof. apply Forall_drop. Qed.

Lemma total_size_take_bounds (cap : Z) (cs : list chunk) (n : nat) :
  Forall (fun c => 0 <= size c <= cap) cs ->
  0 <= total_size (take n cs) <= total_size cs.
Proof.
  intros H. rewrite (total_size_split cs n).
  pose proof (total_size_nonneg cap _ (Forall_sizes_take cap cs n H)).
  pose proof (total_size_nonneg cap _ (Forall_sizes_drop cap cs n H)). lia.
Qed.

Lemma total_size_take_mono (cap : Z) (cs : list chunk) (n k : nat) :
  Forall (fun c => 0 <= size c <= cap) cs -> (n <= k)%nat ->
  total_size (take n cs) <= total_size (take k cs).
Proof.
  intros H Hnk.
  replace (take n cs) with (take n (take k cs)) by (rewrite take_take; f_equal; lia).
  apply (total_size_take_bounds cap). now apply Forall_sizes_take.
Qed.

Lemma stream_at (cap : Z) (cs : list chunk) (k : nat) (c : chunk) (i : Z) :
  Forall (fun c => 0 <= size c <= cap) cs ->
  cs !! k = Some c -> 0 <= i < size c ->
  stream cs (total_size (take k cs) + i) = data c i.
Proof.
  intros H. revert k. induction H as [|c0 cs Hc0 Hcs IH]; intros k Hk Hi.
  - discriminate.
  - destruct k as [|k]; simpl in *.
    + injection Hk as ->. destruct (Z.ltb_spec (0 + i) (size c)); [|lia].
      f_equal.
    + pose proof (total_size_take_bounds cap cs k Hcs).
      destruct (Z.ltb_spec (size c0 + total_size (take k cs) + i) (size c0)); [lia|].
      replace (size c0 + total_size (take k cs) + i - size c0)
        with (total_size (take k cs) + i) by lia.
      now apply IH.
Qed.

Lemma bytes_of_same (n : Z) (a b : mem) :
  same_bytes n a b <-> bytes_of a n = bytes_of b n.
Proof.
  unfold same_bytes, bytes_of. rewrite map_ext_in_iff. split.
  - intros H i Hi. apply in_seq in Hi. apply H. lia.
  - intros H i Hi. specialize (H (Z.to_nat i)).
    rewrite Z2Nat.id in H by lia. apply H. apply in_seq. lia.
Qed.

Lemma bytes_of_region (l : list byte) :
  bytes_of (region_of l) (Z.of_nat (length l)) = l.
Proof.
  unfold bytes_of. rewrite Nat2Z.id. induction l as [|a l IH]; [reflexivity|].
  simpl. f_equal. rewrite <- seq_shift, map_map. rewrite <- IH at 2.
  apply map_ext. intros i. unfold region_of.
  rewrite !Nat2Z.id. reflexivity.
Qed.

Lemma wrapped_store_at_mod (cap pos len p : Z) (m buf : mem) :
  0 < cap ->
  wrapped_store cap m pos buf len (p mod cap) =
  if (p - pos) mod cap <? len then buf ((p - pos) mod cap) else m (p mod cap).
Proof.
  intros Hc. unfold wrapped_store.
  pose proof (Z.mod_pos_bound p cap Hc) as Hp.
  rewrite Zminus_mod_idemp_l.
  destruct (Z.leb_spec 0 (p mod cap)); [|lia].
  destruct (Z.ltb_spec (p mod cap) cap); [|lia]. reflexivity.
Qed.

Section RoundTrip.

Variable cap : Z.
Variable cs : list chunk.
Hypothesis cap_pow2 : power_of_two cap.
Hypothesis sizes_ok : Forall (fun c => 0 <= size c <= cap) cs.
Hypothesis no_wrap : total_size cs + cap < U64.modulus.

Lemma session_cursor_bounds (n : nat) :
  0 <= total_size (take n cs) <= total_size cs.
Proof. now apply (total_size_take_bounds cap). Qed.

Lemma producer_step (nw nr : nat) (x : session) :
  session_inv cap cs nw nr x ->
  session_step producer x = x \/
  session_inv cap cs (S nw) nr (session_step producer x).
Proof.
  intros (Hnw & Hnr & Hpend & Hwant & Hrecv & Hcr & Hwf & Hinv & Hsz & Hin & Hout & Hbuf & Hdel).
  pose proof (power_of_two_bounds _ cap_pow2) as Hb.
  unfold session_step. rewrite Hcr, Hpend.
  destruct (decide (nw < length cs)%nat) as [Hlt|Hge];
    [|left; rewrite drop_ge by lia; reflexivity].
  destruct (lookup_lt_is_Some_2 cs nw Hlt) as [c Hc].
  rewrite (drop_S _ _ _ Hc).
  pose proof (Forall_lookup_1 _ _ _ _ sizes_ok Hc) as Hsize. simpl in Hsize.
  pose proof (total_size_take_S _ _ _ Hc) as HS.
  pose proof (session_cursor_bounds (S nw)) as HbS.
  pose proof (session_cursor_bounds nw) as Hbw.
  pose proof (session_cursor_bounds nr) as Hbr.
  destruct (Spsc.write (rb x) (data c) (size c)) as [s'| |d] eqn:E.
  - right. apply spsc_write_done in E as (_ & Hp & ->).
    apply spsc_can_put_sound in Hp; [|lia..].
    destruct Hwf as (Hc2 & Hi & Ho). unfold spsc_inv in Hinv.
    unfold session_inv. simpl.
    rewrite add_small by lia.
    repeat (split; [first [assumption | lia | reflexivity]|]).
    split; [|split; [|split; [|split; [|split; [|split]]]]]; try assumption; try lia.
    + unfold spsc_wf, U64.in_range. simpl. rewrite add_small by lia.
      split; [exact Hc2|]. lia.
    + unfold spsc_inv. simpl. rewrite add_small by lia. lia.
    + intros p Hp'.
      pose proof (spsc_put_buffer (rb x) (data c) (size c) (p mod cap)) as Hput.
      unfold Spsc.put in Hput. simpl in Hput. rewrite Hput by (rewrite ?Hsz; auto; lia).
      rewrite Hsz, wrapped_store_at_mod by lia.
      destruct (Z.lt_ge_cases p (Spsc.in_ (rb x))) as [Hlo|Hhi].
      * assert (Em : (p - Spsc.in_ (rb x)) mod cap = p - Spsc.in_ (rb x) + cap).
        { symmetry. apply (Zmod_unique _ _ (-1)); lia. }
        rewrite Em. destruct (Z.ltb_spec (p - Spsc.in_ (rb x) + cap) (size c)); [lia|].
        apply Hbuf. lia.
      * assert (Em : (p - Spsc.in_ (rb x)) mod cap = p - Spsc.in_ (rb x)).
        { apply Z.mod_small. lia. }
        rewrite Em. destruct (Z.ltb_spec (p - Spsc.in_ (rb x)) (size c)); [|lia].
        rewrite <- (stream_at cap cs nw c) by (auto; lia).
        f_equal. lia.
  - left. reflexivity.
  - exfalso. unfold Spsc.write in E. rewrite Hsz in E.
    destruct (Z.ltb_spec cap (size c)); [lia|].
    destruct (Spsc.enable_cv_ (rb x)), (Spsc.can_put (rb x) (size c)); discriminate.
Qed.

Lemma consumer_step (nw nr : nat) (x : session) :
  session_inv cap cs nw nr x ->
  session_step consumer x = x \/
  session_inv cap cs nw (S nr) (session_step consumer x).
Proof.
  intros (Hnw & Hnr & Hpend & Hwant & Hrecv & Hcr & Hwf & Hinv & Hsz & Hin & Hout & Hbuf & Hdel).
  pose proof (power_of_two_bounds _ cap_pow2) as Hb.
  unfold session_step. rewrite Hcr, Hwant.
  destruct (decide (nr < length cs)%nat) as [Hlt|Hge];
    [|left; rewrite drop_ge by lia; reflexivity].
  destruct (lookup_lt_is_Some_2 cs nr Hlt) as [c Hc].
  rewrite (drop_S _ _ _ Hc). simpl.
  pose proof (Forall_lookup_1 _ _ _ _ sizes_ok Hc) as Hsize. simpl in Hsize.
  pose proof (total_size_take_S _ _ _ Hc) as HS.
  pose proof (session_cursor_bounds (S nr)) as HbS.
  pose proof (session_cursor_bounds nw) as Hbw.
  pose proof (session_cursor_bounds nr) as Hbr.
  destruct (Spsc.read (rb x) zeroed (size c)) as [[s' m]| |d] eqn:E.
  - right. apply spsc_read_done in E as (Hg & E).
    apply spsc_can_get_sound in Hg; [|lia].
    assert (Em : forall i, m i = snd (Spsc.get (rb x) zeroed (size c)) i) by (now rewrite <- E).
    assert (Es : s' = fst (Spsc.get (rb x) zeroed (size c))) by (now rewrite <- E).
    subst s'.
    destruct Hwf as (Hc2 & Hi & Ho). unfold spsc_inv in Hinv.
    unfold session_inv. cbn [rb pending wanted received crashed fst Spsc.get
      Spsc.in_ Spsc.out_ Spsc.buffer_ Spsc.buf_size_ Spsc.enable_cv_].
    assert (Hz : 0 <= Spsc.out_ (rb x) + size c < U64.modulus) by lia.
    rewrite (add_small _ _ Hz).
    split; [lia|]. split; [lia|]. split; [assumption|]. split; [reflexivity|].
    split; [rewrite length_app; simpl; lia|]. split; [reflexivity|].
    split; [|split; [|split; [|split; [|split; [|split]]]]]; try assumption; try lia.
    + unfold spsc_wf, U64.in_range. simpl. split; [exact Hc2|]. lia.
    + unfold spsc_inv. simpl. lia.
    + intros p Hp'. apply Hbuf. lia.
    + intros k m' c' Hk Hk'.
      apply lookup_app_Some in Hk as [Hk|[Hlen Hk]]; [now apply (Hdel k)|].
      apply list_lookup_singleton_Some in Hk as [Hk0 <-].
      assert (k = nr) by lia. subst k.
      rewrite Hc in Hk'. injection Hk' as <-.
      intros i Hi'. rewrite Em, spsc_get_region by (rewrite ?Hsz; auto; lia).
      unfold wrapped_load. rewrite Hsz.
      destruct (Z.leb_spec 0 i); [|lia]. destruct (Z.ltb_spec i (size c)); [|lia]. simpl.
      rewrite Hbuf by lia. rewrite Hout. now apply (stream_at cap).
  - left. reflexivity.
  - exfalso. unfold Spsc.read in E.
    destruct (Spsc.enable_cv_ (rb x)), (Spsc.can_get (rb x) (size c)); discriminate.
Qed.

Lemma session_inv_start (cv : bool) (m : mem) :
  session_inv cap cs 0 0 (session_start (spsc_init cap cv m) cs).
Proof.
  pose proof (power_of_two_bounds _ cap_pow2) as Hb.
  unfold session_inv, session_start, spsc_init, spsc_wf, spsc_inv, U64.in_range. simpl.
  rewrite !drop_0.
  repeat (split; [first [reflexivity | assumption | lia
                        | split; [assumption | split; lia]
                        | intros p Hp; lia ]|]).
  intros k m' c Hk. discriminate.
Qed.

Lemma session_inv_run (sched : list role) (nw nr : nat) (x : session) :
  session_inv cap cs nw nr x ->
  exists nw' nr', session_inv cap cs nw' nr' (session_run sched x).
Proof.
  revert nw nr x. induction sched as [|r sched IH]; intros nw nr x Hx.
  - exists nw, nr. exact Hx.
  - unfold session_run. simpl. fold (session_run sched (session_step r x)).
    destruct r.
    + destruct (producer_step nw nr x Hx) as [-> | Hx']; eauto.
    + destruct (consumer_step nw nr x Hx) as [-> | Hx']; eauto.
Qed.

Lemma session_inv_delivered (nw nr : nat) (x : session) :
  session_inv cap cs nw nr x -> delivered_in_order cs x /\ crashed x = None.
Proof.
  intros (Hnw & Hnr & Hpend & Hwant & Hrecv & Hcr & Hwf & Hinv & Hsz & Hin & Hout & Hbuf & Hdel).
  split; [split|]; [lia| |exact Hcr].
  intros k m c Hk Hc. apply bytes_of_same. now apply (Hdel k).
Qed.

(** While a chunk is still to be read, one of the two roles can complete
    its next call. *)
Lemma session_progress (nw nr : nat) (x : session) :
  session_inv cap cs nw nr x -> (nr < length cs)%nat ->
  (length (pending (session_step producer x)) < length (pending x))%nat \/
  (length (received x) < length (received (session_step consumer x)))%nat.
Proof.
  intros (Hnw & Hnr & Hpend & Hwant & Hrecv & Hcr & Hwf & Hinv & Hsz & Hin & Hout & Hbuf & Hdel) Hlt.
  pose proof (power_of_two_bounds _ cap_pow2) as Hb.
  destruct (lookup_lt_is_Some_2 cs nr Hlt) as [c Hc].
  pose proof (Forall_lookup_1 _ _ _ _ sizes_ok Hc) as Hsize. simpl in Hsize.
  pose proof (total_size_take_S _ _ _ Hc) as HS.
  pose proof (session_cursor_bounds (S nr)) as HbS.
  pose proof (session_cursor_bounds nw) as Hbw.
  pose proof (session_cursor_bounds nr) as Hbr.
  unfold spsc_inv in Hinv.
  destruct (Z.le_gt_cases (Spsc.out_ (rb x) + size c) (Spsc.in_ (rb x))) as [Hdata|Hnone].
  - right. unfold session_step. rewrite Hcr, Hwant, (drop_S _ _ _ Hc). simpl.
    rewrite spsc_read_avail by (apply spsc_can_get_complete; lia).
    destruct (Spsc.get (rb x) zeroed (size c)). simpl. rewrite length_app. simpl. lia.
  - left.
    assert (Hle : (nw <= nr)%nat).
    { destruct (decide (nw <= nr)%nat) as [|Hgt]; [assumption|].
      pose proof (total_size_take_mono cap cs (S nr) nw sizes_ok). lia. }
    pose proof (total_size_take_mono cap cs nw nr sizes_ok Hle) as Hmono.
    assert (Hlt' : (nw < length cs)%nat) by lia.
    destruct (lookup_lt_is_Some_2 cs nw Hlt') as [c' Hc'].
    pose proof (Forall_lookup_1 _ _ _ _ sizes_ok Hc') as Hsize'. simpl in Hsize'.
    unfold session_step. rewrite Hcr, Hpend, (drop_S _ _ _ Hc').
    rewrite spsc_write_room; [simpl; lia | lia |].
    apply spsc_can_put_complete; lia.
Qed.

End RoundTrip.

(** C1, as stated, fails once [in] wraps.  With capacity [2^62] and eight
    chunks of [2^62] or [2^61] bytes: after three rounds and a fourth write,
    [in = 3 * 2^62] and [out = 3 * 2^62 - 2^61]; the fifth write is let
    through because [in + 2^62] wraps to 0, and it overwrites the fourth
    chunk; the fourth read then returns bytes of the eighth chunk. *)
Lemma spsc_round_trip_wraps :
  let c := 2 ^ 62 in
  let q := 2 ^ 61 in
  let cs := [mk_chunk (fill "1") c; mk_chunk (fill "2") c; mk_chunk (fill "3") q;
             mk_chunk (fill "4") q; mk_chunk (fill "5") c; mk_chunk (fill "6") c;
             mk_chunk (fill "7") c; mk_chunk (fill "8") c] in
  let sched := [producer; consumer; producer; consumer; producer; consumer;
                producer; producer; producer; producer; producer; consumer] in
  let x := session_run sched (session_start (spsc_init c false zeroed) cs) in
  power_of_two c /\ Forall (fun k => 0 <= size k <= c) cs /\
  (exists m, received x !! 3%nat = Some m /\ m 0 = "8"%byte) /\
  ~ delivered_in_order cs x.
Proof.
  intros c q cs sched x.
  assert (Hm : exists m, received x !! 3%nat = Some m /\ m 0 = "8"%byte).
  { assert (E : is_Some (received x !! 3%nat)).
    { apply lookup_lt_is_Some. vm_compute. lia. }
    destruct E as [m E]. exists m. split; [exact E|].
    assert (Hv : default zeroed (received x !! 3%nat) 0 = "8"%byte)
      by (vm_compute; reflexivity).
    rewrite E in Hv. exact Hv. }
  split; [exists 62; split; [lia | reflexivity]|].
  split; [repeat constructor; simpl; lia|].
  split; [exact Hm|].
  intros [_ Hd]. destruct Hm as (m & Hk & Hm0).
  specialize (Hd 3%nat m (mk_chunk (fill "4") q) Hk eq_refl).
  apply bytes_of_same in Hd. specialize (Hd 0). simpl in Hd.
  rewrite Hm0 in Hd. unfold fill in Hd. 
  assert (0 <= 0 < q) by (unfold q; split; [lia | reflexivity]).
  specialize (Hd H). discriminate.
Qed.

(** C1 (amended): for an SPSC buffer with power-of-two capacity and a
    sequence of chunks, each of length at most the capacity, whose lengths
    in all plus the capacity stay below [2^64]: however the writes of the one
    producer and the reads of the one consumer (same sizes, same order)
    interleave, every chunk read holds the bytes of the chunk written at the
    same place of the sequence (for chunks given as byte lists: it is that
    list), no call aborts, and until the last chunk has been read one of the
    two roles can complete its next call.  With
    capacity 16 in Blocking mode, writing ["ABCDEFGHIJ"] and reading 10
    bytes returns ["ABCDEFGHIJ"] and leaves both counters at 10. *)
Theorem spsc_round_trip (cap : Z) (cv : bool) (m : mem) (cs : list chunk) (sched : list role) :
  power_of_two cap ->
  Forall (fun c => 0 <= size c <= cap) cs ->
  total_size cs + cap < U64.modulus ->
  let x := session_run sched (session_start (spsc_init cap cv m) cs) in
  (delivered_in_order cs x /\ crashed x = None /\
   (length (received x) = length cs \/
    (length (pending (session_step producer x)) < length (pending x))%nat \/
    (length (received x) < length (received (session_step consumer x)))%nat)) /\
  (forall (ls : list (list byte)) (k : nat) (r : mem) (l : list byte),
     cs = map chunk_of_bytes ls -> received x !! k = Some r -> ls !! k = Some l ->
     bytes_of r (Z.of_nat (length l)) = l) /\
  let y := session_run [producer; consumer]
             (session_start (spsc_init 16 true zeroed)
                [chunk_of_bytes (list_byte_of_string "ABCDEFGHIJ")]) in
  map (fun r => bytes_of r 10) (received y) = [list_byte_of_string "ABCDEFGHIJ"] /\
  Spsc.get_total_in (rb y) = 10 /\ Spsc.get_total_out (rb y) = 10.
Proof.
  intros Hc Hsz Hsum x.
  destruct (session_inv_run cap cs Hc Hsz Hsum sched 0 0
              (session_start (spsc_init cap cv m) cs)) as (nw & nr & Hx).
  { now apply session_inv_start. }
  fold x in Hx.
  destruct (session_inv_delivered cap cs nw nr x Hx) as [Hd Hcr].
  split; [|split].
  - split; [exact Hd|]. split; [exact Hcr|].
    assert (Hlen : length (received x) = nr) by (apply Hx).
    assert (Hnr : (nr <= length cs)%nat) by (apply Hx).
    destruct (decide (nr = length cs)) as [->|Hne]; [now left|right].
    apply (session_progress cap cs Hc Hsz Hsum nw nr x Hx). lia.
  - intros ls k r l Hcs Hr Hl. destruct Hd as [_ Hd].
    assert (Hk : cs !! k = Some (chunk_of_bytes l))
      by (rewrite Hcs, list_lookup_fmap, Hl; reflexivity).
    specialize (Hd k r _ Hr Hk). simpl in Hd.
    now rewrite bytes_of_region in Hd.
  - vm_compute. repeat split; reflexivity.
Qed.

Lemma spsc_round_trip_witness :
  let cs := [chunk_of_bytes (list_byte_of_string "ABCDEFGHIJ");
             chunk_of_bytes (list_byte_of_string "KLMNOPQRSTUV")] in
  let x := session_run [producer; producer; consumer; producer; consumer]
             (session_start (spsc_init 16 true zeroed) cs) in
  (delivered_in_order cs x /\ crashed x = None /\
   (length (received x) = length cs \/
    (length (pending (session_step producer x)) < length (pending x))%nat \/
    (length (received x) < length (received (session_step consumer x)))%nat)) /\
  (forall (ls : list (list byte)) (k : nat) (r : mem) (l : list byte),
     cs = map chunk_of_bytes ls -> received x !! k = Some r -> ls !! k = Some l ->
     bytes_of r (Z.of_nat (length l)) = l) /\
  let y := session_run [producer; consumer]
             (session_start (spsc_init 16 true zeroed)
                [chunk_of_bytes (list_byte_of_string "ABCDEFGHIJ")]) in
  map (fun r => bytes_of r 10) (received y) = [list_byte_of_string "ABCDEFGHIJ"] /\
  Spsc.get_total_in (rb y) = 10 /\ Spsc.get_total_out (rb y) = 10.
Proof.
  intros cs.
  apply (spsc_round_trip 16 true zeroed cs
           [producer; producer; consumer; producer; consumer]).
  - exists 4. split; [lia | reflexivity].
  - repeat constructor; simpl; lia.
  - simpl. rewrite modulus_eq. lia.
Defined.

(** ** C2: the cursor chain of the MPMC buffer under interleaving *)

Lemma apart_sym (c1 c2 : Mpmc.call) : apart c1 c2 -> apart c2 c1.
Proof.
  unfold apart. destruct (claim c1) as [[[sd1 e1] l1]|], (claim c2) as [[[sd2 e2] l2]|]; auto.
  intros H Heq. symmetry in Heq. destruct (H Heq); auto.
Qed.

Ltac open_inv :=
  unfold mpmc_chain, mpmc_headroom, call_ok, put_ok, get_ok, apart, claim,
    Mpmc.set_in, Mpmc.set_out, Mpmc.set_real_in, Mpmc.set_real_out, Mpmc.set_buffer in *;
  simpl in *.

(** What one step of a call owes the invariant: the chain, its own
    knowledge at the new control point, and the knowledge and the ranges of
    every other call. *)
Lemma put_step_inv (sp : bool) (s s' : Mpmc.ringbuffer_mpmc) (buf : mem) (len : Z)
    (p p' : Mpmc.pc) (ev : Mpmc.event) :
  mpmc_chain s -> mpmc_headroom s ->
  call_ok s (Mpmc.put_call buf len p) ->
  Mpmc.put_step sp s buf len p = Some (s', p', ev) ->
  mpmc_chain s' /\ Mpmc.buf_size_ s' = Mpmc.buf_size_ s /\
  call_ok s' (Mpmc.put_call buf len p') /\
  forall c2, call_ok s c2 -> apart (Mpmc.put_call buf len p) c2 ->
             call_ok s' c2 /\ apart (Mpmc.put_call buf len p') c2.
Proof.
  intros Hch Hroom Hok Hstep.
  destruct p as [| |e|e|e|e|]; simpl in Hstep.
  - destruct (Mpmc.enable_cv_ s && negb (Mpmc.room s (Mpmc.in_ s) len)); [discriminate|].
    injection Hstep as <- <- <-. open_inv. repeat split; try tauto; try lia.
  - injection Hstep as <- <- <-. open_inv. repeat split; try tauto; try lia.
  - destruct (Mpmc.room s e len) eqn:Hr; injection Hstep as <- <- <-.
    + apply mpmc_room_sound in Hr; [|open_inv; lia..].
      open_inv. repeat split; try tauto; try lia.
    + open_inv. repeat split; try tauto; try lia.
  - destruct (Z.eqb_spec (Mpmc.in_ s) e) as [He|He]; simpl in Hstep;
      [destruct sp; simpl in Hstep|]; injection Hstep as <- <- <-.
    + open_inv. repeat split; try tauto; try lia.
    + open_inv. rewrite add_small by lia.
      repeat split; try tauto; try lia;
        destruct c2 as [b2 l2 p2|b2 l2 p2]; destruct p2; simpl in *; intuition lia.
    + open_inv. repeat split; try tauto; try lia.
  - injection Hstep as <- <- <-. open_inv. repeat split; try tauto; try lia.
  - destruct (Z.eqb_spec (Mpmc.real_in_ s) e) as [He|He]; simpl in Hstep;
      [destruct sp; simpl in Hstep|]; injection Hstep as <- <- <-.
    + open_inv. repeat split; try tauto; try lia.
    + open_inv. rewrite add_small by lia.
      repeat split; try tauto; try lia;
        destruct c2 as [b2 l2 p2|b2 l2 p2]; destruct p2; simpl in *; intuition lia.
    + open_inv. repeat split; try tauto; try lia.
  - discriminate.
Qed.

Lemma get_step_inv (sp : bool) (s s' : Mpmc.ringbuffer_mpmc) (buf buf' : mem) (len : Z)
    (p p' : Mpmc.pc) (ev : Mpmc.event) :
  mpmc_chain s -> mpmc_headroom s ->
  call_ok s (Mpmc.get_call buf len p) ->
  Mpmc.get_step sp s buf len p = Some (s', buf', p', ev) ->
  mpmc_chain s' /\ Mpmc.buf_size_ s' = Mpmc.buf_size_ s /\
  call_ok s' (Mpmc.get_call buf' len p') /\
  forall c2, call_ok s c2 -> apart (Mpmc.get_call buf len p) c2 ->
             call_ok s' c2 /\ apart (Mpmc.get_call buf' len p') c2.
Proof.
  intros Hch Hroom Hok Hstep.
  destruct p as [| |e|e|e|e|]; simpl in Hstep.
  - destruct (Mpmc.enable_cv_ s && negb (Mpmc.avail s (Mpmc.out_ s) len)); [discriminate|].
    injection Hstep as <- <- <- <-. open_inv. repeat split; try tauto; try lia.
  - injection Hstep as <- <- <- <-. open_inv. repeat split; try tauto; try lia.
  - destruct (Mpmc.avail s e len) eqn:Hr; injection Hstep as <- <- <- <-.
    + apply mpmc_avail_sound in Hr; [|open_inv; lia..].
      open_inv. repeat split; try tauto; try lia.
    + open_inv. repeat split; try tauto; try lia.
  - destruct (Z.eqb_spec (Mpmc.out_ s) e) as [He|He]; simpl in Hstep;
      [destruct sp; simpl in Hstep|]; injection Hstep as <- <- <- <-.
    + open_inv. repeat split; try tauto; try lia.
    + open_inv. rewrite add_small by lia.
      repeat split; try tauto; try lia;
        destruct c2 as [b2 l2 p2|b2 l2 p2]; destruct p2; simpl in *; intuition lia.
    + open_inv. repeat split; try tauto; try lia.
  - injection Hstep as <- <- <- <-. open_inv. repeat split; try tauto; try lia.
  - destruct (Z.eqb_spec (Mpmc.real_out_ s) e) as [He|He]; simpl in Hstep;
      [destruct sp; simpl in Hstep|]; injection Hstep as <- <- <- <-.
    + open_inv. repeat split; try tauto; try lia.
    + open_inv. rewrite add_small by lia.
      repeat split; try tauto; try lia;
        destruct c2 as [b2 l2 p2|b2 l2 p2]; destruct p2; simpl in *; intuition lia.
    + open_inv. repeat split; try tauto; try lia.
  - discriminate.
Qed.

Lemma call_step_inv (sp : bool) (s s' : Mpmc.ringbuffer_mpmc) (cl cl' : Mpmc.call) (ev : Mpmc.event) :
  mpmc_chain s -> mpmc_headroom s -> call_ok s cl ->
  Mpmc.call_step sp s cl = Some (s', cl', ev) ->
  mpmc_chain s' /\ Mpmc.buf_size_ s' = Mpmc.buf_size_ s /\ call_ok s' cl' /\
  forall c2, call_ok s c2 -> apart cl c2 -> call_ok s' c2 /\ apart cl' c2.
Proof.
  intros Hch Hroom Hok Hstep. destruct cl as [buf len p | buf len p]; simpl in Hstep.
  - destruct (Mpmc.put_step sp s buf len p) as [[[s1 p1] ev1]|] eqn:E; [|discriminate].
    injection Hstep as <- <- <-. now apply (put_step_inv sp s s1 buf len p p1 ev1).
  - destruct (Mpmc.get_step sp s buf len p) as [[[[s1 b1] p1] ev1]|] eqn:E; [|discriminate].
    injection Hstep as <- <- <-. now apply (get_step_inv sp s s1 buf b1 len p p1 ev1).
Qed.

Lemma sys_step_inv (i : nat) (sp : bool) (c c' : Mpmc.config) :
  mpmc_inv c -> mpmc_headroom (Mpmc.shared c) ->
  Mpmc.sys_step i sp c = Some c' ->
  mpmc_inv c' /\ Mpmc.buf_size_ (Mpmc.shared c') = Mpmc.buf_size_ (Mpmc.shared c).
Proof.
  intros [Hch [Hoks Hapart]] Hroom Hstep. unfold Mpmc.sys_step in Hstep.
  destruct (Mpmc.pool c !! i) as [cl|] eqn:Hi; [|discriminate].
  destruct (Mpmc.call_step sp (Mpmc.shared c) cl) as [[[s1 cl1] ev]|] eqn:E; [|discriminate].
  injection Hstep as <-.
  destruct (call_step_inv sp _ _ _ _ _ Hch Hroom (Hoks i cl Hi) E) as (Hch1 & Hsz & Hok1 & Hothers).
  split; [|exact Hsz]. split; [exact Hch1|]. simpl. split.
  - intros j c2 Hj. apply list_lookup_insert_Some in Hj as [(<- & <- & _)|(Hne & Hj)].
    + exact Hok1.
    + apply (Hothers c2 (Hoks j c2 Hj)). now apply (Hapart i j).
  - intros j k c1 c2 Hjk Hj Hk.
    apply list_lookup_insert_Some in Hj as [(<- & <- & _)|(Hne & Hj)];
      apply list_lookup_insert_Some in Hk as [(<- & <- & _)|(Hne' & Hk)].
    + contradiction.
    + apply (Hothers c2 (Hoks k c2 Hk)). now apply (Hapart i k).
    + apply apart_sym. apply (Hothers c1 (Hoks j c1 Hj)). now apply (Hapart i j).
    + now apply (Hapart j k).
Qed.

Lemma mpmc_inv_start (cap : Z) (cv : bool) (m : mem) (calls : list Mpmc.call) :
  0 <= cap -> Forall (fresh_call cap) calls ->
  mpmc_inv (mpmc_start cap cv m calls).
Proof.
  intros Hcap Hfresh. split; [unfold mpmc_chain; simpl; lia|]. simpl. split.
  - intros i c Hi. pose proof (Forall_lookup_1 _ _ _ _ Hfresh Hi) as [Hpc Hlen].
    split; [exact Hlen|]. destruct c; simpl in *; subst; exact I.
  - intros i j c1 c2 _ Hi Hj.
    pose proof (Forall_lookup_1 _ _ _ _ Hfresh Hi) as [Hpc _].
    unfold apart. destruct c1; simpl in *; subst; exact I.
Qed.

Lemma mpmc_reach_inv (c0 c : Mpmc.config) :
  mpmc_reach c0 c -> mpmc_inv c0 ->
  mpmc_inv c /\ Mpmc.buf_size_ (Mpmc.shared c) = Mpmc.buf_size_ (Mpmc.shared c0).
Proof.
  induction 1 as [|c i sp c' _ IH Hroom Hstep]; intros H0; [auto|].
  destruct (IH H0) as [Hinv Hsz].
  destruct (sys_step_inv i sp c c' Hinv Hroom Hstep) as [Hinv' Hsz'].
  split; [exact Hinv' | congruence].
Qed.

(** A first step, then a run. *)
Lemma mpmc_reach_first (c0 c1 c : Mpmc.config) (i : nat) (sp : bool) :
  mpmc_headroom (Mpmc.shared c0) -> Mpmc.sys_step i sp c0 = Some c1 ->
  mpmc_reach c1 c -> mpmc_reach c0 c.
Proof.
  intros Hroom Hstep Hreach. induction Hreach as [|c i' sp' c' _ IH Hroom' Hstep'].
  - eapply reach_step; [apply reach_here | exact Hroom | exact Hstep].
  - eapply reach_step; [exact IH | exact Hroom' | exact Hstep'].
Qed.

Ltac headroom_now := unfold mpmc_headroom; simpl; rewrite modulus_eq; lia.

Ltac reach_by i sp :=
  eapply (mpmc_reach_first _ _ _ i sp); [headroom_now | vm_compute; reflexivity |].

(** C2, as stated, fails once a cursor wraps: with capacity [2^62], four
    writes and three reads of [2^62] bytes, run to completion one after the
    other, leave [in_ = real_in_ = 0] and [out_ = real_out_ = 3 * 2^62]. *)
Lemma mpmc_chain_wraps :
  let c := 2 ^ 62 in
  let calls := [Mpmc.put_call zeroed c Mpmc.top; Mpmc.get_call zeroed c Mpmc.top;
                Mpmc.put_call zeroed c Mpmc.top; Mpmc.get_call zeroed c Mpmc.top;
                Mpmc.put_call zeroed c Mpmc.top; Mpmc.get_call zeroed c Mpmc.top;
                Mpmc.put_call zeroed c Mpmc.top] in
  let final := Mpmc.run (one_by_one 0 7) (mpmc_start c false zeroed calls) in
  power_of_two c /\ Forall (fresh_call c) calls /\
  map Mpmc.call_pc (Mpmc.pool final) = repeat Mpmc.returned 7 /\
  Mpmc.in_ (Mpmc.shared final) = 0 /\ Mpmc.real_in_ (Mpmc.shared final) = 0 /\
  Mpmc.out_ (Mpmc.shared final) = 3 * 2 ^ 62 /\
  Mpmc.real_out_ (Mpmc.shared final) = 3 * 2 ^ 62 /\
  ~ mpmc_chain (Mpmc.shared final).
Proof.
  intros c calls final.
  assert (Hin : Mpmc.real_in_ (Mpmc.shared final) = 0) by (vm_compute; reflexivity).
  assert (Hout : Mpmc.out_ (Mpmc.shared final) = 3 * 2 ^ 62) by (vm_compute; reflexivity).
  split; [exists 62; split; [lia | reflexivity]|].
  split; [repeat constructor; simpl; lia|].
  split; [vm_compute; reflexivity|].
  split; [vm_compute; reflexivity|].
  split; [exact Hin|]. split; [exact Hout|].
  split; [vm_compute; reflexivity|].
  intros (_ & _ & H & _). rewrite Hin, Hout in H. lia.
Qed.

(** C2 (amended): in the MPMC buffer with power-of-two capacity, the chain
    [real_out_ <= out_ <= real_in_ <= in_ <= real_out_ + buf_size_] holds in
    the initial all-zero state and after every step of any interleaving of
    calls of [write] and [read] of length at most the capacity -- every
    reservation, every commit and every step between them -- as long as each
    step is taken where [in_ + buf_size_ < 2^64]. *)
Theorem mpmc_cursor_chain (cap : Z) (cv : bool) (m : mem) (calls : list Mpmc.call)
    (c : Mpmc.config) :
  power_of_two cap -> Forall (fresh_call cap) calls ->
  mpmc_reach (mpmc_start cap cv m calls) c ->
  let s := Mpmc.shared c in
  Mpmc.real_out_ s <= Mpmc.out_ s /\ Mpmc.out_ s <= Mpmc.real_in_ s /\
  Mpmc.real_in_ s <= Mpmc.in_ s /\ Mpmc.in_ s <= Mpmc.real_out_ s + Mpmc.buf_size_ s /\
  Mpmc.buf_size_ s = cap /\
  Mpmc.get_total_out s <= Mpmc.get_total_in s <= Mpmc.get_total_out s + cap.
Proof.
  intros Hc Hfresh Hreach s.
  pose proof (power_of_two_bounds _ Hc) as Hb.
  destruct (mpmc_reach_inv _ _ Hreach) as [[(C0 & C1 & C2 & C3 & C4) _] Hsz].
  { apply mpmc_inv_start; [lia | exact Hfresh]. }
  simpl in Hsz. fold s in C0, C1, C2, C3, C4, Hsz.
  unfold Mpmc.get_total_in, Mpmc.get_total_out. lia.
Qed.

Lemma mpmc_cursor_chain_witness :
  let calls := [Mpmc.put_call (fill "A") 6 Mpmc.top; Mpmc.put_call (fill "B") 4 Mpmc.top;
                Mpmc.get_call zeroed 6 Mpmc.top] in
  exists c,
    mpmc_reach (mpmc_start 16 false zeroed calls) c /\
    (Mpmc.real_out_ (Mpmc.shared c) = 0 /\ Mpmc.out_ (Mpmc.shared c) = 6 /\
     Mpmc.real_in_ (Mpmc.shared c) = 10 /\ Mpmc.in_ (Mpmc.shared c) = 10) /\
    let s := Mpmc.shared c in
    Mpmc.real_out_ s <= Mpmc.out_ s /\ Mpmc.out_ s <= Mpmc.real_in_ s /\
    Mpmc.real_in_ s <= Mpmc.in_ s /\ Mpmc.in_ s <= Mpmc.real_out_ s + Mpmc.buf_size_ s /\
    Mpmc.buf_size_ s = 16 /\
    Mpmc.get_total_out s <= Mpmc.get_total_in s <= Mpmc.get_total_out s + 16.
Proof.
  intros calls.
  assert (R : exists c, mpmc_reach (mpmc_start 16 false zeroed calls) c /\
    (Mpmc.real_out_ (Mpmc.shared c) = 0 /\ Mpmc.out_ (Mpmc.shared c) = 6 /\
     Mpmc.real_in_ (Mpmc.shared c) = 10 /\ Mpmc.in_ (Mpmc.shared c) = 10)).
  { eexists. split.
    - do 4 reach_by 0%nat false. do 5 reach_by 1%nat false.
      reach_by 1%nat false. do 2 reach_by 0%nat false.
      reach_by 1%nat false. do 4 reach_by 2%nat false. apply reach_here.
    - vm_compute. repeat split; reflexivity. }
  destruct R as (c & Hreach & Hcur). exists c.
  split; [exact Hreach|]. split; [exact Hcur|].
  apply (mpmc_cursor_chain 16 false zeroed calls c).
  - exists 4. split; [lia | reflexivity].
  - repeat constructor; simpl; lia.
  - exact Hreach.
Defined.

(** ** C6: commits follow the reservations *)

Lemma tiles_bounds (rs : list (Z * Z)) (top : Z) :
  tiles rs top ->
  0 <= top /\ forall r, In r rs -> 0 <= fst r /\ 0 <= snd r /\ fst r + snd r <= top.
Proof.
  revert top. induction rs as [|[e len] rs IH]; simpl; intros top H.
  - split; [lia|]. intros r [].
  - destruct H as (Hlen & Htop & Hrest).
    destruct (IH e Hrest) as [He Hall].
    split; [lia|]. intros r [<-|Hr]; simpl; [lia|].
    destruct (Hall r Hr) as (? & ? & ?). lia.
Qed.

Lemma below_mono (b b' : Z) (rs : list (Z * Z)) (top : Z) :
  tiles rs top -> top <= b -> top <= b' ->
  List.filter (below b) rs = List.filter (below b') rs.
Proof.
  intros Ht Hb Hb'. destruct (tiles_bounds rs top Ht) as [_ Hall].
  apply filter_ext_in. intros r Hr. destruct (Hall r Hr) as (_ & _ & Hend).
  unfold below. f_equal.
  destruct (Z.leb_spec (fst r + snd r) b), (Z.leb_spec (fst r + snd r) b'); auto; lia.
Qed.

Lemma below_all (b : Z) (rs : list (Z * Z)) (top : Z) :
  tiles rs top -> top <= b -> List.filter (below b) rs = List.filter nonempty rs.
Proof.
  intros Ht Hb. destruct (tiles_bounds rs top Ht) as [_ Hall].
  apply filter_ext_in. intros r Hr. destruct (Hall r Hr) as (_ & _ & Hend).
  unfold below. destruct (Z.leb_spec (fst r + snd r) b); [|lia].
  apply andb_true_r.
Qed.

(** Committing the range [(e, len)] moves exactly that range below the
    committed cursor. *)
Lemma below_commit (rs : list (Z * Z)) (top e len : Z) :
  tiles rs top -> In (e, len) rs -> 0 < len ->
  List.filter (below (e + len)) rs = (e, len) :: List.filter (below e) rs.
Proof.
  revert top. induction rs as [|[a l] rs IH]; simpl; intros top Ht Hin Hlen; [contradiction|].
  destruct Ht as (Hl & Htop & Hrest).
  destruct (tiles_bounds rs a Hrest) as [Ha Hall].
  destruct Hin as [Heq|Hin].
  - injection Heq as -> ->.
    assert (H1 : below (e + len) (e, len) = true).
    { unfold below, nonempty. simpl. apply andb_true_iff. split; [apply Z.ltb_lt | apply Z.leb_le]; lia. }
    assert (H2 : below e (e, len) = false).
    { unfold below, nonempty. simpl. apply andb_false_iff. right. apply Z.leb_gt. lia. }
    rewrite H1, H2. f_equal. apply (below_mono _ _ rs e); auto; lia.
  - destruct (Hall _ Hin) as (_ & _ & Hend). simpl in Hend.
    assert (H1 : below (e + len) (a, l) = false).
    { unfold below, nonempty. simpl. destruct (Z.ltb_spec 0 l); [|reflexivity].
      simpl. apply Z.leb_gt. lia. }
    assert (H2 : below e (a, l) = false).
    { unfold below, nonempty. simpl. destruct (Z.ltb_spec 0 l); [|reflexivity].
      simpl. apply Z.leb_gt. lia. }
    rewrite H1, H2. now apply (IH a).
Qed.



Lemma call_step_shape (sp : bool) (s s' : Mpmc.ringbuffer_mpmc) (cl cl' : Mpmc.call) (ev : Mpmc.event) :
  mpmc_chain s -> mpmc_headroom s -> call_ok s cl ->
  Mpmc.call_step sp s cl = Some (s', cl', ev) ->
  step_shape s s' cl cl' ev.
Proof.
  intros Hch Hroom Hok Hstep. destruct cl as [buf len p | buf len p]; simpl in Hstep.
  - destruct p as [| |e|e|e|e|]; simpl in Hstep.
    + destruct (Mpmc.enable_cv_ s && negb (Mpmc.room s (Mpmc.in_ s) len)); [discriminate|].
      injection Hstep as <- <- <-. apply shape_quiet; auto.
    + injection Hstep as <- <- <-. apply shape_quiet; auto.
    + destruct (Mpmc.room s e len); injection Hstep as <- <- <-; apply shape_quiet; auto.
    + destruct (Z.eqb_spec (Mpmc.in_ s) e) as [He|He]; simpl in Hstep;
        [destruct sp; simpl in Hstep|]; injection Hstep as <- <- <-;
        try (apply shape_quiet; auto; fail).
      eapply shape_reserve_in; try reflexivity; auto.
      simpl. apply add_small. open_inv. lia.
    + injection Hstep as <- <- <-. apply shape_quiet; auto.
    + destruct (Z.eqb_spec (Mpmc.real_in_ s) e) as [He|He]; simpl in Hstep;
        [destruct sp; simpl in Hstep|]; injection Hstep as <- <- <-;
        try (apply shape_quiet; auto; fail).
      eapply shape_commit_in; try reflexivity; auto.
      simpl. apply add_small. open_inv. lia.
    + discriminate.
  - destruct p as [| |e|e|e|e|]; simpl in Hstep.
    + destruct (Mpmc.enable_cv_ s && negb (Mpmc.avail s (Mpmc.out_ s) len)); [discriminate|].
      injection Hstep as <- <- <-. apply shape_quiet; auto.
    + injection Hstep as <- <- <-. apply shape_quiet; auto.
    + destruct (Mpmc.avail s e len); injection Hstep as <- <- <-; apply shape_quiet; auto.
    + destruct (Z.eqb_spec (Mpmc.out_ s) e) as [He|He]; simpl in Hstep;
        [destruct sp; simpl in Hstep|]; injection Hstep as <- <- <-;
        try (apply shape_quiet; auto; fail).
      eapply shape_reserve_out; try reflexivity; auto.
      simpl. apply add_small. open_inv. lia.
    + injection Hstep as <- <- <-. apply shape_quiet; auto.
    + destruct (Z.eqb_spec (Mpmc.real_out_ s) e) as [He|He]; simpl in Hstep;
        [destruct sp; simpl in Hstep|]; injection Hstep as <- <- <-;
        try (apply shape_quiet; auto; fail).
      eapply shape_commit_out; try reflexivity; auto.
      simpl. apply add_small. open_inv. lia.
    + discriminate.
Qed.

Lemma claim_logged_record (ev : Mpmc.event) (h : list Mpmc.event) (cl : Mpmc.call) :
  claim_logged h cl -> claim_logged (Mpmc.record ev h) cl.
Proof.
  unfold claim_logged. destruct (claim cl) as [[[[|] e] len]|]; auto;
    destruct ev; simpl; auto.
Qed.

Lemma side_inv_reserve (rs cs : list (Z * Z)) (reserved committed len : Z) :
  side_inv rs cs reserved committed -> 0 <= len -> committed <= reserved ->
  side_inv ((reserved, len) :: rs) cs (reserved + len) committed.
Proof.
  intros (Hr & Hc & Heq) Hlen Hle. split; [|split]; [simpl; auto|exact Hc|].
  simpl. assert (H : below committed (reserved, len) = false).
  { unfold below, nonempty. simpl. destruct (Z.ltb_spec 0 len); [|reflexivity].
    simpl. apply Z.leb_gt. lia. }
  now rewrite H.
Qed.

Lemma side_inv_commit (rs cs : list (Z * Z)) (reserved committed len : Z) :
  side_inv rs cs reserved committed -> 0 <= len -> In (committed, len) rs ->
  side_inv rs ((committed, len) :: cs) reserved (committed + len).
Proof.
  intros (Hr & Hc & Heq) Hlen Hin. split; [exact Hr|]. split; [simpl; auto|].
  simpl. unfold nonempty at 1. simpl.
  destruct (Z.ltb_spec 0 len).
  - rewrite (below_commit rs reserved committed len Hr Hin) by lia. now f_equal.
  - replace (committed + len) with committed by lia. exact Heq.
Qed.

Lemma sys_step_log_inv (i : nat) (sp : bool) (c c' : Mpmc.config) :
  mpmc_inv c -> log_inv c -> mpmc_headroom (Mpmc.shared c) ->
  Mpmc.sys_step i sp c = Some c' -> log_inv c'.
Proof.
  intros [Hch [Hoks _]] (Hin & Hout & Hcl) Hroom Hstep. unfold Mpmc.sys_step in Hstep.
  destruct (Mpmc.pool c !! i) as [cl|] eqn:Hi; [|discriminate].
  destruct (Mpmc.call_step sp (Mpmc.shared c) cl) as [[[s1 cl1] ev]|] eqn:E; [|discriminate].
  injection Hstep as <-.
  pose proof (Hoks i cl Hi) as [Hlen Hok].
  pose proof (Hcl i cl Hi) as Hlogged.
  assert (Hothers : forall j c2 h', h' = Mpmc.record ev (Mpmc.history c) ->
            claim_logged h' cl1 ->
            <[i:=cl1]> (Mpmc.pool c) !! j = Some c2 -> claim_logged h' c2).
  { intros j c2 h' -> Hown Hj.
    apply list_lookup_insert_Some in Hj as [(<- & <- & _)|(Hne & Hj)]; [exact Hown|].
    apply claim_logged_record. now apply (Hcl j). }
  destruct Hch as (C0 & C1 & C2 & C3 & C4).
  destruct (call_step_shape sp _ _ _ _ _ (conj C0 (conj C1 (conj C2 (conj C3 C4)))) Hroom (conj Hlen Hok) E)
    as [Q1 Q2 Q3 Q4 Hclaim
       | buf len e Ecl Ecl1 He Q1 Q2 Q3 Q4
       | buf len e Ecl Ecl1 He Q1 Q2 Q3 Q4
       | buf buf' len e Ecl Ecl1 He Q1 Q2 Q3 Q4
       | buf buf' len e Ecl Ecl1 He Q1 Q2 Q3 Q4];
    try subst cl; try subst cl1;
    unfold log_inv; simpl; simpl in Hlen, Hok, Hlogged.
  - rewrite Q1, Q2, Q3, Q4. split; [exact Hin|]. split; [exact Hout|].
    intros j c2 Hj. apply (Hothers j c2 _ eq_refl); [|exact Hj].
    unfold claim_logged in *. simpl. destruct Hclaim as [-> | ->]; auto.
  - rewrite Q1, Q2, Q3, Q4. split; [|split; [exact Hout|]].
    + rewrite <- He. apply side_inv_reserve; auto; lia.
    + intros j c2 Hj. apply (Hothers j c2 _ eq_refl); [|exact Hj].
      unfold claim_logged. simpl. now left.
  - rewrite Q1, Q2, Q3, Q4. split; [|split; [exact Hout|]].
    + rewrite <- He. apply side_inv_commit; auto; [lia|].
      unfold claim_logged in Hlogged. simpl in Hlogged. now rewrite He.
    + intros j c2 Hj. apply (Hothers j c2 _ eq_refl); [|exact Hj]. exact I.
  - rewrite Q1, Q2, Q3, Q4. split; [exact Hin|]. split.
    + rewrite <- He. apply side_inv_reserve; auto; lia.
    + intros j c2 Hj. apply (Hothers j c2 _ eq_refl); [|exact Hj].
      unfold claim_logged. simpl. now left.
  - rewrite Q1, Q2, Q3, Q4. split; [exact Hin|]. split.
    + rewrite <- He. apply side_inv_commit; auto; [lia|].
      unfold claim_logged in Hlogged. simpl in Hlogged. now rewrite He.
    + intros j c2 Hj. apply (Hothers j c2 _ eq_refl); [|exact Hj]. exact I.
Qed.

Lemma log_inv_start (cap : Z) (cv : bool) (m : mem) (calls : list Mpmc.call) :
  Forall (fresh_call cap) calls -> log_inv (mpmc_start cap cv m calls).
Proof.
  intros Hfresh. unfold log_inv, side_inv. simpl.
  split; [repeat split|]. split; [repeat split|].
  intros i cl Hi. pose proof (Forall_lookup_1 _ _ _ _ Hfresh Hi) as [Hpc _].
  unfold claim_logged. destruct cl; simpl in *; subst; exact I.
Qed.

Lemma mpmc_reach_log_inv (c0 c : Mpmc.config) :
  mpmc_reach c0 c -> mpmc_inv c0 -> log_inv c0 -> log_inv c.
Proof.
  induction 1 as [|c i sp c' Hreach IH Hroom Hstep]; intros H0 L0; [auto|].
  destruct (mpmc_reach_inv _ _ Hreach H0) as [Hinv _].
  now apply (sys_step_log_inv i sp c c' Hinv (IH H0 L0) Hroom).
Qed.







(** * Further properties *)

(** ** The index mask *)

Lemma land_pred_zero (c : Z) :
  0 < c -> Z.land c (c - 1) = 0 -> c = 2 ^ Z.log2 c.
Proof.
  intros Hc Hland.
  destruct (Z.log2_spec c Hc) as [Hlo Hhi].
  pose proof (Z.log2_nonneg c) as Hk.
  destruct (Z.eq_dec c (2 ^ Z.log2 c)) as [|Hne]; [assumption|exfalso].
  assert (Hlog : Z.log2 (c - 1) = Z.log2 c).
  { apply Z.log2_unique; [exact Hk|]. replace (Z.succ (Z.log2 c)) with (Z.log2 c + 1) in Hhi by lia.
    lia. }
  assert (B1 : Z.testbit c (Z.log2 c) = true) by (now apply Z.bit_log2).
  assert (B2 : Z.testbit (c - 1) (Z.log2 c) = true).
  { rewrite <- Hlog. apply Z.bit_log2. lia. }
  assert (B : Z.testbit (Z.land c (c - 1)) (Z.log2 c) = true)
    by (rewrite Z.land_spec, B1, B2; reflexivity).
  rewrite Hland, Z.bits_0 in B. discriminate.
Qed.

(** X1: [x & (buf_size_ - 1)] is the offset [x mod buf_size_] at every cursor
    position exactly when the capacity is a power of two. *)
Theorem mask_is_offset_iff_power_of_two (s : Spsc.ringbuffer_spsc) :
  0 < Spsc.buf_size_ s < U64.modulus ->
  (forall x, 0 <= x -> Spsc.mask s x = x mod Spsc.buf_size_ s) <->
  power_of_two (Spsc.buf_size_ s).
Proof.
  intros Hc. split.
  - intros H. specialize (H (Spsc.buf_size_ s) ltac:(lia)).
    unfold Spsc.mask in H. rewrite Z_mod_same_full, sub_small in H by lia.
    pose proof (land_pred_zero _ (proj1 Hc) H) as E.
    exists (Z.log2 (Spsc.buf_size_ s)). split; [|exact E].
    split; [apply Z.log2_nonneg|].
    apply (Z.pow_lt_mono_r_iff 2); [lia | lia |].
    rewrite <- E. apply Hc.
  - intros Hp x _. unfold Spsc.mask. now apply land_mask.
Qed.

Lemma mask_is_offset_iff_power_of_two_witness :
  (forall x, 0 <= x -> Spsc.mask (spsc_init 16 false zeroed) x = x mod 16) <->
  power_of_two 16.
Proof.
  apply (mask_is_offset_iff_power_of_two (spsc_init 16 false zeroed)).
  simpl. rewrite modulus_eq. lia.
Defined.

Lemma wrap_mod_power_of_two (cap x : Z) :
  power_of_two cap -> U64.wrap x mod cap = x mod cap.
Proof.
  intros Hc. pose proof (power_of_two_bounds _ Hc) as Hb.
  destruct Hc as (k & Hk & ->). unfold U64.wrap.
  apply Z.mod_mod_divide.
  exists (2 ^ (64 - k)). unfold U64.modulus.
  rewrite <- Z.pow_add_r by lia. f_equal. lia.
Qed.

(** X2: The storage offset follows the cursor across the wrap at [2^64]: after
    a [put] or a [get] of [len] bytes the offset is the old offset plus
    [len], modulo the capacity, whether or not the 64-bit cursor wrapped. *)
Theorem offset_follows_cursor (s : Spsc.ringbuffer_spsc) (t : Mpmc.ringbuffer_mpmc)
    (buf : mem) (len : Z) :
  power_of_two (Spsc.buf_size_ s) -> power_of_two (Mpmc.buf_size_ t) ->
  let s1 := Spsc.put s buf len in
  let s2 := fst (Spsc.get s buf len) in
  Spsc.mask s1 (Spsc.in_ s1) = (Spsc.mask s (Spsc.in_ s) + len) mod Spsc.buf_size_ s /\
  Spsc.mask s2 (Spsc.out_ s2) = (Spsc.mask s (Spsc.out_ s) + len) mod Spsc.buf_size_ s /\
  Mpmc.mask t (U64.add (Mpmc.in_ t) len) = (Mpmc.mask t (Mpmc.in_ t) + len) mod Mpmc.buf_size_ t /\
  Mpmc.mask t (U64.add (Mpmc.out_ t) len) = (Mpmc.mask t (Mpmc.out_ t) + len) mod Mpmc.buf_size_ t.
Proof.
  intros Hs Ht s1 s2. unfold Spsc.mask, Mpmc.mask, s1, s2. simpl.
  rewrite !land_mask by assumption. unfold U64.add.
  rewrite !wrap_mod_power_of_two by assumption.
  rewrite !Zplus_mod_idemp_l. auto.
Qed.

Lemma offset_follows_cursor_witness :
  let s := Spsc.mk zeroed 16 false (2 ^ 64 - 4) (2 ^ 64 - 4) in
  let t := Mpmc.mk zeroed 16 false (2 ^ 64 - 4) (2 ^ 64 - 4) (2 ^ 64 - 4) (2 ^ 64 - 4) in
  let s1 := Spsc.put s zeroed 8 in
  let s2 := fst (Spsc.get s zeroed 8) in
  Spsc.mask s1 (Spsc.in_ s1) = (Spsc.mask s (Spsc.in_ s) + 8) mod Spsc.buf_size_ s /\
  Spsc.mask s2 (Spsc.out_ s2) = (Spsc.mask s (Spsc.out_ s) + 8) mod Spsc.buf_size_ s /\
  Mpmc.mask t (U64.add (Mpmc.in_ t) 8) = (Mpmc.mask t (Mpmc.in_ t) + 8) mod Mpmc.buf_size_ t /\
  Mpmc.mask t (U64.add (Mpmc.out_ t) 8) = (Mpmc.mask t (Mpmc.out_ t) + 8) mod Mpmc.buf_size_ t.
Proof.
  intros s t.
  apply (offset_follows_cursor s t zeroed 8);
    exists 4; split; [lia | reflexivity | lia | reflexivity].
Defined.

(** ** The copies stay inside the storage and inside the caller's [len] bytes *)

Lemma land_le (x y : Z) : 0 <= y -> 0 <= Z.land x y <= y.
Proof.
  intros Hy. split; [apply Z.land_nonneg; now right|].
  assert (E : Z.land x y + Z.ldiff y x = y).
  { rewrite Z.add_nocarry_lor.
    - apply Z.bits_inj'. intros n Hn.
      rewrite Z.lor_spec, Z.land_spec, Z.ldiff_spec.
      destruct (Z.testbit x n), (Z.testbit y n); reflexivity.
    - apply Z.bits_inj'. intros n Hn.
      rewrite !Z.land_spec, Z.ldiff_spec, Z.bits_0.
      destruct (Z.testbit x n), (Z.testbit y n); reflexivity. }
  assert (0 <= Z.ldiff y x) by (apply Z.ldiff_nonneg; now left). lia.
Qed.

(** The offset and the two lengths the copies use, for any capacity and any
    cursor. *)
Lemma copy_offsets (cap x len : Z) :
  0 < cap < U64.modulus -> 0 <= len <= cap ->
  let o := Z.land x (U64.sub cap 1) in
  let l := Z.min len (U64.sub cap o) in
  0 <= o < cap /\ 0 <= l <= len /\ o + l <= cap /\ U64.sub len l = len - l.
Proof.
  intros Hc Hl o l. subst l o. rewrite (sub_small cap 1) by lia.
  pose proof (land_le x (cap - 1) ltac:(lia)) as Ho.
  rewrite (sub_small cap) by lia. rewrite sub_small by lia. lia.
Qed.

Lemma two_memcpy_store_bounds (cap x len : Z) (m buf buf2 : mem) (j : Z) :
  0 < cap < U64.modulus -> 0 <= len <= cap ->
  let o := Z.land x (U64.sub cap 1) in
  let l := Z.min len (U64.sub cap o) in
  (~ 0 <= j < cap -> memcpy (memcpy m o buf 0 l) 0 buf l (U64.sub len l) j = m j) /\
  (same_bytes len buf buf2 ->
   memcpy (memcpy m o buf 0 l) 0 buf l (U64.sub len l) j =
   memcpy (memcpy m o buf2 0 l) 0 buf2 l (U64.sub len l) j).
Proof.
  intros Hc Hl o l.
  pose proof (copy_offsets cap x len Hc Hl) as H. cbv zeta in H.
  fold o in H. fold l in H. destruct H as (Ho & Hl' & Hol & Hsub).
  rewrite Hsub. unfold memcpy. split.
  - intros Hj.
    destruct (Z.leb_spec 0 j), (Z.ltb_spec j (0 + (len - l))); simpl; try lia;
      destruct (Z.leb_spec o j), (Z.ltb_spec j (o + l)); simpl; try lia; reflexivity.
  - intros Hsame.
    destruct (Z.leb_spec 0 j), (Z.ltb_spec j (0 + (len - l))); simpl;
      try (apply Hsame; lia);
      destruct (Z.leb_spec o j), (Z.ltb_spec j (o + l)); simpl;
      try reflexivity; apply Hsame; lia.
Qed.

Lemma two_memcpy_load_bounds (cap x len : Z) (m m2 dst : mem) (i : Z) :
  0 < cap < U64.modulus -> 0 <= len <= cap ->
  let o := Z.land x (U64.sub cap 1) in
  let l := Z.min len (U64.sub cap o) in
  (~ 0 <= i < len -> memcpy (memcpy dst 0 m o l) l m 0 (U64.sub len l) i = dst i) /\
  ((forall j, 0 <= j < cap -> m j = m2 j) ->
   memcpy (memcpy dst 0 m o l) l m 0 (U64.sub len l) i =
   memcpy (memcpy dst 0 m2 o l) l m2 0 (U64.sub len l) i).
Proof.
  intros Hc Hl o l.
  pose proof (copy_offsets cap x len Hc Hl) as H. cbv zeta in H.
  fold o in H. fold l in H. destruct H as (Ho & Hl' & Hol & Hsub).
  rewrite Hsub. unfold memcpy. split.
  - intros Hi.
    destruct (Z.leb_spec l i), (Z.ltb_spec i (l + (len - l))); simpl; try lia;
      destruct (Z.leb_spec 0 i), (Z.ltb_spec i (0 + l)); simpl; try lia; reflexivity.
  - intros Hsame.
    destruct (Z.leb_spec l i), (Z.ltb_spec i (l + (len - l))); simpl;
      try (apply Hsame; lia);
      destruct (Z.leb_spec 0 i), (Z.ltb_spec i (0 + l)); simpl;
      try reflexivity; apply Hsame; lia.
Qed.

(** X3: Whatever the capacity -- a power of two or not -- and wherever the
    cursor stands, for [len <= capacity]: the two [memcpy] calls of [put]
    change no byte outside the [buf_size_] bytes of the storage, and read
    nothing of the caller's buffer beyond its first [len] bytes.  The same
    holds of the copy of [ringbuffer_mpmc::put]. *)
Theorem put_stays_in_bounds (s : Spsc.ringbuffer_spsc) (t : Mpmc.ringbuffer_mpmc)
    (e : Z) (buf buf2 : mem) (len : Z) :
  0 < Spsc.buf_size_ s < U64.modulus -> 0 < Mpmc.buf_size_ t < U64.modulus ->
  0 <= len <= Spsc.buf_size_ s -> 0 <= len <= Mpmc.buf_size_ t ->
  same_bytes len buf buf2 ->
  (forall j, ~ 0 <= j < Spsc.buf_size_ s ->
             Spsc.buffer_ (Spsc.put s buf len) j = Spsc.buffer_ s j) /\
  (forall j, Spsc.buffer_ (Spsc.put s buf len) j = Spsc.buffer_ (Spsc.put s buf2 len) j) /\
  (forall j, ~ 0 <= j < Mpmc.buf_size_ t ->
             Mpmc.copy_in t e buf len j = Mpmc.buffer_ t j) /\
  (forall j, Mpmc.copy_in t e buf len j = Mpmc.copy_in t e buf2 len j).
Proof.
  intros Hs Ht Hls Hlt Hsame.
  split; [|split; [|split]]; intros j; unfold Spsc.put, Spsc.mask, Mpmc.copy_in, Mpmc.mask;
    simpl.
  - apply (two_memcpy_store_bounds _ _ _ _ buf buf2 j Hs Hls).
  - now apply (two_memcpy_store_bounds _ _ _ _ buf buf2 j Hs Hls).
  - apply (two_memcpy_store_bounds _ _ _ _ buf buf2 j Ht Hlt).
  - now apply (two_memcpy_store_bounds _ _ _ _ buf buf2 j Ht Hlt).
Qed.

Lemma put_stays_in_bounds_witness :
  let s := Spsc.mk zeroed 12 false 9 4 in
  let t := Mpmc.mk zeroed 12 false 9 9 4 4 in
  let buf := region_of (list_byte_of_string "ABCDEFGH") in
  let buf2 := region_of (list_byte_of_string "ABCDEFGHIJ") in
  (forall j, ~ 0 <= j < Spsc.buf_size_ s ->
             Spsc.buffer_ (Spsc.put s buf 8) j = Spsc.buffer_ s j) /\
  (forall j, Spsc.buffer_ (Spsc.put s buf 8) j = Spsc.buffer_ (Spsc.put s buf2 8) j) /\
  (forall j, ~ 0 <= j < Mpmc.buf_size_ t ->
             Mpmc.copy_in t 9 buf 8 j = Mpmc.buffer_ t j) /\
  (forall j, Mpmc.copy_in t 9 buf 8 j = Mpmc.copy_in t 9 buf2 8 j).
Proof.
  intros s t buf buf2.
  apply (put_stays_in_bounds s t 9 buf buf2 8).
  - simpl. rewrite modulus_eq. lia.
  - simpl. rewrite modulus_eq. lia.
  - simpl. lia.
  - simpl. lia.
  - intros i Hi.
    assert (E : i = 0 \/ i = 1 \/ i = 2 \/ i = 3 \/ i = 4 \/ i = 5 \/ i = 6 \/ i = 7) by lia.
    destruct E as [->|[->|[->|[->|[->|[->|[->| ->]]]]]]]; reflexivity.
Defined.

(** X4: Whatever the capacity and wherever the cursor stands, for
    [len <= capacity]: the two [memcpy] calls of [get] change nothing of the
    caller's region beyond its first [len] bytes, and what they copy depends
    on no byte outside the [buf_size_] bytes of the storage.  The same holds
    of the copy of [ringbuffer_mpmc::get]. *)
Theorem get_stays_in_bounds (s : Spsc.ringbuffer_spsc) (t : Mpmc.ringbuffer_mpmc)
    (e : Z) (dst other : mem) (len : Z) :
  0 < Spsc.buf_size_ s < U64.modulus -> 0 < Mpmc.buf_size_ t < U64.modulus ->
  0 <= len <= Spsc.buf_size_ s -> 0 <= len <= Mpmc.buf_size_ t ->
  (forall j, 0 <= j < Spsc.buf_size_ s -> Spsc.buffer_ s j = other j) ->
  (forall j, 0 <= j < Mpmc.buf_size_ t -> Mpmc.buffer_ t j = other j) ->
  (forall i, ~ 0 <= i < len -> snd (Spsc.get s dst len) i = dst i) /\
  (forall i, snd (Spsc.get s dst len) i =
             snd (Spsc.get (Spsc.mk other (Spsc.buf_size_ s) (Spsc.enable_cv_ s)
                              (Spsc.in_ s) (Spsc.out_ s)) dst len) i) /\
  (forall i, ~ 0 <= i < len -> Mpmc.copy_out t e dst len i = dst i) /\
  (forall i, Mpmc.copy_out t e dst len i =
             Mpmc.copy_out (Mpmc.set_buffer t other) e dst len i).
Proof.
  intros Hs Ht Hls Hlt Hos Hot.
  split; [|split; [|split]]; intros i; unfold Spsc.get, Spsc.mask, Mpmc.copy_out, Mpmc.mask;
    simpl.
  - apply (two_memcpy_load_bounds _ _ _ _ other dst i Hs Hls).
  - now apply (two_memcpy_load_bounds _ _ _ _ other dst i Hs Hls).
  - apply (two_memcpy_load_bounds _ _ _ _ other dst i Ht Hlt).
  - now apply (two_memcpy_load_bounds _ _ _ _ other dst i Ht Hlt).
Qed.

Lemma get_stays_in_bounds_witness :
  let s := Spsc.mk zeroed 12 false 9 4 in
  let t := Mpmc.mk zeroed 12 false 9 9 4 4 in
  let other := fun j => if (0 <=? j) && (j <? 12) then x00 else xff in
  let dst := fill "Z" in
  (forall i, ~ 0 <= i < 8 -> snd (Spsc.get s dst 8) i = dst i) /\
  (forall i, snd (Spsc.get s dst 8) i =
             snd (Spsc.get (Spsc.mk other (Spsc.buf_size_ s) (Spsc.enable_cv_ s)
                              (Spsc.in_ s) (Spsc.out_ s)) dst 8) i) /\
  (forall i, ~ 0 <= i < 8 -> Mpmc.copy_out t 4 dst 8 i = dst i) /\
  (forall i, Mpmc.copy_out t 4 dst 8 i =
             Mpmc.copy_out (Mpmc.set_buffer t other) 4 dst 8 i).
Proof.
  intros s t other dst.
  apply (get_stays_in_bounds s t 4 dst other 8).
  - simpl. rewrite modulus_eq. lia.
  - simpl. rewrite modulus_eq. lia.
  - simpl. lia.
  - simpl. lia.
  - intros j Hj. unfold other. simpl in Hj.
    destruct (Z.leb_spec 0 j), (Z.ltb_spec j 12); simpl; try reflexivity; lia.
  - intros j Hj. unfold other. simpl in Hj.
    destruct (Z.leb_spec 0 j), (Z.ltb_spec j 12); simpl; try reflexivity; lia.
Defined.

(** ** One call at a time: the MPMC buffer is the SPSC buffer *)

Lemma mpmc_read_waits_for_commit (t : Mpmc.ringbuffer_mpmc) (buf : mem) (len : Z) (fuel : nat) :
  Mpmc.real_out_ t <> Mpmc.out_ t -> Mpmc.read fuel t buf len = Blocked.
Proof.
  intros Hne. destruct (Mpmc.read fuel t buf len) as [[t' r]| |d] eqn:E.
  - apply mpmc_read_alone in E as (_ & Heq & _). contradiction.
  - reflexivity.
  - unfold Mpmc.read in E.
    destruct (Mpmc.get_alone fuel t buf len Mpmc.top) as [[t1 b1] p1].
    destruct p1; discriminate.
Qed.

(** X5: A call of [put] or [get] run alone returns at its sixth step or never:
    more steps change nothing, fewer do not reach the return. *)
Theorem mpmc_alone_six_steps (t : Mpmc.ringbuffer_mpmc) (buf : mem) (len : Z) (fuel : nat) :
  Mpmc.write fuel t buf len =
    (if (6 <=? fuel)%nat then Mpmc.write 6 t buf len else Blocked) /\
  Mpmc.read fuel t buf len =
    (if (6 <=? fuel)%nat then Mpmc.read 6 t buf len else Blocked).
Proof.
  split.
  - destruct (Mpmc.room t (Mpmc.in_ t) len) eqn:Hroom.
    + destruct (Z.eq_dec (Mpmc.real_in_ t) (Mpmc.in_ t)) as [Heq|Hne].
      * destruct (Nat.leb_spec 6 fuel) as [Hf|Hf].
        -- rewrite !mpmc_write_alone_returns by (auto; lia). reflexivity.
        -- unfold Mpmc.write.
           destruct fuel as [|[|[|[|[|[|fuel]]]]]]; try lia;
             repeat (progress (simpl; rewrite ?Hroom, ?andb_false_r, ?Heq, ?Z.eqb_refl));
             reflexivity.
      * rewrite !mpmc_write_waits_for_commit by assumption. now destruct (6 <=? fuel)%nat.
    + rewrite !mpmc_write_no_room by assumption. now destruct (6 <=? fuel)%nat.
  - destruct (Mpmc.avail t (Mpmc.out_ t) len) eqn:Havail.
    + destruct (Z.eq_dec (Mpmc.real_out_ t) (Mpmc.out_ t)) as [Heq|Hne].
      * destruct (Nat.leb_spec 6 fuel) as [Hf|Hf].
        -- rewrite !mpmc_read_alone_returns by (auto; lia). reflexivity.
        -- unfold Mpmc.read.
           destruct fuel as [|[|[|[|[|[|fuel]]]]]]; try lia;
             repeat (progress (simpl; rewrite ?Havail, ?andb_false_r, ?Heq, ?Z.eqb_refl));
             reflexivity.
      * rewrite !mpmc_read_waits_for_commit by assumption. now destruct (6 <=? fuel)%nat.
    + rewrite !mpmc_read_no_data by assumption. now destruct (6 <=? fuel)%nat.
Qed.

(** X6: While no other call is between its reservation and its commit, a call
    of the MPMC buffer run alone does what the private [can_put]/[put] and
    [can_get]/[get] of the SPSC buffer do on the same storage and cursors:
    [write] completes exactly when [can_put] holds, with the storage and
    cursors [put] yields, as the SPSC [write] does; [read] completes exactly
    when the SPSC [read] does, with the same bytes; and no call is in
    progress afterwards.  This is stated for [len <= buf_size_], where the
    copies stay inside the storage; a longer call that a wrapped sum lets
    through copies beyond it. *)
Theorem mpmc_alone_is_spsc (t : Mpmc.ringbuffer_mpmc) (buf dst : mem) (len : Z) (fuel : nat) :
  0 < Mpmc.buf_size_ t < U64.modulus -> 0 <= len <= Mpmc.buf_size_ t ->
  mpmc_quiescent t -> (6 <= fuel)%nat ->
  match Mpmc.write fuel t buf len with
  | Done t' =>
      Spsc.can_put (spsc_view t) len = true /\
      spsc_view t' = Spsc.put (spsc_view t) buf len /\ mpmc_quiescent t' /\
      Spsc.write (spsc_view t) buf len = Done (spsc_view t')
  | Blocked =>
      Spsc.can_put (spsc_view t) len = false /\
      Spsc.write (spsc_view t) buf len = Blocked
  | Fatal _ => False
  end /\
  match Mpmc.read fuel t dst len with
  | Done (t', r) =>
      Spsc.read (spsc_view t) dst len = Done (spsc_view t', r) /\ mpmc_quiescent t'
  | Blocked => Spsc.read (spsc_view t) dst len = Blocked
  | Fatal _ => False
  end.
Proof.
  intros _ Hlen [Qi Qo] Hfuel.
  assert (Hput : Spsc.can_put (spsc_view t) len = Mpmc.room t (Mpmc.in_ t) len).
  { unfold Spsc.can_put, Mpmc.room, spsc_view. simpl. now rewrite Qo. }
  assert (Hwrite : Spsc.write (spsc_view t) buf len =
            if Spsc.can_put (spsc_view t) len
            then Done (Spsc.put (spsc_view t) buf len) else Blocked).
  { unfold Spsc.write. change (Spsc.buf_size_ (spsc_view t)) with (Mpmc.buf_size_ t).
    destruct (Z.ltb_spec (Mpmc.buf_size_ t) len); [lia|].
    now destruct (Spsc.enable_cv_ (spsc_view t)). }
  assert (Hget : Spsc.can_get (spsc_view t) len = Mpmc.avail t (Mpmc.out_ t) len).
  { unfold Spsc.can_get, Mpmc.avail, spsc_view, U64.add. simpl.
    now rewrite Qi, (Z.add_comm len). }
  split.
  - rewrite Hwrite, Hput. destruct (Mpmc.room t (Mpmc.in_ t) len) eqn:Hroom.
    + rewrite mpmc_write_alone_returns by auto.
      split; [reflexivity|]. split; [reflexivity|].
      split; [split; simpl; congruence|reflexivity].
    + rewrite mpmc_write_no_room by assumption. split; reflexivity.
  - destruct (Mpmc.avail t (Mpmc.out_ t) len) eqn:Havail.
    + rewrite mpmc_read_alone_returns by auto.
      split; [|split; simpl; congruence].
      rewrite spsc_read_avail by congruence. reflexivity.
    + rewrite mpmc_read_no_data by assumption.
      unfold Spsc.read. rewrite Hget. now destruct (Spsc.enable_cv_ (spsc_view t)).
Qed.

Lemma mpmc_alone_is_spsc_witness :
  let t := Mpmc.mk zeroed 16 false 12 12 4 4 in
  let buf := fill "A" in
  match Mpmc.write 6 t buf 5 with
  | Done t' =>
      Spsc.can_put (spsc_view t) 5 = true /\
      spsc_view t' = Spsc.put (spsc_view t) buf 5 /\ mpmc_quiescent t' /\
      Spsc.write (spsc_view t) buf 5 = Done (spsc_view t')
  | Blocked =>
      Spsc.can_put (spsc_view t) 5 = false /\
      Spsc.write (spsc_view t) buf 5 = Blocked
  | Fatal _ => False
  end /\
  match Mpmc.read 6 t zeroed 5 with
  | Done (t', r) =>
      Spsc.read (spsc_view t) zeroed 5 = Done (spsc_view t', r) /\ mpmc_quiescent t'
  | Blocked => Spsc.read (spsc_view t) zeroed 5 = Blocked
  | Fatal _ => False
  end.
Proof.
  intros t buf.
  apply (mpmc_alone_is_spsc t buf zeroed 5 6).
  - simpl. rewrite modulus_eq. lia.
  - simpl. lia.
  - split; reflexivity.
  - lia.
Defined.

(** ** The SPSC buffer as a byte stream *)

Lemma sum_sizes_app (a b : list Z) : sum_sizes (a ++ b) = sum_sizes a + sum_sizes b.
Proof. induction a as [|n a IH]; simpl; lia. Qed.

Lemma sum_sizes_nonneg (cap : Z) (ws : list Z) :
  Forall (fun n => 0 <= n <= cap) ws -> 0 <= sum_sizes ws.
Proof. induction 1; simpl; lia. Qed.

Lemma sum_sizes_take_S (ws : list Z) (k : nat) (n : Z) :
  ws !! k = Some n -> sum_sizes (take (S k) ws) = sum_sizes (take k ws) + n.
Proof.
  intros H. rewrite (take_S_r _ _ _ H), sum_sizes_app. simpl. lia.
Qed.

Section ByteStream.

Variable cap : Z.
Variable cs : list chunk.
Variable ws : list Z.
Hypothesis cap_pow2 : power_of_two cap.
Hypothesis sizes_ok : Forall (fun c => 0 <= size c <= cap) cs.
Hypothesis reads_ok : Forall (fun n => 0 <= n <= cap) ws.
Hypothesis no_wrap : total_size cs + cap < U64.modulus.

Lemma stream_producer_step (nw nr : nat) (x : session) :
  stream_inv cap cs ws nw nr x ->
  session_step producer x = x \/
  stream_inv cap cs ws (S nw) nr (session_step producer x).
Proof.
  intros (Hnw & Hnr & Hpend & Hwant & Hrecv & Hcr & Hwf & Hinv & Hsz & Hin & Hout & Hbuf & Hdel).
  pose proof (power_of_two_bounds _ cap_pow2) as Hb.
  unfold session_step. rewrite Hcr, Hpend.
  destruct (decide (nw < length cs)%nat) as [Hlt|Hge];
    [|left; rewrite drop_ge by lia; reflexivity].
  destruct (lookup_lt_is_Some_2 cs nw Hlt) as [c Hc].
  rewrite (drop_S _ _ _ Hc).
  pose proof (Forall_lookup_1 _ _ _ _ sizes_ok Hc) as Hsize. simpl in Hsize.
  pose proof (total_size_take_S _ _ _ Hc) as HS.
  pose proof (total_size_take_bounds cap cs (S nw) sizes_ok) as HbS.
  pose proof (total_size_take_bounds cap cs nw sizes_ok) as Hbw.
  pose proof (sum_sizes_nonneg cap _ (Forall_take _ nr ws reads_ok)) as Hbr.
  destruct (Spsc.write (rb x) (data c) (size c)) as [s'| |d] eqn:E.
  - right. apply spsc_write_done in E as (_ & Hp & ->).
    apply spsc_can_put_sound in Hp; [|lia..].
    destruct Hwf as (Hc2 & Hi & Ho). unfold spsc_inv in Hinv.
    unfold stream_inv. simpl.
    rewrite add_small by lia.
    repeat (split; [first [assumption | lia | reflexivity]|]).
    split; [|split; [|split; [|split; [|split; [|split]]]]]; try assumption; try lia.
    + unfold spsc_wf, U64.in_range. simpl. rewrite add_small by lia.
      split; [exact Hc2|]. lia.
    + unfold spsc_inv. simpl. rewrite add_small by lia. lia.
    + intros p Hp'.
      pose proof (spsc_put_buffer (rb x) (data c) (size c) (p mod cap)) as Hput.
      unfold Spsc.put in Hput. simpl in Hput. rewrite Hput by (rewrite ?Hsz; auto; lia).
      rewrite Hsz, wrapped_store_at_mod by lia.
      destruct (Z.lt_ge_cases p (Spsc.in_ (rb x))) as [Hlo|Hhi].
      * assert (Em : (p - Spsc.in_ (rb x)) mod cap = p - Spsc.in_ (rb x) + cap).
        { symmetry. apply (Zmod_unique _ _ (-1)); lia. }
        rewrite Em. destruct (Z.ltb_spec (p - Spsc.in_ (rb x) + cap) (size c)); [lia|].
        apply Hbuf. lia.
      * assert (Em : (p - Spsc.in_ (rb x)) mod cap = p - Spsc.in_ (rb x)).
        { apply Z.mod_small. lia. }
        rewrite Em. destruct (Z.ltb_spec (p - Spsc.in_ (rb x)) (size c)); [|lia].
        rewrite <- (stream_at cap cs nw c) by (auto; lia).
        f_equal. lia.
  - left. reflexivity.
  - exfalso. unfold Spsc.write in E. rewrite Hsz in E.
    destruct (Z.ltb_spec cap (size c)); [lia|].
    destruct (Spsc.enable_cv_ (rb x)), (Spsc.can_put (rb x) (size c)); discriminate.
Qed.

Lemma stream_consumer_step (nw nr : nat) (x : session) :
  stream_inv cap cs ws nw nr x ->
  session_step consumer x = x \/
  stream_inv cap cs ws nw (S nr) (session_step consumer x).
Proof.
  intros (Hnw & Hnr & Hpend & Hwant & Hrecv & Hcr & Hwf & Hinv & Hsz & Hin & Hout & Hbuf & Hdel).
  pose proof (power_of_two_bounds _ cap_pow2) as Hb.
  unfold session_step. rewrite Hcr, Hwant.
  destruct (decide (nr < length ws)%nat) as [Hlt|Hge];
    [|left; rewrite drop_ge by lia; reflexivity].
  destruct (lookup_lt_is_Some_2 ws nr Hlt) as [n Hn].
  rewrite (drop_S _ _ _ Hn).
  pose proof (Forall_lookup_1 _ _ _ _ reads_ok Hn) as Hsize. simpl in Hsize.
  pose proof (sum_sizes_take_S _ _ _ Hn) as HS.
  pose proof (total_size_take_bounds cap cs nw sizes_ok) as Hbw.
  pose proof (sum_sizes_nonneg cap _ (Forall_take _ nr ws reads_ok)) as Hbr.
  destruct (Spsc.read (rb x) zeroed n) as [[s' m]| |d] eqn:E.
  - right. apply spsc_read_done in E as (Hg & E).
    unfold spsc_inv in Hinv.
    apply spsc_can_get_sound in Hg; [|lia].
    assert (Em : forall i, m i = snd (Spsc.get (rb x) zeroed n) i) by (now rewrite <- E).
    assert (Es : s' = fst (Spsc.get (rb x) zeroed n)) by (now rewrite <- E).
    subst s'.
    destruct Hwf as (Hc2 & Hi & Ho). unfold spsc_inv in Hinv.
    unfold stream_inv. cbn [rb pending wanted received crashed fst Spsc.get
      Spsc.in_ Spsc.out_ Spsc.buffer_ Spsc.buf_size_ Spsc.enable_cv_].
    assert (Hz : 0 <= Spsc.out_ (rb x) + n < U64.modulus) by lia.
    rewrite (add_small _ _ Hz).
    split; [lia|]. split; [lia|]. split; [assumption|]. split; [reflexivity|].
    split; [rewrite length_app; simpl; lia|]. split; [reflexivity|].
    split; [|split; [|split; [|split; [|split; [|split]]]]]; try assumption; try lia.
    + unfold spsc_wf, U64.in_range. simpl. split; [exact Hc2|]. lia.
    + unfold spsc_inv. simpl. lia.
    + intros p Hp'. apply Hbuf. lia.
    + destruct Hdel as [Hlen Hdel]. split; [simpl; rewrite length_app; simpl; lia|].
      simpl. intros k m' n' Hk Hk' i Hi'.
      apply lookup_app_Some in Hk as [Hk|[Hlen' Hk]]; [now apply (Hdel k m' n')|].
      apply list_lookup_singleton_Some in Hk as [Hk0 <-].
      assert (k = nr) by lia. subst k.
      rewrite Hn in Hk'. injection Hk' as <-.
      rewrite Em, spsc_get_region by (rewrite ?Hsz; auto; lia).
      unfold wrapped_load. rewrite Hsz.
      destruct (Z.leb_spec 0 i); [|lia]. destruct (Z.ltb_spec i n); [|lia]. simpl.
      rewrite Hbuf by lia. now rewrite Hout.
  - left. reflexivity.
  - exfalso. unfold Spsc.read in E.
    destruct (Spsc.enable_cv_ (rb x)), (Spsc.can_get (rb x) n); discriminate.
Qed.

Lemma stream_inv_start (cv : bool) (m : mem) :
  stream_inv cap cs ws 0 0 (stream_start (spsc_init cap cv m) cs ws).
Proof.
  pose proof (power_of_two_bounds _ cap_pow2) as Hb.
  unfold stream_inv, stream_start, spsc_init, spsc_wf, spsc_inv, U64.in_range,
    delivered_as_stream. simpl.
  rewrite !drop_0.
  repeat (split; [first [reflexivity | assumption | lia
                        | split; [assumption | split; lia]
                        | intros p Hp; lia ]|]).
  all: try (split; [lia|]); intros k m' c Hk; discriminate.
Qed.

Lemma stream_inv_run (sched : list role) (nw nr : nat) (x : session) :
  stream_inv cap cs ws nw nr x ->
  exists nw' nr', stream_inv cap cs ws nw' nr' (session_run sched x).
Proof.
  revert nw nr x. induction sched as [|r sched IH]; intros nw nr x Hx.
  - exists nw, nr. exact Hx.
  - unfold session_run. simpl. fold (session_run sched (session_step r x)).
    destruct r.
    + destruct (stream_producer_step nw nr x Hx) as [-> | Hx']; eauto.
    + destruct (stream_consumer_step nw nr x Hx) as [-> | Hx']; eauto.
Qed.

End ByteStream.

(** X7: One producer writing chunks and one consumer reading, with read sizes
    that need not be the sizes written: whatever the order in which the two
    sides' calls complete, the regions read, laid end to end, are the start
    of the chunks written, laid end to end; a read may return the end of one
    chunk and the start of the next.  No call fails, and the cursors count
    the bytes written and read. *)
Theorem spsc_byte_stream (cap : Z) (cv : bool) (m : mem) (cs : list chunk) (ws : list Z)
    (sched : list role) :
  power_of_two cap ->
  Forall (fun c => 0 <= size c <= cap) cs ->
  Forall (fun n => 0 <= n <= cap) ws ->
  total_size cs + cap < U64.modulus ->
  let x := session_run sched (stream_start (spsc_init cap cv m) cs ws) in
  crashed x = None /\
  delivered_as_stream cs ws x /\
  Spsc.out_ (rb x) = sum_sizes (take (length (received x)) ws) /\
  Spsc.in_ (rb x) = total_size (take (length cs - length (pending x)) cs).
Proof.
  intros Hcap Hsizes Hreads Hwrap x.
  destruct (stream_inv_run cap cs ws Hcap Hsizes Hreads Hwrap sched 0 0
              (stream_start (spsc_init cap cv m) cs ws)
              (stream_inv_start cap cs ws Hcap cv m))
    as (nw & nr & Hnw & Hnr & Hpend & Hwant & Hrecv & Hcr & Hwf & Hinv & Hsz & Hin & Hout
        & Hbuf & Hdel).
  fold x in Hpend, Hwant, Hrecv, Hcr, Hin, Hout, Hdel.
  split; [exact Hcr|]. split; [exact Hdel|].
  split; [now rewrite Hrecv|].
  rewrite Hpend, length_drop. replace (length cs - (length cs - nw))%nat with nw by lia.
  exact Hin.
Qed.

Lemma spsc_byte_stream_witness :
  let cs := [chunk_of_bytes ["a"; "b"; "c"; "d"; "e"]%byte;
             chunk_of_bytes ["f"; "g"; "h"; "i"; "j"; "k"]%byte;
             chunk_of_bytes ["l"; "m"; "n"]%byte] in
  let ws := [3; 6; 4] in
  let sched := [producer; consumer; producer; consumer; producer; consumer] in
  let x := session_run sched (stream_start (spsc_init 8 false zeroed) cs ws) in
  (length (received x) = 3%nat /\
   bytes_of (default zeroed (received x !! 1%nat)) 6 = ["d"; "e"; "f"; "g"; "h"; "i"]%byte) /\
  crashed x = None /\
  delivered_as_stream cs ws x /\
  Spsc.out_ (rb x) = sum_sizes (take (length (received x)) ws) /\
  Spsc.in_ (rb x) = total_size (take (length cs - length (pending x)) cs).
Proof.
  intros cs ws sched x.
  split; [split; vm_compute; reflexivity|].
  apply (spsc_byte_stream 8 false zeroed cs ws sched).
  - exists 3. split; [lia | reflexivity].
  - repeat constructor; simpl; lia.
  - repeat constructor; lia.
  - rewrite modulus_eq. simpl. lia.
Defined.

(** ** Messages of one length under interleaving *)

Lemma mod_below (cap x : Z) : 0 < cap -> - cap <= x < 0 -> x mod cap = x + cap.
Proof.
  intros Hc Hx. symmetry. apply (Z.mod_unique x cap (-1)); lia.
Qed.

Lemma mod_of_multiple (len e k : Z) :
  Z.divide len e -> 0 <= k < len -> (e + k) mod len = k.
Proof.
  intros [q ->] Hk. rewrite Z.add_comm, Z.mod_add by lia. apply Z.mod_small. exact Hk.
Qed.

Lemma copy_in_wrapped (s : Mpmc.ringbuffer_mpmc) (e : Z) (buf : mem) (len j : Z) :
  power_of_two (Mpmc.buf_size_ s) -> 0 <= len <= Mpmc.buf_size_ s ->
  Mpmc.copy_in s e buf len j = wrapped_store (Mpmc.buf_size_ s) (Mpmc.buffer_ s) e buf len j.
Proof. intros Hp Hl. unfold Mpmc.copy_in, Mpmc.mask. now apply two_memcpy_store. Qed.

Lemma copy_out_wrapped (s : Mpmc.ringbuffer_mpmc) (e : Z) (buf : mem) (len i : Z) :
  power_of_two (Mpmc.buf_size_ s) -> 0 <= len <= Mpmc.buf_size_ s ->
  Mpmc.copy_out s e buf len i = wrapped_load (Mpmc.buf_size_ s) (Mpmc.buffer_ s) e buf len i.
Proof. intros Hp Hl. unfold Mpmc.copy_out, Mpmc.mask. now apply two_memcpy_load. Qed.

(** A store of [len] bytes from position [e] leaves alone the cell of any
    position [p] of the window of [cap] positions around it that is not in
    [[e, e + len)]. *)
Lemma store_keeps_cell (cap e len p : Z) (m buf : mem) :
  0 < cap -> 0 <= len ->
  len - cap <= p - e < 0 \/ len <= p - e < cap ->
  wrapped_store cap m e buf len (p mod cap) = m (p mod cap).
Proof.
  intros Hc Hl Hp. rewrite wrapped_store_at_mod by assumption.
  destruct Hp as [Hp|Hp].
  - rewrite mod_below by lia. destruct (Z.ltb_spec (p - e + cap) len); [lia|reflexivity].
  - rewrite Z.mod_small by lia. destruct (Z.ltb_spec (p - e) len); [lia|reflexivity].
Qed.

Lemma store_own_cell (cap e len k : Z) (m buf : mem) :
  0 < cap -> 0 <= k < len -> len <= cap ->
  wrapped_store cap m e buf len ((e + k) mod cap) = buf k.
Proof.
  intros Hc Hk Hl. rewrite wrapped_store_at_mod by assumption.
  replace (e + k - e) with k by lia. rewrite Z.mod_small by lia.
  destruct (Z.ltb_spec k len); [reflexivity|lia].
Qed.

Lemma call_data_cursors (s s' : Mpmc.ringbuffer_mpmc) (len : Z) (msg : mem) (c : Mpmc.call) :
  Mpmc.buffer_ s' = Mpmc.buffer_ s -> Mpmc.buf_size_ s' = Mpmc.buf_size_ s ->
  call_data s len msg c -> call_data s' len msg c.
Proof.
  intros Hb Hc. destruct c as [b l p|b l p]; destruct p; simpl; try tauto.
  rewrite Hb, Hc. tauto.
Qed.

Lemma data_inv_intro (len : Z) (msg : mem) (s' : Mpmc.ringbuffer_mpmc)
    (pl : list Mpmc.call) (h' : list Mpmc.event) (i : nat) (cl' : Mpmc.call) :
  Forall (uniform_call len msg) pl ->
  uniform_call len msg cl' ->
  Z.divide len (Mpmc.in_ s') -> Z.divide len (Mpmc.out_ s') ->
  stored_messages s' len msg ->
  call_data s' len msg cl' ->
  (forall j c2, j <> i -> pl !! j = Some c2 -> call_data s' len msg c2) ->
  data_inv len msg (Mpmc.mk_config s' (<[i := cl']> pl) h').
Proof.
  intros Hun Hu Hin Hout Hst Hcd Hothers.
  unfold data_inv. simpl. repeat split; try assumption.
  - now apply Forall_insert.
  - intros j c2 Hj. apply list_lookup_insert_Some in Hj as [(-> & <- & _)|(Hne & Hj)].
    + exact Hcd.
    + now apply (Hothers j).
Qed.

Ltac quiet_data Dun Din Dout Dst Dcd :=
  apply data_inv_intro;
  [ exact Dun | split; [reflexivity | assumption || exact I]
  | exact Din | exact Dout | exact Dst
  | simpl; try exact I; try assumption
  | intros j c2 _ Hj; exact (Dcd j c2 Hj) ].

(** One step of one call keeps the bytes in place. *)
Lemma sys_step_data_inv (len : Z) (msg : mem) (i : nat) (sp : bool) (c c' : Mpmc.config) :
  0 < len -> power_of_two (Mpmc.buf_size_ (Mpmc.shared c)) ->
  mpmc_inv c -> mpmc_headroom (Mpmc.shared c) ->
  data_inv len msg c ->
  Mpmc.sys_step i sp c = Some c' ->
  data_inv len msg c'.
Proof.
  intros Hlen Hpow Hinv Hhead Hdata Hstep.
  unfold Mpmc.sys_step in Hstep.
  destruct (Mpmc.pool c !! i) as [cl|] eqn:Hcl; [|discriminate].
  destruct (Mpmc.call_step sp (Mpmc.shared c) cl) as [[[s' cl'] ev]|] eqn:Hcs; [|discriminate].
  injection Hstep as <-. destruct c as [s pl h]. simpl in *.
  destruct Hinv as [Hch [Hoks Hap]]. simpl in *.
  destruct Hdata as (Din & Dout & Dst & Dun & Dcd). simpl in *.
  pose proof (Hoks i cl Hcl) as Hok.
  pose proof (Dcd i cl Hcl) as Hown.
  assert (Hu : uniform_call len msg cl) by exact (Forall_lookup_1 _ _ _ _ Dun Hcl).
  pose proof (power_of_two_bounds _ Hpow) as Hcap.
  destruct cl as [buf l p|buf l p]; simpl in Hcs.
  - destruct (Mpmc.put_step sp s buf l p) as [[[s1 p1] ev1]|] eqn:Hps; [|discriminate].
    injection Hcs as <- <- <-. destruct Hu as [Hl Hsame]. simpl in Hl. subst l.
    destruct Hok as [Hlb Hok]. simpl in Hlb.
    destruct p as [| |e|e|e|e|]; simpl in Hps.
    + destruct (Mpmc.enable_cv_ s && negb (Mpmc.room s (Mpmc.in_ s) len)); [discriminate|].
      injection Hps as <- <- <-. quiet_data Dun Din Dout Dst Dcd.
    + injection Hps as <- <- <-. quiet_data Dun Din Dout Dst Dcd.
    + destruct (Mpmc.room s e len); injection Hps as <- <- <-; quiet_data Dun Din Dout Dst Dcd.
    + destruct (Z.eqb_spec (Mpmc.in_ s) e) as [He|He]; simpl in Hps;
        [destruct sp; simpl in Hps|]; injection Hps as <- <- <-.
      * quiet_data Dun Din Dout Dst Dcd.
      * open_inv. apply data_inv_intro; simpl; try assumption.
        -- split; [reflexivity|assumption].
        -- rewrite add_small by lia. apply Z.divide_add_r; [now subst e|apply Z.divide_refl].
        -- now subst e.
        -- intros j c2 _ Hj. apply (call_data_cursors s); [reflexivity..|]. exact (Dcd j c2 Hj).
      * quiet_data Dun Din Dout Dst Dcd.
    + injection Hps as <- <- <-. open_inv.
      destruct Hok as (He0 & Hein & [Hre|Hz]); [|lia].
      apply data_inv_intro; simpl; try assumption.
      * split; [reflexivity|assumption].
      * unfold stored_messages. simpl. intros p Hp. rewrite copy_in_wrapped by (assumption || lia).
        rewrite store_keeps_cell by lia. now apply Dst.
      * split; [exact Hown|]. intros k Hk.
        rewrite copy_in_wrapped by (assumption || lia).
        rewrite store_own_cell by lia. now apply Hsame.
      * intros j c2 Hne Hj.
        pose proof (Dcd j c2 Hj) as Hcd2. pose proof (Hoks j c2 Hj) as Hok2.
        pose proof (Hap i j _ _ (not_eq_sym Hne) Hcl Hj) as Hap2.
        pose proof (Forall_lookup_1 _ _ _ _ Dun Hj) as [Hl2 _].
        unfold call_ok, apart in *.
        destruct c2 as [b2 l2 p2|b2 l2 p2]; destruct p2; simpl in *; try assumption.
        subst l2. destruct Hcd2 as [Hd2 Hcells]. split; [exact Hd2|].
        intros k Hk. rewrite copy_in_wrapped by (assumption || lia).
        destruct Hok2 as (_ & _ & Hin2 & Hre2).
        specialize (Hap2 eq_refl).
        rewrite store_keeps_cell by lia. now apply Hcells.
    + destruct (Z.eqb_spec (Mpmc.real_in_ s) e) as [He|He]; simpl in Hps;
        [destruct sp; simpl in Hps|]; injection Hps as <- <- <-.
      * quiet_data Dun Din Dout Dst Dcd.
      * open_inv. destruct Hown as [Hde Hcells].
        destruct Hok as (He0 & Hein & _).
        apply data_inv_intro; simpl; try assumption.
        -- split; [reflexivity|assumption].
        -- unfold stored_messages. simpl. intros p Hp. rewrite add_small in Hp by lia.
           destruct (Z_lt_le_dec p e) as [Hlt|Hge].
           ++ apply Dst. lia.
           ++ replace p with (e + (p - e)) by lia.
              rewrite (mod_of_multiple len e (p - e)) by (assumption || lia). apply Hcells. lia.
        -- exact I.
        -- intros j c2 _ Hj. apply (call_data_cursors s); [reflexivity..|]. exact (Dcd j c2 Hj).
      * quiet_data Dun Din Dout Dst Dcd.
    + discriminate.
  - destruct (Mpmc.get_step sp s buf l p) as [[[[s1 b1] p1] ev1]|] eqn:Hgs; [|discriminate].
    injection Hcs as <- <- <-. destruct Hu as [Hl _]. simpl in Hl. subst l.
    destruct Hok as [Hlb Hok]. simpl in Hlb.
    destruct p as [| |e|e|e|e|]; simpl in Hgs.
    + destruct (Mpmc.enable_cv_ s && negb (Mpmc.avail s (Mpmc.out_ s) len)); [discriminate|].
      injection Hgs as <- <- <- <-. quiet_data Dun Din Dout Dst Dcd.
    + injection Hgs as <- <- <- <-. quiet_data Dun Din Dout Dst Dcd.
    + destruct (Mpmc.avail s e len); injection Hgs as <- <- <- <-; quiet_data Dun Din Dout Dst Dcd.
    + destruct (Z.eqb_spec (Mpmc.out_ s) e) as [He|He]; simpl in Hgs;
        [destruct sp; simpl in Hgs|]; injection Hgs as <- <- <- <-.
      * quiet_data Dun Din Dout Dst Dcd.
      * open_inv. apply data_inv_intro; simpl; try assumption.
        -- split; [reflexivity|exact I].
        -- rewrite add_small by lia. apply Z.divide_add_r; [now subst e|apply Z.divide_refl].
        -- now subst e.
        -- intros j c2 _ Hj. apply (call_data_cursors s); [reflexivity..|]. exact (Dcd j c2 Hj).
      * quiet_data Dun Din Dout Dst Dcd.
    + injection Hgs as <- <- <- <-. open_inv.
      destruct Hok as (He0 & Heout & [Hre|Hz]); [|lia].
      apply data_inv_intro; simpl; try assumption.
      * split; [reflexivity|exact I].
      * intros k Hk. rewrite copy_out_wrapped by (assumption || lia).
        unfold wrapped_load.
        destruct (Z.leb_spec 0 k); [|lia]. destruct (Z.ltb_spec k len); [|lia]. simpl.
        rewrite Dst by lia. now rewrite (mod_of_multiple len e k).
      * intros j c2 _ Hj. exact (Dcd j c2 Hj).
    + destruct (Z.eqb_spec (Mpmc.real_out_ s) e) as [He|He]; simpl in Hgs;
        [destruct sp; simpl in Hgs|]; injection Hgs as <- <- <- <-.
      * quiet_data Dun Din Dout Dst Dcd.
      * open_inv. destruct Hok as (He0 & Heout & _).
        apply data_inv_intro; simpl; try assumption.
        -- split; [reflexivity|exact I].
        -- unfold stored_messages. simpl. intros p Hp. rewrite add_small in Hp by lia. apply Dst. lia.
        -- intros j c2 _ Hj. apply (call_data_cursors s); [reflexivity..|]. exact (Dcd j c2 Hj).
      * quiet_data Dun Din Dout Dst Dcd.
    + discriminate.
Qed.

Lemma data_inv_start (cap len : Z) (cv : bool) (m msg : mem) (calls : list Mpmc.call) :
  Forall (fresh_call cap) calls -> Forall (uniform_call len msg) calls ->
  data_inv len msg (mpmc_start cap cv m calls).
Proof.
  intros Hfresh Hun. unfold data_inv, stored_messages. simpl.
  split; [apply Z.divide_0_r|]. split; [apply Z.divide_0_r|].
  split; [intros p Hp; lia|]. split; [exact Hun|].
  intros i cl Hi. pose proof (Forall_lookup_1 _ _ _ _ Hfresh Hi) as [Hpc _].
  destruct cl; simpl in *; subst; exact I.
Qed.

Lemma mpmc_reach_data_inv (len : Z) (msg : mem) (c0 c : Mpmc.config) :
  0 < len -> power_of_two (Mpmc.buf_size_ (Mpmc.shared c0)) ->
  mpmc_reach c0 c -> mpmc_inv c0 -> data_inv len msg c0 -> data_inv len msg c.
Proof.
  intros Hlen Hpow. induction 1 as [|c i sp c' Hreach IH Hroom Hstep]; intros H0 D0; [auto|].
  destruct (mpmc_reach_inv _ _ Hreach H0) as [Hinv Hsz].
  apply (sys_step_data_inv len msg i sp c c'); auto.
  now rewrite Hsz.
Qed.

Lemma uniform_reach (cap len : Z) (cv : bool) (m msg : mem) (calls : list Mpmc.call)
    (c : Mpmc.config) :
  power_of_two cap -> 0 < len ->
  Forall (fresh_call cap) calls -> Forall (uniform_call len msg) calls ->
  mpmc_reach (mpmc_start cap cv m calls) c ->
  data_inv len msg c.
Proof.
  intros Hpow Hlen Hfresh Hun Hreach.
  pose proof (power_of_two_bounds _ Hpow) as Hb.
  apply (mpmc_reach_data_inv len msg (mpmc_start cap cv m calls)); auto.
  - apply mpmc_inv_start; [lia|exact Hfresh].
  - now apply data_inv_start.
Qed.

Lemma run_reach (sched : list (nat * bool)) (c : Mpmc.config) :
  headroom_along sched c = true -> mpmc_reach c (Mpmc.run sched c).
Proof.
  revert c. induction sched as [|[i sp] rest IH]; intros c H; simpl in *.
  - apply reach_here.
  - destruct (Mpmc.sys_step i sp c) as [c'|] eqn:Hstep.
    + apply andb_true_iff in H as [Hroom Hrest].
      apply (mpmc_reach_first c c' _ i sp); [|exact Hstep|now apply IH].
      unfold mpmc_headroom. now apply Z.ltb_lt.
    + now apply IH.
Qed.

Lemma uniform_reader (len : Z) (msg : mem) (c : Mpmc.config) (i : nat) (buf : mem) (l : Z) :
  data_inv len msg c ->
  Mpmc.pool c !! i = Some (Mpmc.get_call buf l Mpmc.returned) ->
  l = len /\ bytes_of buf len = bytes_of msg len.
Proof.
  intros (_ & _ & _ & Dun & Dcd) Hi.
  pose proof (Forall_lookup_1 _ _ _ _ Dun Hi) as [Hl _].
  split; [exact Hl|]. apply bytes_of_same. exact (Dcd i _ Hi).
Qed.

(** X8: Writers that all store the same [len > 0] bytes [msg], readers that all
    ask for [len] bytes, in any interleaving on a buffer of power-of-two
    capacity, each step taken where [in_ + buf_size_ < 2^64]: a reader that
    has returned holds [msg] -- a whole message, never the end of one and
    the start of the next, and never bytes a writer has not finished
    copying. *)
Theorem uniform_messages_arrive (cap len : Z) (cv : bool) (m msg : mem)
    (calls : list Mpmc.call) (c : Mpmc.config) (i : nat) (buf : mem) (l : Z) :
  power_of_two cap -> 0 < len ->
  Forall (fresh_call cap) calls -> Forall (uniform_call len msg) calls ->
  mpmc_reach (mpmc_start cap cv m calls) c ->
  Mpmc.pool c !! i = Some (Mpmc.get_call buf l Mpmc.returned) ->
  l = len /\ bytes_of buf len = bytes_of msg len.
Proof.
  intros Hpow Hlen Hfresh Hun Hreach Hi.
  apply (uniform_reader len msg c i buf l); [|exact Hi].
  now apply (uniform_reach cap len cv m msg calls).
Qed.

Lemma uniform_messages_arrive_witness :
  let msg := region_of ["a"; "b"; "c"; "d"; "e"; "f"]%byte in
  let calls := [Mpmc.put_call msg 6 Mpmc.top; Mpmc.get_call zeroed 6 Mpmc.top;
                Mpmc.put_call msg 6 Mpmc.top; Mpmc.put_call msg 6 Mpmc.top;
                Mpmc.get_call zeroed 6 Mpmc.top; Mpmc.get_call zeroed 6 Mpmc.top] in
  let sched := one_by_one 0 2 ++
               repeat (2%nat, false) 4 ++ repeat (3%nat, false) 5 ++
               repeat (2%nat, false) 2 ++ [(3%nat, false)] ++ one_by_one 4 2 in
  let c := Mpmc.run sched (mpmc_start 16 false zeroed calls) in
  exists buf,
    Mpmc.pool c !! 5%nat = Some (Mpmc.get_call buf 6 Mpmc.returned) /\
    Mpmc.mask (Mpmc.shared c) (Mpmc.out_ (Mpmc.shared c)) = 2 /\
    6 = 6 /\ bytes_of buf 6 = bytes_of msg 6.
Proof.
  intros msg calls sched c.
  assert (R : exists buf, Mpmc.pool c !! 5%nat = Some (Mpmc.get_call buf 6 Mpmc.returned)).
  { eexists. vm_compute. reflexivity. }
  destruct R as (buf & Hi). exists buf.
  split; [exact Hi|]. split; [vm_compute; reflexivity|].
  apply (uniform_messages_arrive 16 6 false zeroed msg calls c 5%nat buf 6).
  - exists 4. split; [lia | reflexivity].
  - lia.
  - repeat constructor; simpl; lia.
  - repeat constructor; intros k Hk; reflexivity.
  - apply run_reach. vm_compute. reflexivity.
  - exact Hi.
Defined.

(** X9: Under the same conditions the committed bytes not yet released are
    whole copies of [msg] laid end to end in the storage, across its end,
    and both reservation cursors are multiples of [len]. *)
Theorem uniform_messages_stored (cap len : Z) (cv : bool) (m msg : mem)
    (calls : list Mpmc.call) (c : Mpmc.config) :
  power_of_two cap -> 0 < len ->
  Forall (fresh_call cap) calls -> Forall (uniform_call len msg) calls ->
  mpmc_reach (mpmc_start cap cv m calls) c ->
  let s := Mpmc.shared c in
  Z.divide len (Mpmc.in_ s) /\ Z.divide len (Mpmc.out_ s) /\
  forall p, Mpmc.real_out_ s <= p < Mpmc.real_in_ s ->
            Mpmc.buffer_ s (Mpmc.mask s p) = msg (p mod len).
Proof.
  intros Hpow Hlen Hfresh Hun Hreach s.
  destruct (uniform_reach cap len cv m msg calls c Hpow Hlen Hfresh Hun Hreach)
    as (Din & Dout & Dst & _).
  destruct (mpmc_reach_inv _ _ Hreach) as [_ Hsz].
  { apply mpmc_inv_start; [pose proof (power_of_two_bounds _ Hpow); lia|exact Hfresh]. }
  simpl in Hsz. fold s in Din, Dout, Dst, Hsz.
  split; [exact Din|]. split; [exact Dout|].
  intros p Hp. unfold Mpmc.mask. rewrite land_mask by (now rewrite Hsz).
  now apply Dst.
Qed.

Lemma uniform_messages_stored_witness :
  let msg := region_of ["a"; "b"; "c"; "d"; "e"; "f"]%byte in
  let calls := [Mpmc.put_call msg 6 Mpmc.top; Mpmc.get_call zeroed 6 Mpmc.top;
                Mpmc.put_call msg 6 Mpmc.top] in
  let c := Mpmc.run (one_by_one 0 3) (mpmc_start 8 false zeroed calls) in
  (Mpmc.real_out_ (Mpmc.shared c) = 6 /\ Mpmc.real_in_ (Mpmc.shared c) = 12) /\
  let s := Mpmc.shared c in
  Z.divide 6 (Mpmc.in_ s) /\ Z.divide 6 (Mpmc.out_ s) /\
  forall p, Mpmc.real_out_ s <= p < Mpmc.real_in_ s ->
            Mpmc.buffer_ s (Mpmc.mask s p) = msg (p mod 6).
Proof.
  intros msg calls c.
  split; [split; vm_compute; reflexivity|].
  apply (uniform_messages_stored 8 6 false zeroed msg calls c).
  - exists 3. split; [lia | reflexivity].
  - lia.
  - repeat constructor; simpl; lia.
  - repeat constructor; intros k Hk; reflexivity.
  - apply run_reach. vm_compute. reflexivity.
Defined.

(** ** The MPMC buffer as a byte stream *)

Lemma logged_step_sys (i : nat) (sp : bool) (c c' : Mpmc.config) (w r w' r' : list transfer) :
  logged_step i sp (c, w, r) = Some (c', w', r') -> Mpmc.sys_step i sp c = Some c'.
Proof.
  unfold logged_step, Mpmc.sys_step. intros H.
  destruct (Mpmc.pool c !! i) as [cl|]; [|discriminate].
  destruct (Mpmc.call_step sp (Mpmc.shared c) cl) as [[[s' cl'] ev]|]; [|discriminate].
  now injection H as <- _ _.
Qed.

Lemma mpmc_reach_logged_reach (c0 : Mpmc.config) (x : Mpmc.config * list transfer * list transfer) :
  mpmc_reach_logged c0 x -> mpmc_reach c0 (fst (fst x)).
Proof.
  induction 1 as [|[[c w] r] i sp [[c' w'] r'] _ IH Hroom Hstep]; [apply reach_here|].
  simpl in *. apply (reach_step c0 c i sp c' IH Hroom).
  exact (logged_step_sys _ _ _ _ _ _ _ _ Hstep).
Qed.

Lemma call_bytes_cursors (s s' : Mpmc.ringbuffer_mpmc) (w : list transfer) (c : Mpmc.call) :
  Mpmc.buffer_ s' = Mpmc.buffer_ s -> Mpmc.buf_size_ s' = Mpmc.buf_size_ s ->
  call_bytes s w c -> call_bytes s' w c.
Proof.
  intros Hb Hc. destruct c as [b l p|b l p]; destruct p; simpl; try tauto.
  now rewrite Hb, Hc.
Qed.

Lemma wrapped_store_nothing (cap pos j : Z) (m buf : mem) :
  0 < cap -> wrapped_store cap m pos buf 0 j = m j.
Proof.
  intros Hc. unfold wrapped_store.
  pose proof (Z.mod_pos_bound (j - pos) cap Hc).
  destruct (Z.ltb_spec ((j - pos) mod cap) 0); [lia|].
  now rewrite andb_false_r.
Qed.

Lemma mpmc_stream_inv_intro (s' : Mpmc.ringbuffer_mpmc) (pl : list Mpmc.call)
    (h' : list Mpmc.event) (i : nat) (cl' : Mpmc.call) (w' r' : list transfer) :
  tiles (map fst w') (Mpmc.real_in_ s') -> tiles (map fst r') (Mpmc.real_out_ s') ->
  (forall p, Mpmc.real_out_ s' <= p < Mpmc.real_in_ s' ->
             Mpmc.buffer_ s' (p mod Mpmc.buf_size_ s') = stream_of w' p) ->
  call_bytes s' w' cl' ->
  (forall j c2, j <> i -> pl !! j = Some c2 -> call_bytes s' w' c2) ->
  Forall (reads_stream w') r' ->
  mpmc_stream_inv (Mpmc.mk_config s' (<[i := cl']> pl) h', w', r').
Proof.
  intros Tw Tr Hst Hcd Hothers Hrd. unfold mpmc_stream_inv. simpl.
  repeat split; try assumption.
  intros j c2 Hj. apply list_lookup_insert_Some in Hj as [(-> & <- & _)|(Hne & Hj)].
  - exact Hcd.
  - now apply (Hothers j).
Qed.

Ltac quiet_stream Tw Tr Dst Dcd Drd :=
  apply mpmc_stream_inv_intro;
  [ exact Tw | exact Tr | exact Dst
  | simpl; try exact I; try assumption
  | intros j c2 _ Hj; exact (Dcd j c2 Hj)
  | exact Drd ].

(** One step of one call keeps the stream in place. *)
Lemma logged_step_stream_inv (i : nat) (sp : bool)
    (x x' : Mpmc.config * list transfer * list transfer) :
  power_of_two (Mpmc.buf_size_ (Mpmc.shared (fst (fst x)))) ->
  mpmc_inv (fst (fst x)) -> mpmc_headroom (Mpmc.shared (fst (fst x))) ->
  mpmc_stream_inv x ->
  logged_step i sp x = Some x' ->
  mpmc_stream_inv x'.
Proof.
  destruct x as [[c w] r]. simpl.
  intros Hpow [Hch [Hoks Hap]] Hhead Hinv Hstep.
  unfold mpmc_stream_inv in Hinv. destruct Hinv as (Tw & Tr & Dst & Dcd & Drd).
  unfold logged_step in Hstep.
  destruct (Mpmc.pool c !! i) as [cl|] eqn:Hcl; [|discriminate].
  destruct (Mpmc.call_step sp (Mpmc.shared c) cl) as [[[s' cl'] ev]|] eqn:Hcs; [|discriminate].
  injection Hstep as <-. destruct c as [s pl h]. simpl in *.
  pose proof (Hoks i cl Hcl) as Hok.
  pose proof (Dcd i cl Hcl) as Hown.
  pose proof (power_of_two_bounds _ Hpow) as Hcap.
  destruct cl as [buf len p|buf len p]; simpl in Hcs.
  - destruct (Mpmc.put_step sp s buf len p) as [[[s1 p1] ev1]|] eqn:Hps; [|discriminate].
    injection Hcs as <- <- <-.
    destruct Hok as [Hlb Hok]. simpl in Hlb.
    destruct p as [| |e|e|e|e|]; simpl in Hps.
    + destruct (Mpmc.enable_cv_ s && negb (Mpmc.room s (Mpmc.in_ s) len)); [discriminate|].
      injection Hps as <- <- <-. quiet_stream Tw Tr Dst Dcd Drd.
    + injection Hps as <- <- <-. quiet_stream Tw Tr Dst Dcd Drd.
    + destruct (Mpmc.room s e len); injection Hps as <- <- <-; quiet_stream Tw Tr Dst Dcd Drd.
    + destruct (Z.eqb_spec (Mpmc.in_ s) e) as [He|He]; simpl in Hps;
        [destruct sp; simpl in Hps|]; injection Hps as <- <- <-.
      * quiet_stream Tw Tr Dst Dcd Drd.
      * apply mpmc_stream_inv_intro; simpl; try assumption; try exact I.
        intros j c2 _ Hj. apply (call_bytes_cursors s); [reflexivity..|]. exact (Dcd j c2 Hj).
      * quiet_stream Tw Tr Dst Dcd Drd.
    + injection Hps as <- <- <-. open_inv.
      destruct Hok as (He0 & Hein & Hre).
      apply mpmc_stream_inv_intro; simpl; try assumption.
      * intros p Hp. rewrite copy_in_wrapped by (assumption || lia).
        destruct Hre as [Hre| ->]; [|rewrite wrapped_store_nothing by lia; now apply Dst].
        rewrite store_keeps_cell by lia. now apply Dst.
      * intros k Hk. rewrite copy_in_wrapped by (assumption || lia).
        now rewrite store_own_cell by lia.
      * intros j c2 Hne Hj.
        pose proof (Dcd j c2 Hj) as Hcd2. pose proof (Hoks j c2 Hj) as Hok2.
        pose proof (Hap i j _ _ (not_eq_sym Hne) Hcl Hj) as Hap2.
        unfold call_ok, apart in *.
        destruct c2 as [b2 l2 p2|b2 l2 p2]; destruct p2; simpl in *; try assumption.
        intros k Hk. rewrite copy_in_wrapped by (assumption || lia).
        destruct Hre as [Hre| ->]; [|rewrite wrapped_store_nothing by lia; now apply Hcd2].
        destruct Hok2 as (_ & _ & Hin2 & Hre2).
        specialize (Hap2 eq_refl).
        rewrite store_keeps_cell by lia. now apply Hcd2.
    + destruct (Z.eqb_spec (Mpmc.real_in_ s) e) as [He|He]; simpl in Hps;
        [destruct sp; simpl in Hps|]; injection Hps as <- <- <-.
      * quiet_stream Tw Tr Dst Dcd Drd.
      * open_inv. destruct Hok as (He0 & Hein & _).
        assert (Hsum : U64.add e len = e + len) by (apply add_small; lia).
        apply mpmc_stream_inv_intro; simpl; try assumption.
        -- rewrite Hsum. split; [lia|]. split; [reflexivity|]. now rewrite <- He.
        -- rewrite Hsum. intros p Hp.
           destruct (Z.leb_spec e p) as [Hge|Hlt].
           ++ replace p with (e + (p - e)) at 1 by lia. apply Hown. lia.
           ++ apply Dst. lia.
        -- exact I.
        -- intros j c2 _ Hj.
           pose proof (Dcd j c2 Hj) as Hcd2. pose proof (Hoks j c2 Hj) as Hok2.
           unfold call_ok in *.
           destruct c2 as [b2 l2 p2|b2 l2 p2]; destruct p2 as [| |e2|e2|e2|e2|];
             simpl in *; try assumption.
           intros k Hk. destruct (Z.leb_spec e (e2 + k)); [lia|]. now apply Hcd2.
        -- apply Forall_forall. intros [[e2 l2] b2] Ht k Hk. simpl in *.
           pose proof (proj1 (Forall_forall _ _) Drd _ Ht k Hk) as Hrd. simpl in Hrd.
           destruct (tiles_bounds _ _ Tr) as [_ Hall].
           specialize (Hall (e2, l2)). simpl in Hall.
           assert (Hin : In (e2, l2) (map fst r)).
           { apply list_elem_of_In in Ht. apply (in_map fst) in Ht. exact Ht. }
           specialize (Hall Hin).
           destruct (Z.leb_spec e (e2 + k)); [lia|]. exact Hrd.
      * quiet_stream Tw Tr Dst Dcd Drd.
    + discriminate.
  - destruct (Mpmc.get_step sp s buf len p) as [[[[s1 b1] p1] ev1]|] eqn:Hgs; [|discriminate].
    injection Hcs as <- <- <-.
    destruct Hok as [Hlb Hok]. simpl in Hlb.
    destruct p as [| |e|e|e|e|]; simpl in Hgs.
    + destruct (Mpmc.enable_cv_ s && negb (Mpmc.avail s (Mpmc.out_ s) len)); [discriminate|].
      injection Hgs as <- <- <- <-. quiet_stream Tw Tr Dst Dcd Drd.
    + injection Hgs as <- <- <- <-. quiet_stream Tw Tr Dst Dcd Drd.
    + destruct (Mpmc.avail s e len); injection Hgs as <- <- <- <-;
        quiet_stream Tw Tr Dst Dcd Drd.
    + destruct (Z.eqb_spec (Mpmc.out_ s) e) as [He|He]; simpl in Hgs;
        [destruct sp; simpl in Hgs|]; injection Hgs as <- <- <- <-.
      * quiet_stream Tw Tr Dst Dcd Drd.
      * apply mpmc_stream_inv_intro; simpl; try assumption; try exact I.
        intros j c2 _ Hj. apply (call_bytes_cursors s); [reflexivity..|]. exact (Dcd j c2 Hj).
      * quiet_stream Tw Tr Dst Dcd Drd.
    + injection Hgs as <- <- <- <-. open_inv.
      destruct Hok as (He0 & Heout & Hre).
      apply mpmc_stream_inv_intro; simpl; try assumption.
      * intros k Hk. rewrite copy_out_wrapped by (assumption || lia).
        unfold wrapped_load.
        destruct (Z.leb_spec 0 k); [|lia]. destruct (Z.ltb_spec k len); [|lia]. simpl.
        apply Dst. lia.
      * intros j c2 _ Hj. exact (Dcd j c2 Hj).
    + destruct (Z.eqb_spec (Mpmc.real_out_ s) e) as [He|He]; simpl in Hgs;
        [destruct sp; simpl in Hgs|]; injection Hgs as <- <- <- <-.
      * quiet_stream Tw Tr Dst Dcd Drd.
      * open_inv. destruct Hok as (He0 & Heout & _).
        assert (Hsum : U64.add e len = e + len) by (apply add_small; lia).
        apply mpmc_stream_inv_intro; simpl; try assumption.
        -- rewrite Hsum. split; [lia|]. split; [reflexivity|]. now rewrite <- He.
        -- rewrite Hsum. intros p Hp. apply Dst. lia.
        -- exact I.
        -- intros j c2 _ Hj. apply (call_bytes_cursors s); [reflexivity..|]. exact (Dcd j c2 Hj).
        -- constructor; [exact Hown|exact Drd].
      * quiet_stream Tw Tr Dst Dcd Drd.
    + discriminate.
Qed.

Lemma mpmc_stream_inv_start (cap : Z) (cv : bool) (m : mem) (calls : list Mpmc.call) :
  Forall (fresh_call cap) calls ->
  mpmc_stream_inv (mpmc_start cap cv m calls, [], []).
Proof.
  intros Hfresh. unfold mpmc_stream_inv. simpl.
  split; [reflexivity|]. split; [reflexivity|]. split; [intros p Hp; lia|].
  split; [|constructor].
  intros i cl Hi. pose proof (Forall_lookup_1 _ _ _ _ Hfresh Hi) as [Hpc _].
  destruct cl; simpl in *; subst; exact I.
Qed.

Lemma mpmc_reach_logged_inv (c0 : Mpmc.config)
    (x : Mpmc.config * list transfer * list transfer) :
  power_of_two (Mpmc.buf_size_ (Mpmc.shared c0)) ->
  mpmc_reach_logged c0 x -> mpmc_inv c0 -> mpmc_stream_inv (c0, [], []) ->
  mpmc_stream_inv x.
Proof.
  intros Hpow. induction 1 as [|x i sp x' Hreach IH Hroom Hstep]; intros H0 D0; [auto|].
  destruct (mpmc_reach_inv _ _ (mpmc_reach_logged_reach _ _ Hreach) H0) as [Hinv Hsz].
  apply (logged_step_stream_inv i sp x x'); auto.
  now rewrite Hsz.
Qed.

(** The byte of the stream at a position a committed write covers is the
    byte that write stored for it. *)
Lemma stream_of_write (w : list transfer) (top e len : Z) (buf : mem) (k : Z) :
  tiles (map fst w) top -> In ((e, len), buf) w -> 0 <= k < len ->
  stream_of w (e + k) = buf k.
Proof.
  revert top. induction w as [|[[e0 l0] b0] w IH]; simpl; intros top Ht Hin Hk; [contradiction|].
  destruct Ht as (Hl0 & Htop & Hrest).
  destruct Hin as [Heq|Hin].
  - injection Heq as -> -> ->. destruct (Z.leb_spec e (e + k)); [|lia].
    f_equal. lia.
  - destruct (tiles_bounds _ _ Hrest) as [_ Hall].
    specialize (Hall (e, len) (in_map fst _ _ Hin)). simpl in Hall.
    destruct (Z.leb_spec e0 (e + k)); [lia|]. now apply (IH e0).
Qed.

Lemma logged_step_fst (i : nat) (sp : bool) (x : Mpmc.config * list transfer * list transfer) :
  Mpmc.sys_step i sp (fst (fst x)) =
  match logged_step i sp x with Some x' => Some (fst (fst x')) | None => None end.
Proof.
  destruct x as [[c w] r]. unfold logged_step, Mpmc.sys_step. simpl.
  destruct (Mpmc.pool c !! i) as [cl|]; [|reflexivity].
  now destruct (Mpmc.call_step sp (Mpmc.shared c) cl) as [[[s' cl'] ev]|].
Qed.

Lemma run_logged_reach (sched : list (nat * bool)) (c0 : Mpmc.config)
    (x : Mpmc.config * list transfer * list transfer) :
  mpmc_reach_logged c0 x -> headroom_along sched (fst (fst x)) = true ->
  mpmc_reach_logged c0 (run_logged sched x).
Proof.
  revert x. induction sched as [|[i sp] rest IH]; intros x Hx H; simpl in *; [exact Hx|].
  rewrite logged_step_fst in H.
  destruct (logged_step i sp x) as [x'|] eqn:Hstep.
  - apply andb_true_iff in H as [Hroom Hrest].
    apply IH; [|exact Hrest].
    apply (logged_next c0 x i sp x' Hx); [|exact Hstep].
    unfold mpmc_headroom. now apply Z.ltb_lt.
  - now apply IH.
Qed.

(** X10: Writers and readers of any lengths up to the capacity, in any
    interleaving on a buffer of power-of-two capacity, each step taken where
    [in_ + buf_size_ < 2^64].  The writes, in the order of their commits,
    lie end to end from 0 up to [get_total_in()] and make up a stream in
    which every write keeps the bytes it stored; the reads, in the order of
    their commits, lie end to end from 0 up to [get_total_out()], and each
    read was given the bytes of the stream at the positions of its range.
    So every byte written is delivered at most once, in order, and
    unchanged, also where a read spans the end of one write and the start of
    the next or the end of the storage. *)
Theorem mpmc_byte_stream (cap : Z) (cv : bool) (m : mem) (calls : list Mpmc.call)
    (c : Mpmc.config) (w r : list transfer) :
  power_of_two cap -> Forall (fresh_call cap) calls ->
  mpmc_reach_logged (mpmc_start cap cv m calls) (c, w, r) ->
  tiles (map fst w) (Mpmc.get_total_in (Mpmc.shared c)) /\
  tiles (map fst r) (Mpmc.get_total_out (Mpmc.shared c)) /\
  (forall e len buf k, In ((e, len), buf) w -> 0 <= k < len -> stream_of w (e + k) = buf k) /\
  (forall e len buf k, In ((e, len), buf) r -> 0 <= k < len -> buf k = stream_of w (e + k)).
Proof.
  intros Hpow Hfresh Hreach.
  pose proof (power_of_two_bounds _ Hpow) as Hb.
  assert (Hinv : mpmc_stream_inv (c, w, r)).
  { apply (mpmc_reach_logged_inv (mpmc_start cap cv m calls)); auto.
    - apply mpmc_inv_start; [lia|exact Hfresh].
    - now apply mpmc_stream_inv_start. }
  unfold mpmc_stream_inv in Hinv. destruct Hinv as (Tw & Tr & _ & _ & Drd).
  split; [exact Tw|]. split; [exact Tr|]. split.
  - intros e len buf k Hin Hk. now apply (stream_of_write w _ e len buf k Tw).
  - intros e len buf k Hin Hk.
    apply list_elem_of_In in Hin.
    exact (proj1 (Forall_forall _ _) Drd _ Hin k Hk).
Qed.

Lemma mpmc_byte_stream_witness :
  let calls := [Mpmc.put_call (region_of (list_byte_of_string "ABCDEF")) 6 Mpmc.top;
                Mpmc.put_call (region_of (list_byte_of_string "ghij")) 4 Mpmc.top;
                Mpmc.get_call zeroed 8 Mpmc.top; Mpmc.get_call zeroed 2 Mpmc.top] in
  let sched := repeat (0%nat, false) 4 ++ repeat (1%nat, false) 5 ++
               repeat (0%nat, false) 2 ++ [(1%nat, false)] ++ one_by_one 2 2 in
  let x := run_logged sched (mpmc_start 16 false zeroed calls, [], []) in
  let c := fst (fst x) in
  let w := snd (fst x) in
  let r := snd x in
  (map fst w = [(6, 4); (0, 6)] /\ map fst r = [(8, 2); (0, 8)] /\
   map (fun t => bytes_of (snd t) (snd (fst t))) r =
     [list_byte_of_string "ij"; list_byte_of_string "ABCDEFgh"]) /\
  tiles (map fst w) (Mpmc.get_total_in (Mpmc.shared c)) /\
  tiles (map fst r) (Mpmc.get_total_out (Mpmc.shared c)) /\
  (forall e len buf k, In ((e, len), buf) w -> 0 <= k < len -> stream_of w (e + k) = buf k) /\
  (forall e len buf k, In ((e, len), buf) r -> 0 <= k < len -> buf k = stream_of w (e + k)).
Proof.
  intros calls sched x c w r.
  split; [repeat split; vm_compute; reflexivity|].
  apply (mpmc_byte_stream 16 false zeroed calls c w r).
  - exists 4. split; [lia | reflexivity].
  - repeat constructor; simpl; lia.
  - replace (c, w, r) with x by (unfold c, w, r; now destruct x as [[? ?] ?]).
    apply run_logged_reach; [apply logged_here|]. vm_compute. reflexivity.
Defined.

(** ** Reservations *)

(** X11: In any interleaving, each step taken where [in_ + buf_size_ < 2^64]:
    the ranges reserved on [in_] lie end to end from 0 up to [in_], and
    those reserved on [out_] from 0 up to [out_] -- no position is reserved
    twice and none is skipped; the range a call holds between its
    reservation and its commit is one of them; and the ranges two calls of
    the same side hold at the same time do not overlap. *)
Theorem reservations_exclusive (cap : Z) (cv : bool) (m : mem) (calls : list Mpmc.call)
    (c : Mpmc.config) :
  0 <= cap -> Forall (fresh_call cap) calls ->
  mpmc_reach (mpmc_start cap cv m calls) c ->
  let s := Mpmc.shared c in
  let h := Mpmc.history c in
  tiles (reserves_in h) (Mpmc.in_ s) /\ tiles (reserves_out h) (Mpmc.out_ s) /\
  (forall i cl sd e len,
     Mpmc.pool c !! i = Some cl -> claim cl = Some (sd, e, len) ->
     In (e, len) (if sd then reserves_in h else reserves_out h) /\
     0 <= e /\ 0 <= len /\ e + len <= (if sd then Mpmc.in_ s else Mpmc.out_ s)) /\
  (forall i j cl1 cl2 sd e1 len1 e2 len2,
     i <> j -> Mpmc.pool c !! i = Some cl1 -> Mpmc.pool c !! j = Some cl2 ->
     claim cl1 = Some (sd, e1, len1) -> claim cl2 = Some (sd, e2, len2) ->
     e1 + len1 <= e2 \/ e2 + len2 <= e1).
Proof.
  intros Hc Hfresh Hreach s h.
  assert (H0 : mpmc_inv (mpmc_start cap cv m calls))
    by (apply mpmc_inv_start; [lia | exact Hfresh]).
  destruct (mpmc_reach_inv _ _ Hreach H0) as [[Hch [Hoks Hap]] _].
  destruct (mpmc_reach_log_inv _ _ Hreach H0 (log_inv_start cap cv m calls Hfresh))
    as ((Hri & _) & (Hro & _) & Hlogged).
  fold s in Hch, Hoks, Hap, Hri, Hro. fold h in Hri, Hro, Hlogged.
  split; [exact Hri|]. split; [exact Hro|]. split.
  - intros i cl sd e len Hi Hclaim.
    pose proof (Hlogged i cl Hi) as Hl. unfold claim_logged in Hl. rewrite Hclaim in Hl.
    destruct (Hoks i cl Hi) as [Hlen Hok].
    destruct cl as [b l p|b l p]; destruct p; simpl in *; try discriminate;
      injection Hclaim as <- <- <-; (split; [exact Hl|lia]).
  - intros i j cl1 cl2 sd e1 len1 e2 len2 Hne Hi Hj H1 H2.
    pose proof (Hap i j cl1 cl2 Hne Hi Hj) as Ha. unfold apart in Ha.
    rewrite H1, H2 in Ha. now apply Ha.
Qed.

Lemma reservations_exclusive_witness :
  let calls := [Mpmc.put_call (fill "A") 6 Mpmc.top; Mpmc.put_call (fill "B") 4 Mpmc.top;
                Mpmc.get_call zeroed 3 Mpmc.top; Mpmc.get_call zeroed 3 Mpmc.top] in
  let sched := repeat (0%nat, false) 4 ++ repeat (1%nat, false) 5 ++
               repeat (0%nat, false) 2 ++ repeat (2%nat, false) 4 ++
               repeat (3%nat, false) 4 in
  let c := Mpmc.run sched (mpmc_start 16 false zeroed calls) in
  let s := Mpmc.shared c in
  let h := Mpmc.history c in
  (reserves_in h = [(6, 4); (0, 6)] /\ reserves_out h = [(3, 3); (0, 3)] /\
   map claim (Mpmc.pool c) =
     [None; Some (true, 6, 4); Some (false, 0, 3); Some (false, 3, 3)]) /\
  tiles (reserves_in h) (Mpmc.in_ s) /\ tiles (reserves_out h) (Mpmc.out_ s) /\
  (forall i cl sd e len,
     Mpmc.pool c !! i = Some cl -> claim cl = Some (sd, e, len) ->
     In (e, len) (if sd then reserves_in h else reserves_out h) /\
     0 <= e /\ 0 <= len /\ e + len <= (if sd then Mpmc.in_ s else Mpmc.out_ s)) /\
  (forall i j cl1 cl2 sd e1 len1 e2 len2,
     i <> j -> Mpmc.pool c !! i = Some cl1 -> Mpmc.pool c !! j = Some cl2 ->
     claim cl1 = Some (sd, e1, len1) -> claim cl2 = Some (sd, e2, len2) ->
     e1 + len1 <= e2 \/ e2 + len2 <= e1).
Proof.
  intros calls sched c s h.
  split; [repeat split; vm_compute; reflexivity|].
  apply (reservations_exclusive 16 false zeroed calls c).
  - lia.
  - repeat constructor; simpl; lia.
  - apply run_reach. vm_compute. reflexivity.
Defined.

(** ** The call that can commit *)

Lemma tiles_total (rs : list (Z * Z)) (top : Z) :
  tiles rs top -> top = sum_sizes (map snd (List.filter nonempty rs)).
Proof.
  revert top. induction rs as [|[e len] rs IH]; simpl; intros top H; [exact H|].
  destruct H as (Hlen & Htop & Hrest). specialize (IH e Hrest).
  unfold nonempty at 1. simpl. destruct (Z.ltb_spec 0 len); simpl; lia.
Qed.

(** While the committed cursor is behind the reservation cursor, a range of
    positive length that starts at the committed cursor has been reserved. *)
Lemma head_reservation (rs cs : list (Z * Z)) (reserved committed : Z) :
  side_inv rs cs reserved committed -> committed < reserved ->
  exists len, In (committed, len) rs /\ 0 < len /\ committed + len <= reserved.
Proof.
  intros (Hr & Hc & Heq). revert reserved Hr Heq.
  induction rs as [|[e len] rs IH]; simpl; intros top Hr Heq Hlt.
  - pose proof (tiles_bounds cs committed Hc). lia.
  - destruct Hr as (Hlen & Htop & Hrest).
    assert (Hb : below committed (e, len) = false).
    { unfold below, nonempty. simpl. destruct (Z.ltb_spec 0 len); [|reflexivity].
      simpl. apply Z.leb_gt. lia. }
    rewrite Hb in Heq.
    destruct (Z_lt_le_dec committed e) as [Hlo|Hhi].
    + destruct (IH e Hrest Heq Hlo) as (l & Hin & Hl & Hend).
      exists l. split; [now right|]. lia.
    + rewrite (below_all committed rs e Hrest Hhi) in Heq.
      pose proof (tiles_total cs committed Hc) as T1.
      pose proof (tiles_total rs e Hrest) as T2.
      rewrite Heq in T1. assert (He : e = committed) by lia. clear T1 T2. subst e.
      exists len. split; [now left|]. lia.
Qed.

Lemma quiet_step_claim (sp : bool) (s s' : Mpmc.ringbuffer_mpmc) (cl cl' : Mpmc.call)
    (x : bool * Z * Z) :
  Mpmc.call_step sp s cl = Some (s', cl', Mpmc.tau) ->
  claim cl = Some x -> claim cl' = Some x.
Proof.
  intros H Hc.
  destruct cl as [b l p|b l p]; destruct p as [| |e|e|e|e|]; simpl in Hc; try discriminate;
    simpl in H.
  - injection H as <- <-. exact Hc.
  - destruct ((Mpmc.real_in_ s =? e) && negb sp); [discriminate|].
    injection H as <- <-. exact Hc.
  - injection H as <- <-. exact Hc.
  - destruct ((Mpmc.real_out_ s =? e) && negb sp); [discriminate|].
    injection H as <- <-. exact Hc.
Qed.

Lemma side_held_step (pl : list Mpmc.call) (i : nat) (cl cl' : Mpmc.call) (sd : bool)
    (rs : list (Z * Z)) (cm cm' : Z) :
  side_held pl sd rs cm -> pl !! i = Some cl -> cm <= cm' ->
  (forall e len, claim cl = Some (sd, e, len) -> 0 < len -> cm' <= e ->
                 claim cl' = Some (sd, e, len)) ->
  side_held (<[i := cl']> pl) sd rs cm'.
Proof.
  intros Hheld Hi Hle Hkeep e len Hin Hlen Hcm.
  destruct (Hheld e len Hin Hlen) as (j & clj & Hj & Hclaim); [lia|].
  destruct (decide (j = i)) as [->|Hne].
  - rewrite Hi in Hj. injection Hj as <-.
    exists i, cl'. split; [|now apply Hkeep].
    apply list_lookup_insert_eq. now apply lookup_lt_Some in Hi.
  - exists j, clj. split; [|exact Hclaim].
    rewrite list_lookup_insert_ne by auto. exact Hj.
Qed.

Lemma side_held_reserve (pl : list Mpmc.call) (i : nat) (cl' : Mpmc.call) (sd : bool)
    (rs : list (Z * Z)) (cm e len : Z) :
  side_held (<[i := cl']> pl) sd rs cm -> (i < length pl)%nat ->
  claim cl' = Some (sd, e, len) ->
  side_held (<[i := cl']> pl) sd ((e, len) :: rs) cm.
Proof.
  intros Hheld Hi Hclaim e2 len2 [Heq|Hin] Hlen Hcm.
  - injection Heq as <- <-. exists i, cl'. split; [|exact Hclaim].
    now apply list_lookup_insert_eq.
  - now apply Hheld.
Qed.

Lemma sys_step_held_inv (i : nat) (sp : bool) (c c' : Mpmc.config) :
  mpmc_inv c -> held_inv c -> mpmc_headroom (Mpmc.shared c) ->
  Mpmc.sys_step i sp c = Some c' -> held_inv c'.
Proof.
  intros [Hch [Hoks _]] (Hin & Hout) Hroom Hstep. unfold Mpmc.sys_step in Hstep.
  destruct (Mpmc.pool c !! i) as [cl|] eqn:Hi; [|discriminate].
  destruct (Mpmc.call_step sp (Mpmc.shared c) cl) as [[[s1 cl1] ev]|] eqn:E; [|discriminate].
  injection Hstep as <-.
  pose proof (Hoks i cl Hi) as [Hlen Hok].
  pose proof (lookup_lt_Some _ _ _ Hi) as Hlt.
  destruct (call_step_shape sp _ _ _ _ _ Hch Hroom (conj Hlen Hok) E)
    as [Q1 Q2 Q3 Q4 Hclaim
       | buf len e Ecl Ecl1 He Q1 Q2 Q3 Q4
       | buf len e Ecl Ecl1 He Q1 Q2 Q3 Q4
       | buf buf' len e Ecl Ecl1 He Q1 Q2 Q3 Q4
       | buf buf' len e Ecl Ecl1 He Q1 Q2 Q3 Q4];
    try subst cl; try subst cl1;
    unfold held_inv; simpl; simpl in Hlen, Hok.
  - rewrite Q2, Q4. split.
    + apply (side_held_step _ i cl _ _ _ _ _ Hin Hi); [lia|].
      intros e len Hc _ _. exact (quiet_step_claim _ _ _ _ _ _ E Hc).
    + apply (side_held_step _ i cl _ _ _ _ _ Hout Hi); [lia|].
      intros e len Hc _ _. exact (quiet_step_claim _ _ _ _ _ _ E Hc).
  - rewrite Q2, Q4. split.
    + apply side_held_reserve; [|exact Hlt|reflexivity].
      apply (side_held_step _ i _ _ _ _ _ _ Hin Hi); [lia|]. discriminate.
    + apply (side_held_step _ i _ _ _ _ _ _ Hout Hi); [lia|]. discriminate.
  - rewrite Q1, Q4. split.
    + apply (side_held_step _ i _ _ _ _ _ _ Hin Hi); [lia|].
      simpl. intros e2 len2 Hc Hl2 Hcm. injection Hc as <- <-. lia.
    + apply (side_held_step _ i _ _ _ _ _ _ Hout Hi); [lia|]. discriminate.
  - rewrite Q2, Q4. split.
    + apply (side_held_step _ i _ _ _ _ _ _ Hin Hi); [lia|]. discriminate.
    + apply side_held_reserve; [|exact Hlt|reflexivity].
      apply (side_held_step _ i _ _ _ _ _ _ Hout Hi); [lia|]. discriminate.
  - rewrite Q1, Q4. split.
    + apply (side_held_step _ i _ _ _ _ _ _ Hin Hi); [lia|]. discriminate.
    + apply (side_held_step _ i _ _ _ _ _ _ Hout Hi); [lia|].
      simpl. intros e2 len2 Hc Hl2 Hcm. injection Hc as <- <-. lia.
Qed.

Lemma held_inv_start (cap : Z) (cv : bool) (m : mem) (calls : list Mpmc.call) :
  held_inv (mpmc_start cap cv m calls).
Proof. split; intros e len []. Qed.

Lemma mpmc_reach_held_inv (c0 c : Mpmc.config) :
  mpmc_reach c0 c -> mpmc_inv c0 -> held_inv c0 -> held_inv c.
Proof.
  induction 1 as [|c i sp c' Hreach IH Hroom Hstep]; intros H0 L0; [auto|].
  destruct (mpmc_reach_inv _ _ Hreach H0) as [Hinv _].
  now apply (sys_step_held_inv i sp c c' Hinv (IH H0 L0) Hroom).
Qed.

Lemma put_copy_step (c : Mpmc.config) (i : nat) (buf : mem) (len e : Z) :
  Mpmc.pool c !! i = Some (Mpmc.put_call buf len (Mpmc.reserved e)) ->
  Mpmc.sys_step i false c =
  Some (Mpmc.mk_config
          (Mpmc.set_buffer (Mpmc.shared c) (Mpmc.copy_in (Mpmc.shared c) e buf len))
          (<[i := Mpmc.put_call buf len (Mpmc.copied e)]> (Mpmc.pool c)) (Mpmc.history c)).
Proof. intros Hi. unfold Mpmc.sys_step. rewrite Hi. reflexivity. Qed.

Lemma put_commit_step (c : Mpmc.config) (i : nat) (buf : mem) (len : Z) :
  Mpmc.pool c !! i =
    Some (Mpmc.put_call buf len (Mpmc.copied (Mpmc.real_in_ (Mpmc.shared c)))) ->
  Mpmc.sys_step i false c =
  Some (Mpmc.mk_config
          (Mpmc.set_real_in (Mpmc.shared c) (U64.add (Mpmc.real_in_ (Mpmc.shared c)) len))
          (<[i := Mpmc.put_call buf len Mpmc.returned]> (Mpmc.pool c))
          (Mpmc.ev_commit_in (Mpmc.real_in_ (Mpmc.shared c)) len :: Mpmc.history c)).
Proof.
  intros Hi. unfold Mpmc.sys_step. rewrite Hi. simpl. rewrite Z.eqb_refl. reflexivity.
Qed.

Lemma get_copy_step (c : Mpmc.config) (i : nat) (buf : mem) (len e : Z) :
  Mpmc.pool c !! i = Some (Mpmc.get_call buf len (Mpmc.reserved e)) ->
  Mpmc.sys_step i false c =
  Some (Mpmc.mk_config (Mpmc.shared c)
          (<[i := Mpmc.get_call (Mpmc.copy_out (Mpmc.shared c) e buf len) len (Mpmc.copied e)]>
             (Mpmc.pool c))
          (Mpmc.history c)).
Proof. intros Hi. unfold Mpmc.sys_step. rewrite Hi. reflexivity. Qed.

Lemma get_commit_step (c : Mpmc.config) (i : nat) (buf : mem) (len : Z) :
  Mpmc.pool c !! i =
    Some (Mpmc.get_call buf len (Mpmc.copied (Mpmc.real_out_ (Mpmc.shared c)))) ->
  Mpmc.sys_step i false c =
  Some (Mpmc.mk_config
          (Mpmc.set_real_out (Mpmc.shared c) (U64.add (Mpmc.real_out_ (Mpmc.shared c)) len))
          (<[i := Mpmc.get_call buf len Mpmc.returned]> (Mpmc.pool c))
          (Mpmc.ev_commit_out (Mpmc.real_out_ (Mpmc.shared c)) len :: Mpmc.history c)).
Proof.
  intros Hi. unfold Mpmc.sys_step. rewrite Hi. simpl. rewrite Z.eqb_refl. reflexivity.
Qed.

Lemma head_writer_commits (c : Mpmc.config) (i : nat) (buf : mem) (len : Z) (p : Mpmc.pc) :
  Mpmc.pool c !! i = Some (Mpmc.put_call buf len p) ->
  p = Mpmc.reserved (Mpmc.real_in_ (Mpmc.shared c)) \/
  p = Mpmc.copied (Mpmc.real_in_ (Mpmc.shared c)) ->
  0 <= Mpmc.real_in_ (Mpmc.shared c) + len < U64.modulus ->
  let c' := Mpmc.run (repeat (i, false) (steps_to_commit p)) c in
  Mpmc.real_in_ (Mpmc.shared c') = Mpmc.real_in_ (Mpmc.shared c) + len /\
  Mpmc.pool c' !! i = Some (Mpmc.put_call buf len Mpmc.returned).
Proof.
  intros Hi Hp Hsum. pose proof (lookup_lt_Some _ _ _ Hi) as Hlt.
  destruct Hp as [-> | ->]; simpl.
  - rewrite (put_copy_step c i buf len _ Hi).
    rewrite (put_commit_step _ i buf len) by (simpl; now apply list_lookup_insert_eq).
    simpl. rewrite add_small by exact Hsum. split; [reflexivity|].
    apply list_lookup_insert_eq. now rewrite length_insert.
  - rewrite (put_commit_step c i buf len Hi).
    simpl. rewrite add_small by exact Hsum. split; [reflexivity|].
    now apply list_lookup_insert_eq.
Qed.

Lemma head_reader_commits (c : Mpmc.config) (i : nat) (buf : mem) (len : Z) (p : Mpmc.pc) :
  Mpmc.pool c !! i = Some (Mpmc.get_call buf len p) ->
  p = Mpmc.reserved (Mpmc.real_out_ (Mpmc.shared c)) \/
  p = Mpmc.copied (Mpmc.real_out_ (Mpmc.shared c)) ->
  0 <= Mpmc.real_out_ (Mpmc.shared c) + len < U64.modulus ->
  let c' := Mpmc.run (repeat (i, false) (steps_to_commit p)) c in
  Mpmc.real_out_ (Mpmc.shared c') = Mpmc.real_out_ (Mpmc.shared c) + len /\
  exists buf', Mpmc.pool c' !! i = Some (Mpmc.get_call buf' len Mpmc.returned).
Proof.
  intros Hi Hp Hsum. pose proof (lookup_lt_Some _ _ _ Hi) as Hlt.
  destruct Hp as [-> | ->]; simpl.
  - rewrite (get_copy_step c i buf len _ Hi).
    rewrite (get_commit_step _ i _ len) by (simpl; now apply list_lookup_insert_eq).
    simpl. rewrite add_small by exact Hsum. split; [reflexivity|].
    eexists. apply list_lookup_insert_eq. now rewrite length_insert.
  - rewrite (get_commit_step c i buf len Hi).
    simpl. rewrite add_small by exact Hsum. split; [reflexivity|].
    eexists. now apply list_lookup_insert_eq.
Qed.

Lemma head_holder (cap : Z) (cv : bool) (m : mem) (calls : list Mpmc.call)
    (c : Mpmc.config) (sd : bool) :
  0 <= cap -> Forall (fresh_call cap) calls ->
  mpmc_reach (mpmc_start cap cv m calls) c ->
  let s := Mpmc.shared c in
  let committed := if sd then Mpmc.real_in_ s else Mpmc.real_out_ s in
  let reserved := if sd then Mpmc.in_ s else Mpmc.out_ s in
  committed < reserved ->
  exists i cl len,
    Mpmc.pool c !! i = Some cl /\ claim cl = Some (sd, committed, len) /\
    0 < len /\ committed + len <= reserved.
Proof.
  intros Hc Hfresh Hreach s committed reserved Hlt.
  assert (H0 : mpmc_inv (mpmc_start cap cv m calls))
    by (apply mpmc_inv_start; [lia | exact Hfresh]).
  destruct (mpmc_reach_log_inv _ _ Hreach H0 (log_inv_start cap cv m calls Hfresh))
    as (Hri & Hro & _).
  destruct (mpmc_reach_held_inv _ _ Hreach H0 (held_inv_start cap cv m calls))
    as (Hhi & Hho).
  destruct sd.
  - destruct (head_reservation _ _ _ _ Hri Hlt) as (len & Hin & Hlen & Hend).
    destruct (Hhi _ _ Hin Hlen) as (i & cl & Hi & Hclaim); [lia|].
    exists i, cl, len. auto.
  - destruct (head_reservation _ _ _ _ Hro Hlt) as (len & Hin & Hlen & Hend).
    destruct (Hho _ _ Hin Hlen) as (i & cl & Hi & Hclaim); [lia|].
    exists i, cl, len. auto.
Qed.

(** X12: In any interleaving, each step taken where [in_ + buf_size_ < 2^64]:
    while [real_in_] is behind [in_], a call of [put] in progress holds the
    range of positive length that starts at [real_in_], and its remaining
    steps -- the copy if it has not copied yet, then the commit
    compare-exchange, if that does not fail spuriously -- move [real_in_] to
    the end of that range and make the call return.  The same holds of
    [real_out_], [out_] and a call of [get].  So the commit loops cannot
    all wait for each other. *)
Theorem commit_can_proceed (cap : Z) (cv : bool) (m : mem) (calls : list Mpmc.call)
    (c : Mpmc.config) :
  0 <= cap -> Forall (fresh_call cap) calls ->
  mpmc_reach (mpmc_start cap cv m calls) c ->
  mpmc_headroom (Mpmc.shared c) ->
  let s := Mpmc.shared c in
  (Mpmc.real_in_ s < Mpmc.in_ s ->
   exists i buf len p,
     Mpmc.pool c !! i = Some (Mpmc.put_call buf len p) /\
     (p = Mpmc.reserved (Mpmc.real_in_ s) \/ p = Mpmc.copied (Mpmc.real_in_ s)) /\
     0 < len /\ Mpmc.real_in_ s + len <= Mpmc.in_ s /\
     let c' := Mpmc.run (repeat (i, false) (steps_to_commit p)) c in
     Mpmc.real_in_ (Mpmc.shared c') = Mpmc.real_in_ s + len /\
     Mpmc.pool c' !! i = Some (Mpmc.put_call buf len Mpmc.returned)) /\
  (Mpmc.real_out_ s < Mpmc.out_ s ->
   exists i buf len p,
     Mpmc.pool c !! i = Some (Mpmc.get_call buf len p) /\
     (p = Mpmc.reserved (Mpmc.real_out_ s) \/ p = Mpmc.copied (Mpmc.real_out_ s)) /\
     0 < len /\ Mpmc.real_out_ s + len <= Mpmc.out_ s /\
     let c' := Mpmc.run (repeat (i, false) (steps_to_commit p)) c in
     Mpmc.real_out_ (Mpmc.shared c') = Mpmc.real_out_ s + len /\
     exists buf', Mpmc.pool c' !! i = Some (Mpmc.get_call buf' len Mpmc.returned)).
Proof.
  intros Hc Hfresh Hreach Hroom s.
  assert (H0 : mpmc_inv (mpmc_start cap cv m calls))
    by (apply mpmc_inv_start; [lia | exact Hfresh]).
  destruct (mpmc_reach_inv _ _ Hreach H0) as [[Hch _] _].
  fold s in Hch. unfold mpmc_chain in Hch. unfold mpmc_headroom in Hroom. fold s in Hroom.
  split; intros Hlt.
  - destruct (head_holder cap cv m calls c true Hc Hfresh Hreach Hlt)
      as (i & cl & len & Hi & Hclaim & Hlen & Hend).
    fold s in Hclaim, Hend.
    destruct cl as [b l p|b l p]; destruct p as [| |e|e|e|e|]; simpl in Hclaim;
      try discriminate; injection Hclaim as -> ->;
      exists i, b, len; eexists; (split; [exact Hi|]);
      (split; [auto|]); (split; [exact Hlen|]); (split; [exact Hend|]);
      apply (head_writer_commits c i b len _ Hi); auto; fold s; lia.
  - destruct (head_holder cap cv m calls c false Hc Hfresh Hreach Hlt)
      as (i & cl & len & Hi & Hclaim & Hlen & Hend).
    fold s in Hclaim, Hend.
    destruct cl as [b l p|b l p]; destruct p as [| |e|e|e|e|]; simpl in Hclaim;
      try discriminate; injection Hclaim as -> ->;
      exists i, b, len; eexists; (split; [exact Hi|]);
      (split; [auto|]); (split; [exact Hlen|]); (split; [exact Hend|]);
      apply (head_reader_commits c i b len _ Hi); auto; fold s; lia.
Qed.

Lemma commit_can_proceed_witness :
  let calls := [Mpmc.put_call (fill "A") 6 Mpmc.top; Mpmc.get_call zeroed 3 Mpmc.top;
                Mpmc.put_call (fill "B") 4 Mpmc.top; Mpmc.put_call (fill "C") 2 Mpmc.top] in
  let sched := one_by_one 0 1 ++ repeat (1%nat, false) 4 ++ repeat (2%nat, false) 4 ++
               repeat (3%nat, false) 5 in
  let c := Mpmc.run sched (mpmc_start 16 false zeroed calls) in
  let s := Mpmc.shared c in
  (Mpmc.real_in_ s = 6 /\ Mpmc.in_ s = 12 /\ Mpmc.real_out_ s = 0 /\ Mpmc.out_ s = 3 /\
   map Mpmc.call_pc (Mpmc.pool c) =
     [Mpmc.returned; Mpmc.reserved 0; Mpmc.reserved 6; Mpmc.copied 10]) /\
  (Mpmc.real_in_ s < Mpmc.in_ s ->
   exists i buf len p,
     Mpmc.pool c !! i = Some (Mpmc.put_call buf len p) /\
     (p = Mpmc.reserved (Mpmc.real_in_ s) \/ p = Mpmc.copied (Mpmc.real_in_ s)) /\
     0 < len /\ Mpmc.real_in_ s + len <= Mpmc.in_ s /\
     let c' := Mpmc.run (repeat (i, false) (steps_to_commit p)) c in
     Mpmc.real_in_ (Mpmc.shared c') = Mpmc.real_in_ s + len /\
     Mpmc.pool c' !! i = Some (Mpmc.put_call buf len Mpmc.returned)) /\
  (Mpmc.real_out_ s < Mpmc.out_ s ->
   exists i buf len p,
     Mpmc.pool c !! i = Some (Mpmc.get_call buf len p) /\
     (p = Mpmc.reserved (Mpmc.real_out_ s) \/ p = Mpmc.copied (Mpmc.real_out_ s)) /\
     0 < len /\ Mpmc.real_out_ s + len <= Mpmc.out_ s /\
     let c' := Mpmc.run (repeat (i, false) (steps_to_commit p)) c in
     Mpmc.real_out_ (Mpmc.shared c') = Mpmc.real_out_ s + len /\
     exists buf', Mpmc.pool c' !! i = Some (Mpmc.get_call buf' len Mpmc.returned)).
Proof.
  intros calls sched c s.
  split; [repeat split; vm_compute; reflexivity|].
  apply (commit_can_proceed 16 false zeroed calls c).
  - lia.
  - repeat constructor; simpl; lia.
  - apply run_reach. vm_compute. reflexivity.
  - unfold mpmc_headroom. vm_compute. reflexivity.
Defined.

(** ** The counters under interleaving *)

Lemma sum_sizes_insert {A : Type} (f : A -> Z) (l : list A) (i : nat) (x y : A) :
  l !! i = Some x ->
  sum_sizes (map f (<[i := y]> l)) = sum_sizes (map f l) - f x + f y.
Proof.
  revert i. induction l as [|a l IH]; intros i Hi; [discriminate|].
  destruct i as [|i]; simpl in *.
  - injection Hi as ->. lia.
  - rewrite (IH i Hi). lia.
Qed.

Lemma quiet_step_returned (sp : bool) (s s' : Mpmc.ringbuffer_mpmc) (cl cl' : Mpmc.call)
    (sd : bool) :
  Mpmc.call_step sp s cl = Some (s', cl', Mpmc.tau) ->
  returned_len sd cl' = returned_len sd cl.
Proof.
  intros H.
  destruct cl as [b l p|b l p]; destruct p as [| |e|e|e|e|]; simpl in H;
    repeat match type of H with
           | context [if ?b then _ else _] => destruct b
           end;
    try discriminate; injection H as <- <-; reflexivity.
Qed.

Lemma sys_step_counted (i : nat) (sp : bool) (c c' : Mpmc.config) :
  mpmc_inv c -> counted c -> mpmc_headroom (Mpmc.shared c) ->
  Mpmc.sys_step i sp c = Some c' -> counted c'.
Proof.
  intros [Hch [Hoks _]] (Hin & Hout) Hroom Hstep. unfold Mpmc.sys_step in Hstep.
  destruct (Mpmc.pool c !! i) as [cl|] eqn:Hi; [|discriminate].
  destruct (Mpmc.call_step sp (Mpmc.shared c) cl) as [[[s1 cl1] ev]|] eqn:E; [|discriminate].
  injection Hstep as <-.
  pose proof (Hoks i cl Hi) as [Hlen Hok].
  unfold counted, returned_bytes in *. simpl.
  rewrite !(sum_sizes_insert _ _ i cl cl1 Hi).
  destruct (call_step_shape sp _ _ _ _ _ Hch Hroom (conj Hlen Hok) E)
    as [Q1 Q2 Q3 Q4 Hclaim
       | buf len e Ecl Ecl1 He Q1 Q2 Q3 Q4
       | buf len e Ecl Ecl1 He Q1 Q2 Q3 Q4
       | buf buf' len e Ecl Ecl1 He Q1 Q2 Q3 Q4
       | buf buf' len e Ecl Ecl1 He Q1 Q2 Q3 Q4];
    try subst cl; try subst cl1; simpl.
  - rewrite !(quiet_step_returned _ _ _ _ _ _ E). lia.
  - lia.
  - lia.
  - lia.
  - lia.
Qed.

Lemma counted_start (cap : Z) (cv : bool) (m : mem) (calls : list Mpmc.call) :
  Forall (fresh_call cap) calls -> counted (mpmc_start cap cv m calls).
Proof.
  intros Hfresh. unfold counted, returned_bytes. simpl.
  assert (H : forall sd, sum_sizes (map (returned_len sd) calls) = 0).
  { intros sd. induction Hfresh as [|cl calls [Hpc _] _ IH]; [reflexivity|].
    simpl. rewrite IH. destruct cl; simpl in Hpc; subst; reflexivity. }
  now rewrite !H.
Qed.

Lemma mpmc_reach_counted (c0 c : Mpmc.config) :
  mpmc_reach c0 c -> mpmc_inv c0 -> counted c0 -> counted c.
Proof.
  induction 1 as [|c i sp c' Hreach IH Hroom Hstep]; intros H0 L0; [auto|].
  destruct (mpmc_reach_inv _ _ Hreach H0) as [Hinv _].
  now apply (sys_step_counted i sp c c' Hinv (IH H0 L0) Hroom).
Qed.

(** X13: In any interleaving, each step taken where [in_ + buf_size_ < 2^64]:
    [get_total_in()] is the number of bytes of the calls of [write] that
    have returned, and [get_total_out()] that of the calls of [read] that
    have returned; a call that has reserved or copied and not yet committed
    is not counted. *)
Theorem totals_count_returned_calls (cap : Z) (cv : bool) (m : mem)
    (calls : list Mpmc.call) (c : Mpmc.config) :
  0 <= cap -> Forall (fresh_call cap) calls ->
  mpmc_reach (mpmc_start cap cv m calls) c ->
  Mpmc.get_total_in (Mpmc.shared c) = returned_bytes true (Mpmc.pool c) /\
  Mpmc.get_total_out (Mpmc.shared c) = returned_bytes false (Mpmc.pool c).
Proof.
  intros Hc Hfresh Hreach.
  apply (mpmc_reach_counted _ _ Hreach).
  - apply mpmc_inv_start; [lia | exact Hfresh].
  - now apply counted_start.
Qed.

Lemma totals_count_returned_calls_witness :
  let calls := [Mpmc.put_call (fill "A") 6 Mpmc.top; Mpmc.get_call zeroed 3 Mpmc.top;
                Mpmc.put_call (fill "B") 4 Mpmc.top; Mpmc.put_call (fill "C") 2 Mpmc.top] in
  let sched := one_by_one 0 2 ++ repeat (3%nat, false) 5 ++ repeat (2%nat, false) 6 in
  let c := Mpmc.run sched (mpmc_start 16 false zeroed calls) in
  (map Mpmc.call_pc (Mpmc.pool c) =
     [Mpmc.returned; Mpmc.returned; Mpmc.copied 8; Mpmc.copied 6] /\
   Mpmc.in_ (Mpmc.shared c) = 12 /\ returned_bytes true (Mpmc.pool c) = 6) /\
  Mpmc.get_total_in (Mpmc.shared c) = returned_bytes true (Mpmc.pool c) /\
  Mpmc.get_total_out (Mpmc.shared c) = returned_bytes false (Mpmc.pool c).
Proof.
  intros calls sched c.
  split; [repeat split; vm_compute; reflexivity|].
  apply (totals_count_returned_calls 16 false zeroed calls c).
  - lia.
  - repeat constructor; simpl; lia.
  - apply run_reach. vm_compute. reflexivity.
Defined.

(** ** Calls of one length cannot all wait *)

Lemma put_alone_none (fuel : nat) (s : Mpmc.ringbuffer_mpmc) (buf : mem) (len : Z) (p : Mpmc.pc) :
  Mpmc.put_step false s buf len p = None -> Mpmc.put_alone fuel s buf len p = (s, p).
Proof. intros H. destruct fuel; simpl; [reflexivity|]. now rewrite H. Qed.

Lemma get_alone_none (fuel : nat) (s : Mpmc.ringbuffer_mpmc) (buf : mem) (len : Z) (p : Mpmc.pc) :
  Mpmc.get_step false s buf len p = None -> Mpmc.get_alone fuel s buf len p = (s, buf, p).
Proof. intros H. destruct fuel; simpl; [reflexivity|]. now rewrite H. Qed.

Lemma put_alone_S (f : nat) (s : Mpmc.ringbuffer_mpmc) (buf : mem) (len : Z) (p : Mpmc.pc) :
  Mpmc.put_alone (S f) s buf len p =
  match Mpmc.put_step false s buf len p with
  | Some (s', p', _) => Mpmc.put_alone f s' buf len p'
  | None => (s, p)
  end.
Proof. reflexivity. Qed.

Lemma get_alone_S (f : nat) (s : Mpmc.ringbuffer_mpmc) (buf : mem) (len : Z) (p : Mpmc.pc) :
  Mpmc.get_alone (S f) s buf len p =
  match Mpmc.get_step false s buf len p with
  | Some (s', buf', p', _) => Mpmc.get_alone f s' buf' len p'
  | None => (s, buf, p)
  end.
Proof. reflexivity. Qed.

(** The steps of one call, the others standing still, are the call run
    alone. *)
Lemma run_put_alone (n : nat) (c : Mpmc.config) (j : nat) (buf : mem) (len : Z) (p : Mpmc.pc) :
  Mpmc.pool c !! j = Some (Mpmc.put_call buf len p) ->
  Mpmc.pool (Mpmc.run (repeat (j, false) n) c) !! j =
  Some (Mpmc.put_call buf len (snd (Mpmc.put_alone n (Mpmc.shared c) buf len p))).
Proof.
  revert c p. induction n as [|n IH]; intros c p Hj; simpl; [exact Hj|].
  unfold Mpmc.sys_step. rewrite Hj. simpl.
  destruct (Mpmc.put_step false (Mpmc.shared c) buf len p) as [[[s' p'] ev]|] eqn:Hstep.
  - rewrite (IH _ p'); [reflexivity|]. simpl.
    apply list_lookup_insert_eq. now apply lookup_lt_Some in Hj.
  - rewrite (IH c p Hj). now rewrite put_alone_none.
Qed.

Lemma run_get_alone (n : nat) (c : Mpmc.config) (j : nat) (buf : mem) (len : Z) (p : Mpmc.pc) :
  Mpmc.pool c !! j = Some (Mpmc.get_call buf len p) ->
  exists buf',
    Mpmc.pool (Mpmc.run (repeat (j, false) n) c) !! j =
    Some (Mpmc.get_call buf' len (snd (Mpmc.get_alone n (Mpmc.shared c) buf len p))).
Proof.
  revert c buf p. induction n as [|n IH]; intros c buf p Hj; simpl; [now exists buf|].
  unfold Mpmc.sys_step. rewrite Hj. simpl.
  destruct (Mpmc.get_step false (Mpmc.shared c) buf len p) as [[[[s' b'] p'] ev]|] eqn:Hstep.
  - destruct (IH (Mpmc.mk_config s' (<[j := Mpmc.get_call b' len p']> (Mpmc.pool c))
                  (Mpmc.record ev (Mpmc.history c))) b' p') as [buf' H].
    { simpl. apply list_lookup_insert_eq. now apply lookup_lt_Some in Hj. }
    exists buf'. exact H.
  - destruct (IH c buf p Hj) as [buf' H]. exists buf'.
    rewrite H. now rewrite get_alone_none.
Qed.

Lemma put_alone_top_completes (s : Mpmc.ringbuffer_mpmc) (buf : mem) (len : Z) (fuel : nat) :
  Mpmc.room s (Mpmc.in_ s) len = true -> Mpmc.real_in_ s = Mpmc.in_ s -> (6 <= fuel)%nat ->
  snd (Mpmc.put_alone fuel s buf len Mpmc.top) = Mpmc.returned.
Proof.
  intros Hroom Heq Hfuel.
  pose proof (mpmc_write_alone_returns s buf len fuel Hroom Heq Hfuel) as H.
  unfold Mpmc.write in H.
  destruct (Mpmc.put_alone fuel s buf len Mpmc.top) as [s' p]. simpl.
  destruct p; try discriminate. reflexivity.
Qed.

Lemma get_alone_top_completes (s : Mpmc.ringbuffer_mpmc) (buf : mem) (len : Z) (fuel : nat) :
  Mpmc.avail s (Mpmc.out_ s) len = true -> Mpmc.real_out_ s = Mpmc.out_ s -> (6 <= fuel)%nat ->
  snd (Mpmc.get_alone fuel s buf len Mpmc.top) = Mpmc.returned.
Proof.
  intros Havail Heq Hfuel.
  pose proof (mpmc_read_alone_returns s buf len fuel Havail Heq Hfuel) as H.
  unfold Mpmc.read in H.
  destruct (Mpmc.get_alone fuel s buf len Mpmc.top) as [[s' b] p]. simpl.
  destruct p; try discriminate. reflexivity.
Qed.

(** With room and no reservation in flight, a call of [put] anywhere
    before its reservation returns within eight of its own steps. *)
Lemma put_alone_completes (s : Mpmc.ringbuffer_mpmc) (buf : mem) (len : Z) (p : Mpmc.pc)
    (fuel : nat) :
  Mpmc.room s (Mpmc.in_ s) len = true -> Mpmc.real_in_ s = Mpmc.in_ s -> (8 <= fuel)%nat ->
  claim (Mpmc.put_call buf len p) = None ->
  snd (Mpmc.put_alone fuel s buf len p) = Mpmc.returned.
Proof.
  intros Hroom Heq Hfuel Hclaim.
  assert (Htop : forall f, (6 <= f)%nat ->
            snd (Mpmc.put_alone f s buf len Mpmc.top) = Mpmc.returned)
    by (intros f Hf; now apply put_alone_top_completes).
  assert (Hres : forall f e, (3 <= f)%nat -> Mpmc.in_ s = e ->
            snd (Mpmc.put_alone f s buf len (Mpmc.checked e)) = Mpmc.returned).
  { intros f e Hf He. destruct f as [|[|[|f]]]; try lia. simpl.
    rewrite He, Z.eqb_refl. simpl. rewrite <- He, Heq, Z.eqb_refl. simpl.
    now rewrite put_alone_returned. }
  destruct p as [| |e|e|e|e|]; simpl in Hclaim; try discriminate.
  - apply Htop. lia.
  - destruct fuel as [|[|fuel]]; try lia.
    rewrite put_alone_S. cbn [Mpmc.put_step]. rewrite put_alone_S. cbn [Mpmc.put_step].
    rewrite Hroom. apply Hres; [lia|reflexivity].
  - destruct fuel as [|[|fuel]]; try lia.
    rewrite put_alone_S. cbn [Mpmc.put_step].
    destruct (Mpmc.room s e len).
    + destruct (Z.eq_dec (Mpmc.in_ s) e) as [He|He]; [apply Hres; [lia|exact He]|].
      rewrite put_alone_S. cbn [Mpmc.put_step].
      rewrite (proj2 (Z.eqb_neq _ _) He). cbn [andb]. apply Htop. lia.
    + apply Htop. lia.
  - destruct (Z.eq_dec (Mpmc.in_ s) e) as [He|He]; [apply Hres; [lia|exact He]|].
    destruct fuel as [|fuel]; try lia.
    rewrite put_alone_S. cbn [Mpmc.put_step].
    rewrite (proj2 (Z.eqb_neq _ _) He). cbn [andb]. apply Htop. lia.
  - now rewrite put_alone_returned.
Qed.

Lemma get_alone_completes (s : Mpmc.ringbuffer_mpmc) (buf : mem) (len : Z) (p : Mpmc.pc)
    (fuel : nat) :
  Mpmc.avail s (Mpmc.out_ s) len = true -> Mpmc.real_out_ s = Mpmc.out_ s -> (8 <= fuel)%nat ->
  claim (Mpmc.get_call buf len p) = None ->
  snd (Mpmc.get_alone fuel s buf len p) = Mpmc.returned.
Proof.
  intros Havail Heq Hfuel Hclaim.
  assert (Htop : forall f, (6 <= f)%nat ->
            snd (Mpmc.get_alone f s buf len Mpmc.top) = Mpmc.returned)
    by (intros f Hf; now apply get_alone_top_completes).
  assert (Hres : forall f e, (3 <= f)%nat -> Mpmc.out_ s = e ->
            snd (Mpmc.get_alone f s buf len (Mpmc.checked e)) = Mpmc.returned).
  { intros f e Hf He. destruct f as [|[|[|f]]]; try lia. simpl.
    rewrite He, Z.eqb_refl. simpl. rewrite <- He, Heq, Z.eqb_refl. simpl.
    now rewrite get_alone_returned. }
  destruct p as [| |e|e|e|e|]; simpl in Hclaim; try discriminate.
  - apply Htop. lia.
  - destruct fuel as [|[|fuel]]; try lia.
    rewrite get_alone_S. cbn [Mpmc.get_step]. rewrite get_alone_S. cbn [Mpmc.get_step].
    rewrite Havail. apply Hres; [lia|reflexivity].
  - destruct fuel as [|[|fuel]]; try lia.
    rewrite get_alone_S. cbn [Mpmc.get_step].
    destruct (Mpmc.avail s e len).
    + destruct (Z.eq_dec (Mpmc.out_ s) e) as [He|He]; [apply Hres; [lia|exact He]|].
      rewrite get_alone_S. cbn [Mpmc.get_step].
      rewrite (proj2 (Z.eqb_neq _ _) He). cbn [andb]. apply Htop. lia.
    + apply Htop. lia.
  - destruct (Z.eq_dec (Mpmc.out_ s) e) as [He|He]; [apply Hres; [lia|exact He]|].
    destruct fuel as [|fuel]; try lia.
    rewrite get_alone_S. cbn [Mpmc.get_step].
    rewrite (proj2 (Z.eqb_neq _ _) He). cbn [andb]. apply Htop. lia.
  - now rewrite get_alone_returned.
Qed.

Lemma quiescent_no_claim (s : Mpmc.ringbuffer_mpmc) (cl : Mpmc.call) :
  call_ok s cl -> 0 < Mpmc.call_len cl ->
  Mpmc.real_in_ s = Mpmc.in_ s -> Mpmc.real_out_ s = Mpmc.out_ s ->
  claim cl = None.
Proof.
  intros [_ Hok] Hlen Hi Ho.
  destruct cl as [b l p|b l p]; destruct p; simpl in *; try reflexivity; lia.
Qed.

(** X14: In Spinning mode ([enable_cv_ = false]): writers and readers that
    all move the same [len > 0] bytes, in any interleaving on a buffer of
    power-of-two capacity, each step taken where [in_ + buf_size_ < 2^64]:
    as long as a call of [write] and a call of [read] have not returned, one
    of the calls that have not returned returns within eight steps of its
    own if the others stand still and no compare-exchange fails spuriously.
    The spinning calls cannot all wait for each other.  Nothing is said of
    Blocking mode, where a call sleeps until it is notified. *)
Theorem uniform_calls_never_stuck (cap len : Z) (m msg : mem)
    (calls : list Mpmc.call) (c : Mpmc.config) :
  power_of_two cap -> 0 < len ->
  Forall (fresh_call cap) calls -> Forall (uniform_call len msg) calls ->
  mpmc_reach (mpmc_start cap false m calls) c ->
  mpmc_headroom (Mpmc.shared c) ->
  (exists i buf p, Mpmc.pool c !! i = Some (Mpmc.put_call buf len p) /\ p <> Mpmc.returned) ->
  (exists i buf p, Mpmc.pool c !! i = Some (Mpmc.get_call buf len p) /\ p <> Mpmc.returned) ->
  exists j n cl cl',
    (n <= 8)%nat /\
    Mpmc.pool c !! j = Some cl /\ Mpmc.call_pc cl <> Mpmc.returned /\
    Mpmc.pool (Mpmc.run (repeat (j, false) n) c) !! j = Some cl' /\
    Mpmc.call_pc cl' = Mpmc.returned.
Proof.
  intros Hpow Hlen Hfresh Hun Hreach Hroom (iw & bw & pw & Hw & Hpw) (ir & br & pr & Hr & Hpr).
  pose proof (power_of_two_bounds _ Hpow) as Hb.
  assert (H0 : mpmc_inv (mpmc_start cap false m calls))
    by (apply mpmc_inv_start; [lia | exact Hfresh]).
  destruct (mpmc_reach_inv _ _ Hreach H0) as [[Hch [Hoks _]] Hsz]. simpl in Hsz.
  destruct (uniform_reach cap len false m msg calls c Hpow Hlen Hfresh Hun Hreach)
    as (Din & Dout & _).
  unfold mpmc_chain in Hch. unfold mpmc_headroom in Hroom.
  destruct (Z_lt_le_dec (Mpmc.real_in_ (Mpmc.shared c)) (Mpmc.in_ (Mpmc.shared c)))
    as [Hlt|Hin].
  { destruct (head_holder cap false m calls c true ltac:(lia) Hfresh Hreach Hlt)
      as (i & cl & l & Hi & Hclaim & Hl & Hend).
    destruct cl as [b l' p|b l' p]; destruct p as [| |e|e|e|e|]; simpl in Hclaim;
      try discriminate; injection Hclaim as -> ->.
    - destruct (head_writer_commits c i b l _ Hi (or_introl eq_refl)) as [_ Hret]; [lia|].
      exists i, 2%nat. eexists. eexists. split; [lia|]. split; [exact Hi|].
      split; [discriminate|]. split; [exact Hret|reflexivity].
    - destruct (head_writer_commits c i b l _ Hi (or_intror eq_refl)) as [_ Hret]; [lia|].
      exists i, 1%nat. eexists. eexists. split; [lia|]. split; [exact Hi|].
      split; [discriminate|]. split; [exact Hret|reflexivity]. }
  destruct (Z_lt_le_dec (Mpmc.real_out_ (Mpmc.shared c)) (Mpmc.out_ (Mpmc.shared c)))
    as [Hlt|Hout].
  { destruct (head_holder cap false m calls c false ltac:(lia) Hfresh Hreach Hlt)
      as (i & cl & l & Hi & Hclaim & Hl & Hend).
    destruct cl as [b l' p|b l' p]; destruct p as [| |e|e|e|e|]; simpl in Hclaim;
      try discriminate; injection Hclaim as -> ->.
    - destruct (head_reader_commits c i b l _ Hi (or_introl eq_refl)) as [_ [b' Hret]]; [lia|].
      exists i, 2%nat. eexists. eexists. split; [lia|]. split; [exact Hi|].
      split; [discriminate|]. split; [exact Hret|reflexivity].
    - destruct (head_reader_commits c i b l _ Hi (or_intror eq_refl)) as [_ [b' Hret]]; [lia|].
      exists i, 1%nat. eexists. eexists. split; [lia|]. split; [exact Hi|].
      split; [discriminate|]. split; [exact Hret|reflexivity]. }
  assert (Qi : Mpmc.real_in_ (Mpmc.shared c) = Mpmc.in_ (Mpmc.shared c)) by lia.
  assert (Qo : Mpmc.real_out_ (Mpmc.shared c) = Mpmc.out_ (Mpmc.shared c)) by lia.
  destruct (Z_le_gt_dec (Mpmc.out_ (Mpmc.shared c) + len) (Mpmc.in_ (Mpmc.shared c)))
    as [Hdata|Hnone].
  - assert (Hclaim : claim (Mpmc.get_call br len pr) = None)
      by (apply (quiescent_no_claim (Mpmc.shared c)); auto; exact (Hoks ir _ Hr)).
    assert (Havail : Mpmc.avail (Mpmc.shared c) (Mpmc.out_ (Mpmc.shared c)) len = true)
      by (apply mpmc_avail_complete; lia).
    destruct (run_get_alone 8 c ir br len pr Hr) as [b' Hret].
    rewrite (get_alone_completes _ br len pr 8 Havail Qo) in Hret by (auto; lia).
    exists ir, 8%nat. eexists. eexists. split; [lia|]. split; [exact Hr|].
    split; [exact Hpr|]. split; [exact Hret|reflexivity].
  - assert (Heq : Mpmc.in_ (Mpmc.shared c) = Mpmc.out_ (Mpmc.shared c)).
    { pose proof (Z.divide_sub_r _ _ _ Din Dout) as Hd.
      apply Z.mod_divide in Hd; [|lia].
      rewrite Z.mod_small in Hd by lia. lia. }
    destruct (Hoks iw _ Hw) as [Hlw _]. simpl in Hlw.
    assert (Hclaim : claim (Mpmc.put_call bw len pw) = None)
      by (apply (quiescent_no_claim (Mpmc.shared c)); auto; exact (Hoks iw _ Hw)).
    assert (Hr' : Mpmc.room (Mpmc.shared c) (Mpmc.in_ (Mpmc.shared c)) len = true)
      by (apply mpmc_room_complete; lia).
    pose proof (run_put_alone 8 c iw bw len pw Hw) as Hret.
    rewrite (put_alone_completes _ bw len pw 8 Hr' Qi) in Hret by (auto; lia).
    exists iw, 8%nat. eexists. eexists. split; [lia|]. split; [exact Hw|].
    split; [exact Hpw|]. split; [exact Hret|reflexivity].
Qed.

Lemma uniform_calls_never_stuck_witness :
  let msg := region_of (list_byte_of_string "abcdef") in
  let calls := [Mpmc.put_call msg 6 Mpmc.top; Mpmc.put_call msg 6 Mpmc.top;
                Mpmc.get_call zeroed 6 Mpmc.top; Mpmc.put_call msg 6 Mpmc.top] in
  let sched := one_by_one 0 1 ++ repeat (1%nat, false) 3 ++ repeat (2%nat, false) 3 ++
               repeat (3%nat, false) 3 in
  let c := Mpmc.run sched (mpmc_start 8 false zeroed calls) in
  map Mpmc.call_pc (Mpmc.pool c) =
    [Mpmc.returned; Mpmc.top; Mpmc.checked 0; Mpmc.top] /\
  exists j n cl cl',
    (n <= 8)%nat /\
    Mpmc.pool c !! j = Some cl /\ Mpmc.call_pc cl <> Mpmc.returned /\
    Mpmc.pool (Mpmc.run (repeat (j, false) n) c) !! j = Some cl' /\
    Mpmc.call_pc cl' = Mpmc.returned.
Proof.
  intros msg calls sched c.
  split; [vm_compute; reflexivity|].
  apply (uniform_calls_never_stuck 8 6 zeroed msg calls c).
  - exists 3. split; [lia | reflexivity].
  - lia.
  - repeat constructor; simpl; lia.
  - repeat constructor; intros k Hk; reflexivity.
  - apply run_reach. vm_compute. reflexivity.
  - unfold mpmc_headroom. vm_compute. reflexivity.
  - exists 1%nat. eexists. eexists. split; [vm_compute; reflexivity|discriminate].
  - exists 2%nat. eexists. eexists. split; [vm_compute; reflexivity|discriminate].
Defined.

(** ** The test program *)

Lemma test_str_length : length Harness.test_str = 1000%nat.
Proof. vm_compute. reflexivity. Qed.

Lemma thread_call_fresh (c : Mpmc.call) :
  Harness.thread_call c -> fresh_call (Z.shiftl 1 13) c.
Proof.
  intros [|buf]; (split; [reflexivity|]);
    unfold Harness.test_write, Harness.test_read, Mpmc.call_len;
    rewrite test_str_length; change (Z.shiftl 1 13) with 8192; lia.
Qed.

Lemma thread_call_uniform (c : Mpmc.call) :
  Harness.thread_call c ->
  uniform_call (Z.of_nat (length Harness.test_str)) (region_of Harness.test_str) c.
Proof.
  intros [|buf]; (split; [reflexivity|]); [intros k _; reflexivity|exact I].
Qed.

(** X15: The [assert] of [test_read] never fails: with any number of writer and
    reader threads, however their steps interleave, whatever the storage
    and the readers' arrays held at first, every [read] that returns has
    filled the array with [test_str] -- as long as each step is taken where
    [in_ + buf_size_ < 2^64]. *)
Theorem test_read_assertion_holds (malloc_result : option mem) (turns : list Mpmc.call)
    (c0 c : Mpmc.config) :
  Harness.main malloc_result turns = Done c0 ->
  Forall Harness.thread_call turns ->
  mpmc_reach c0 c ->
  forallb Harness.passed (Mpmc.pool c) = true.
Proof.
  intros Hmain Hturns Hreach.
  apply forallb_forall. intros cl Hin.
  apply list_elem_of_In, list_elem_of_lookup in Hin as [i Hi].
  destruct cl as [buf l p|buf l p]; [reflexivity|].
  destruct p; try reflexivity. simpl.
  destruct malloc_result as [m|]; [|discriminate].
  injection Hmain as <-.
  change (Mpmc.mk_config (Mpmc.mk m (Z.shiftl 1 13) false 0 0 0 0) turns [])
    with (mpmc_start (Z.shiftl 1 13) false m turns) in Hreach.
  assert (Hinv : data_inv (Z.of_nat (length Harness.test_str))
                   (region_of Harness.test_str) c).
  { apply (uniform_reach (Z.shiftl 1 13) _ false m _ turns); auto.
    - exists 13. split; [lia|reflexivity].
    - rewrite test_str_length. lia.
    - eapply Forall_impl; [exact Hturns|]. exact thread_call_fresh.
    - eapply Forall_impl; [exact Hturns|]. exact thread_call_uniform. }
  destruct (uniform_reader _ _ c i buf l Hinv Hi) as [_ Hbytes].
  rewrite bytes_of_region in Hbytes.
  unfold Harness.assertion.
  destruct (List.list_eq_dec byte_eq_dec _ _) as [|Hne]; [reflexivity|contradiction].
Qed.

Lemma test_read_assertion_holds_witness :
  let turns := [Harness.test_write; Harness.test_read zeroed;
                Harness.test_read (fill "x"); Harness.test_write] in
  let sched := one_by_one 0 2 ++ repeat (2%nat, false) 3 ++ one_by_one 3 1 ++
               repeat (2%nat, false) 6 in
  exists c0,
    Harness.main (Some zeroed) turns = Done c0 /\
    let c := Mpmc.run sched c0 in
    map Mpmc.call_pc (Mpmc.pool c) = repeat Mpmc.returned 4 /\
    forallb Harness.passed (Mpmc.pool c) = true.
Proof.
  intros turns sched. eexists. split; [reflexivity|]. intros c.
  split; [vm_compute; reflexivity|].
  apply (test_read_assertion_holds (Some zeroed) turns _ c eq_refl).
  - repeat constructor.
  - apply run_reach. vm_compute. reflexivity.
Defined.
